(** * Directive application and polling scheduler of the Apollo client

    A shallow embedding of [src/queries/directives.ts] and of the polling
    scheduler that [test/scheduler.ts] exercises, with the properties the
    specification states about them.

    Layout:
    - [Js]: completions (normal return or thrown error) as a small monad,
      and plain objects used as maps, with what they inherit;
    - [Ast]: the GraphQL document tree as [graphql] declares it;
    - [Directives]: the functions of [directives.ts] on document values;
    - [Store]: the same functions on an object store, where cloning and
      in-place assignment are explicit;
    - [Scheduler]: the polling scheduler as a transition system;
    - [Samples], [Notions], [StoreNotions], [Representation],
      [MoreNotions], [DocRepresentation]: inputs and the notions the
      statements use;
    - [DirectivesTheory], [StoreTheory], [Refinement], [SchedulerTheory]:
      the properties;
    - [MoreTheory], [DocRefinement]: further properties of the rewriter,
      and the agreement of its two embeddings on every document. *)

From stdpp Require Import base option list gmap strings fin_maps.

Open Scope string_scope.
Open Scope list_scope.
Set Warnings "-register-all".

(** ** Completions *)

Module Js.

(** What a [throw] carries.  [Error] is raised by [throw new Error(msg)];
    [TypeError] is what the engine raises when a value that is not a
    function is called or a property of [undefined] is read, [RangeError]
    what it raises when the call stack is exhausted. *)
Inductive JsError :=
| Error (message : string)
| TypeError (message : string)
| RangeError (message : string).

(** A call either returns a value or throws. *)
Inductive Completion (A : Type) :=
| Return (a : A)
| Throw (e : JsError).
Global Arguments Return {A} a.
Global Arguments Throw {A} e.

Global Instance Completion_ret : MRet Completion := λ A a, Return a.
Global Instance Completion_bind : MBind Completion := λ A B f c,
  match c with
  | Return a => f a
  | Throw e => Throw e
  end.

Global Instance Completion_fmap : FMap Completion := λ A B f c,
  match c with
  | Return a => Return (f a)
  | Throw e => Throw e
  end.

(** [forEach] with a body that may throw: left to right, stopping at the
    first throw. *)
Fixpoint forEach `{MBind M, MRet M} {A S} (body : S → A → M S) (st : S) (l : list A)
  : M S :=
  match l with
  | [] => mret st
  | x :: l' => st' ← body st x; forEach body st' l'
  end.

Definition returns {A} (c : Completion A) : Prop := ∃ a, c = Return a.
Definition throws {A} (c : Completion A) : Prop := ∃ e, c = Throw e.

(** The values a variables object can hold under a name, and
    [undefined], which reading a name that is not there gives.
    [JsObject] is any object, a function included. *)
Inductive JsValue :=
| JsUndefined
| JsNull
| JsBoolean (b : bool)
| JsNumber (z : Z)
| JsString (s : string)
| JsObject.

Global Instance JsValue_eq_dec : EqDecision JsValue.
Proof. solve_decision. Defined.

(** ToBoolean, as used by [if (v)] and [!v]. *)
Definition truthy (v : JsValue) : bool :=
  match v with
  | JsUndefined => false
  | JsNull => false
  | JsBoolean b => b
  | JsNumber z => negb (z =? 0)%Z
  | JsString s => negb (String.eqb s "")
  | JsObject => true
  end.

(** *** Plain objects as maps

    The registry and the variables are plain objects: [{}] on lines 33 and
    36, the literals of lines 172 and 179, and what a caller writes.  A map
    here holds the own properties of such an object.  [o[name]] does not
    stop at them: a name that is not an own property is looked up in
    [Object.prototype], which every plain object inherits from.  These are
    the names found there.  Under [__proto__] is [Object.prototype]
    itself, an object; under the others are functions. *)
Definition receiverMethods : list string :=
  [ "hasOwnProperty"; "isPrototypeOf"; "propertyIsEnumerable"; "toLocaleString";
    "valueOf"; "__defineGetter__"; "__defineSetter__"; "__lookupGetter__";
    "__lookupSetter__" ].

Definition Object_prototype : list string :=
  "constructor" :: "toString" :: "__proto__" :: receiverMethods.

(** [o[name]] for a plain object [o] that holds values: the own property,
    or else the member of [Object.prototype], or else [undefined]. *)
Definition getValue (o : gmap string JsValue) (name : string) : JsValue :=
  match o !! name with
  | Some v => v
  | None => if bool_decide (name ∈ Object_prototype) then JsObject else JsUndefined
  end.

End Js.
Import Js.

(** ** The document tree *)

Module Ast.

(** [Value] of graphql: the kinds an argument value can have.  The kind
    [Variable] is [Variable_] here, the plain name being taken. *)
Inductive Value :=
| Variable_ (name : string)
| IntValue (value : string)
| FloatValue (value : string)
| StringValue (value : string)
| BooleanValue (value : bool)
| EnumValue (value : string)
| ListValue (values : list Value)
| ObjectValue (fields : list (string * Value)).

(** [name] is [None] when the node has no [name] child; the code tests for
    it ([!ifArgument.name], [directive.name && ...]). *)
Record Argument := { arg_name : option string; arg_value : Value }.

Record Directive := { dir_name : option string; dir_arguments : list Argument }.

(** [Selection] is the union [Field | FragmentSpread | InlineFragment].
    A [Field] owns a selection set or not; an [InlineFragment] always
    does; a [FragmentSpread] never does.

    The types are not checked when the code runs, and the rewriter can put
    in a selection set a value that is none of the three: the string that
    [Object.prototype.toString] returns, when a directive is named
    [toString] (see [Directives.lookupResolver]).  [NotASelection] is such
    a value: it is truthy, it has no [kind], no [directives] and no
    [selectionSet], and the rewriter does nothing with it but read these. *)
Inductive Selection :=
| Field (alias : option string) (name : string) (arguments : list Argument)
        (directives : list Directive) (selectionSet : option SelectionSet)
| FragmentSpread (name : string) (directives : list Directive)
| InlineFragment (typeCondition : string) (directives : list Directive)
                 (selectionSet : SelectionSet)
| NotASelection
with SelectionSet :=
| Build_SelectionSet (selections : list Selection).

Definition selections (selSet : SelectionSet) : list Selection :=
  match selSet with Build_SelectionSet l => l end.

Definition directives (selection : Selection) : list Directive :=
  match selection with
  | Field _ _ _ ds _ => ds
  | FragmentSpread _ ds => ds
  | InlineFragment _ ds _ => ds
  | NotASelection => []
  end.

(** A selection as the types have it: one of the three kinds of node. *)
Definition isNode (selection : Selection) : bool :=
  match selection with
  | NotASelection => false
  | _ => true
  end.

(** The selection set [applyDirectivesToSelectionSet] descends into:
    [withSelSet.kind === 'InlineFragment' ||
     (withSelSet.kind === 'Field' && withSelSet.selectionSet)]. *)
Definition nested (selection : Selection) : option SelectionSet :=
  match selection with
  | Field _ _ _ _ ss => ss
  | FragmentSpread _ _ => None
  | InlineFragment _ _ ss => Some ss
  | NotASelection => None
  end.

(** [withSelSet.selectionSet = selSet'] on a selection that has one. *)
Definition set_selectionSet (selection : Selection) (ss : SelectionSet) : Selection :=
  match selection with
  | Field a n args ds _ => Field a n args ds (Some ss)
  | FragmentSpread n ds => FragmentSpread n ds
  | InlineFragment t ds _ => InlineFragment t ds ss
  | NotASelection => NotASelection
  end.

(** A selection without what is below it: kind, names, arguments and
    directives. *)
Definition head (selection : Selection) : Selection :=
  match selection with
  | Field a n args ds _ => Field a n args ds None
  | FragmentSpread n ds => FragmentSpread n ds
  | InlineFragment t ds _ => InlineFragment t ds (Build_SelectionSet [])
  | NotASelection => NotASelection
  end.

Inductive OperationType := query | mutation | subscription.

(** [Definition] of graphql: [OperationDefinition | FragmentDefinition]. *)
Inductive DocDefinition :=
| OperationDefinition (operation : OperationType) (name : option string)
                      (directives : list Directive) (selectionSet : SelectionSet)
| FragmentDefinition (name : string) (typeCondition : string)
                     (directives : list Directive) (selectionSet : SelectionSet).

Definition def_selectionSet (d : DocDefinition) : SelectionSet :=
  match d with
  | OperationDefinition _ _ _ ss => ss
  | FragmentDefinition _ _ _ ss => ss
  end.

Definition def_set_selectionSet (d : DocDefinition) (ss : SelectionSet) : DocDefinition :=
  match d with
  | OperationDefinition o n ds _ => OperationDefinition o n ds ss
  | FragmentDefinition n t ds _ => FragmentDefinition n t ds ss
  end.

Record Document := { definitions : list DocDefinition }.

(** Induction over the tree: the generated principle says nothing about
    the selections inside a selection set. *)
Section Selection_tree_ind.
Variable P : Selection → Prop.
Variable Q : SelectionSet → Prop.
Hypothesis HField_leaf : ∀ a n args ds, P (Field a n args ds None).
Hypothesis HField : ∀ a n args ds ss, Q ss → P (Field a n args ds (Some ss)).
Hypothesis HSpread : ∀ n ds, P (FragmentSpread n ds).
Hypothesis HInline : ∀ t ds ss, Q ss → P (InlineFragment t ds ss).
Hypothesis HNotASelection : P NotASelection.
Hypothesis HSet : ∀ l, Forall P l → Q (Build_SelectionSet l).

Fixpoint Selection_tree_ind (s : Selection) : P s :=
  match s with
  | Field a n args ds None => HField_leaf a n args ds
  | Field a n args ds (Some ss) => HField a n args ds ss (SelectionSet_tree_ind ss)
  | FragmentSpread n ds => HSpread n ds
  | InlineFragment t ds ss => HInline t ds ss (SelectionSet_tree_ind ss)
  | NotASelection => HNotASelection
  end
with SelectionSet_tree_ind (ss : SelectionSet) : Q ss :=
  match ss with
  | Build_SelectionSet l =>
      HSet l ((fix go (l : list Selection) : Forall P l :=
                 match l with
                 | [] => Forall_nil_2 P
                 | s :: l' => Forall_cons_2 P s l' (Selection_tree_ind s) (go l')
                 end) l)
  end.
End Selection_tree_ind.

End Ast.
Import Ast.

(** ** [directives.ts] on document values *)

Module Directives.

Abbreviation Variables := (gmap string JsValue).

(** What a resolver hands back is a reference, and the rewriter later
    assigns through the reference it was given itself.  The model keeps the
    three cases apart that the rewriter can observe: the resolver returned
    the selection it was called with (the built-in resolvers do:
    [return selection]), it returned [undefined], or it returned something
    else: another selection object, one that shares nothing with the
    document, or [NotASelection]. *)
Inductive Resolved :=
| ReturnsArgument
| ReturnsUndefined
| ReturnsOther (s : Selection).

(** [DirectiveResolver]: a handler that takes a selection, variables, and a
    directive to apply to that selection. *)
Definition DirectiveResolver : Type :=
  Selection → Variables → Directive → Completion Resolved.

Abbreviation Resolvers := (gmap string DirectiveResolver).

(** [skipIncludeDirectiveResolver], lines 112-154.  The first message is
    the source's, typing slip included.  The function does nothing with
    [selection] but return it, so it is the same on selection values and on
    references to selection objects.  [variables[name]] (line 135) is
    [getValue]: it finds what the variables object inherits as well. *)
Definition skipIncludeDirectiveResolver {Sel : Type} (directiveName : string)
    (selection : Sel) (variables : Variables) (directive : Directive)
  : Completion Resolved :=
  let directiveArguments := dir_arguments directive in
  match directiveArguments with
  | [ifArgument] =>
      if negb (bool_decide (arg_name ifArgument = Some "if")) then
        Throw (Error ("Invalid argument for the @" +:+ directiveName +:+ " directive."))
      else
        let ifValue := arg_value ifArgument in
        evaledValue ←
          match ifValue with
          | BooleanValue value => Return (JsBoolean value)
          | Variable_ name =>
              match getValue variables name with
              | JsUndefined =>
                  Throw (Error ("Invalid variable referenced in @" +:+ directiveName
                                +:+ " directive."))
              | v => Return v
              end
          | _ =>
              Throw (Error ("Invalid argument value for the @" +:+ directiveName
                            +:+ " directive."))
          end;
        let evaledValue :=
          if bool_decide (directiveName = "skip")
          then JsBoolean (negb (truthy evaledValue)) else evaledValue in
        if truthy evaledValue then Return ReturnsArgument else Return ReturnsUndefined
  | _ => Throw (Error "Incorrect number of arguments for the @$(directiveName} directive.")
  end.

Definition skipDirectiveResolver : DirectiveResolver :=
  λ selection variables directive,
    skipIncludeDirectiveResolver "skip" selection variables directive.

Definition includeDirectiveResolver : DirectiveResolver :=
  λ selection variables directive,
    skipIncludeDirectiveResolver "include" selection variables directive.

(** The functions a plain object inherits from [Object.prototype], called
    as line 74 calls a resolver: with the current selection, the variables
    and the directive as arguments, and without a receiver.

    [constructor] is [Object], which returns the object it is given.
    [toString] does not look at its arguments; without a receiver it
    returns the string [[object Undefined]], which is not a selection.
    The others ([receiverMethods]) convert the receiver to an object
    before they return anything, and that throws when there is none.

    What line 74 passes first is an object: the selection, or what a
    resolver of [skip] or [include] returned in its place. *)
Definition Object_constructor {Sel : Type} (selection : Sel) (variables : Variables)
    (directive : Directive) : Completion Resolved :=
  Return ReturnsArgument.

Definition Object_prototype_toString {Sel : Type} (selection : Sel) (variables : Variables)
    (directive : Directive) : Completion Resolved :=
  Return (ReturnsOther NotASelection).

Definition Object_prototype_method {Sel : Type} (selection : Sel) (variables : Variables)
    (directive : Directive) : Completion Resolved :=
  Throw (TypeError "Cannot convert undefined or null to object").

(** The function under [name] in [Object.prototype], if there is one. *)
Definition inherited {Sel : Type} (name : string)
  : option (Sel → Variables → Directive → Completion Resolved) :=
  if bool_decide (name = "constructor") then Some Object_constructor
  else if bool_decide (name = "toString") then Some Object_prototype_toString
  else if bool_decide (name ∈ receiverMethods) then Some Object_prototype_method
  else None.

(** [directiveResolvers[name]], line 73, when it is a function: the own
    property of the registry, or else the function the registry inherits.
    [None] is what cannot be called: [undefined], when the name is found
    nowhere, and the object under [__proto__]. *)
Definition lookupResolver (directiveResolvers : Resolvers) (name : string)
  : option DirectiveResolver :=
  match directiveResolvers !! name with
  | Some directiveResolver => Some directiveResolver
  | None => inherited name
  end.

(** The references the callback of [selections.map] holds: the selection it
    was called on, or what a resolver returned in its place. *)
Inductive Ref :=
| This
| Other (s : Selection).

Definition deref (selection : Selection) (r : Ref) : Selection :=
  match r with
  | This => selection
  | Other s => s
  end.

(** The three [let]s of the callback, lines 67-69; [None] is [undefined]
    for [newSelection] and [null] for [toBeRemoved]. *)
Record Locals := {
  newSelection : option Ref;
  currSelection : Ref;
  toBeRemoved : option bool
}.

Definition initially : Locals :=
  {| newSelection := Some This; currSelection := This; toBeRemoved := None |}.

(** The body of [selection.directives.forEach], lines 72-89. *)
Definition forDirective (variables : Variables) (directiveResolvers : Resolvers)
    (selection : Selection) (st : Locals) (directive : Directive) : Completion Locals :=
  match dir_name directive with
  | Some name =>
      if bool_decide (name = "") then Return st else
      match lookupResolver directiveResolvers name with
      | None => Throw (TypeError "directiveResolver is not a function")
      | Some directiveResolver =>
          r ← directiveResolver (deref selection (currSelection st)) variables directive;
          let newSelection' :=
            match r with
            | ReturnsArgument => Some (currSelection st)
            | ReturnsUndefined => None
            | ReturnsOther s => Some (Other s)
            end in
          if bool_decide (name = "skip") || bool_decide (name = "include") then
            match newSelection', toBeRemoved st with
            | None, None =>
                Return {| newSelection := None; currSelection := currSelection st;
                          toBeRemoved := Some true |}
            | None, Some _ =>
                Return {| newSelection := None; currSelection := This;
                          toBeRemoved := toBeRemoved st |}
            | Some ns, _ =>
                Return {| newSelection := Some ns; currSelection := ns;
                          toBeRemoved := Some false |}
            end
          else
            Return {| newSelection := newSelection'; currSelection := currSelection st;
                      toBeRemoved := toBeRemoved st |}
      end
  | None => Return st
  end.

(** [selection.directives], line 71, for the [forEach] that follows: what
    is not a selection has none, and [forEach] of [undefined] throws. *)
Definition directivesOf (selection : Selection) : Completion (list Directive) :=
  match selection with
  | NotASelection =>
      Throw (TypeError "Cannot read properties of undefined (reading 'forEach')")
  | _ => Return (directives selection)
  end.

(** Lines 67-90: the three [let]s and the [forEach]. *)
Definition resolveDirectives (variables : Variables) (directiveResolvers : Resolvers)
    (selection : Selection) : Completion Locals :=
  ds ← directivesOf selection;
  forEach (forDirective variables directiveResolvers selection) initially ds.

(** [applyDirectivesToSelectionSet], lines 58-110, with the callback of
    [selections.map] (lines 65-105) as [applyDirectivesToSelection]: [None]
    is the [undefined] that [filter(identity)] drops.  The recursive call
    assigns to [selection.selectionSet]; what the callback returns is
    [newSelection], which shows the assignment when it is the selection
    itself. *)
Fixpoint applyDirectivesToSelection (variables : Variables) (directiveResolvers : Resolvers)
    (selection : Selection) : Completion (option Selection) :=
  st ← resolveDirectives variables directiveResolvers selection;
  match newSelection st with
  | Some ns =>
      withSelSet ←
        match selection with
        | InlineFragment t ds ss =>
            ss' ← applyDirectivesToSelectionSet variables directiveResolvers ss;
            Return (InlineFragment t ds ss')
        | Field a n args ds (Some ss) =>
            ss' ← applyDirectivesToSelectionSet variables directiveResolvers ss;
            Return (Field a n args ds (Some ss'))
        | _ => Return selection
        end;
      Return (Some (deref withSelSet ns))
  | None =>
      if negb (bool_decide (toBeRemoved st = Some true))
      then Return (Some (deref selection (currSelection st)))
      else Return None
  end
with applyDirectivesToSelectionSet (variables : Variables) (directiveResolvers : Resolvers)
    (selSet : SelectionSet) : Completion SelectionSet :=
  match selSet with
  | Build_SelectionSet selections =>
      mapped ← mapM (applyDirectivesToSelection variables directiveResolvers) selections;
      Return (Build_SelectionSet (omap id mapped))
  end.

Definition isFragmentDefinition (d : DocDefinition) : bool :=
  match d with
  | FragmentDefinition _ _ _ _ => true
  | OperationDefinition _ _ _ _ => false
  end.

Definition isQueryDefinition (d : DocDefinition) : bool :=
  match d with
  | OperationDefinition query _ _ _ => true
  | _ => false
  end.

(** Modelled from the spec: [getFragmentDefinitions] of [./getFromAST], a
    module that is not among the sources.  The spec has the entry point
    rewrite "every Fragment Definition's selection set": the fragment
    definitions of the document, in document order. *)
Definition getFragmentDefinitions (doc : Document) : list DocDefinition :=
  filter (λ d, isFragmentDefinition d) (definitions doc).

(** Modelled from the spec: [getQueryDefinition] of [./getFromAST], a module
    that is not among the sources.  The spec has the entry point rewrite
    "the query Operation Definition's selection set" of a document with one
    operation definition: the query operation definition of the document.
    The spec does not say what a document without one gives; here the call
    throws, and of several the first is taken. *)
Definition getQueryDefinition (doc : Document) : Completion DocDefinition :=
  match filter (λ d, isQueryDefinition d) (definitions doc) with
  | queryDef :: _ => Return queryDef
  | [] => Throw (Error "Must contain a query definition.")
  end.

(** [applyDirectives], lines 28-56, on values: [cloneDeep] is the identity
    on a value, and the assignments to [queryDef.selectionSet],
    [fragmentDef.selectionSet] and [newDoc.definitions] build the new
    value.  [Store.applyDirectives] has the objects. *)
Definition applyDirectives (doc : Document) (variables : option Variables)
    (directiveResolvers : option Resolvers) : Completion Document :=
  let variables := default ∅ variables in
  let directiveResolvers := default ∅ directiveResolvers in
  let newDoc := doc in
  let fragmentDefs := getFragmentDefinitions newDoc in
  queryDef ← getQueryDefinition newDoc;
  newSelSet ← applyDirectivesToSelectionSet variables directiveResolvers
                (def_selectionSet queryDef);
  let queryDef := def_set_selectionSet queryDef newSelSet in
  definitions ←
    mapM (λ fragmentDef,
            fragmentSelSet ← applyDirectivesToSelectionSet variables directiveResolvers
                               (def_selectionSet fragmentDef);
            Return (def_set_selectionSet fragmentDef fragmentSelSet))
         fragmentDefs;
  Return {| definitions := queryDef :: definitions |}.

Definition applySkipResolver (doc : Document) (variables : option Variables)
  : Completion Document :=
  applyDirectives doc variables (Some {[ "skip" := skipDirectiveResolver ]}).

Definition applyIncludeResolver (doc : Document) (variables : option Variables)
  : Completion Document :=
  applyDirectives doc variables (Some {[ "include" := includeDirectiveResolver ]}).

End Directives.

(** ** [directives.ts] on an object store

    The functions of [directives.ts] assign to the objects they are handed.
    Here the document is a graph of objects in a store, references are
    addresses, [cloneDeep] makes new objects, and every assignment of the
    source is a write at an address. *)

Module Store.
Import Directives.

(** The objects of a document.  Names, arguments and directives are never
    assigned to by the code and stay values inside the object that has
    them; what the code assigns to ([definitions], [selectionSet],
    [selections]) is a reference or an array of references.
    [NotASelectionObj] is what [NotASelection] is in the store. *)
Inductive Obj :=
| DocumentObj (definitions : list nat)
| OperationDefinitionObj (operation : OperationType) (name : option string)
                         (directives : list Directive) (selectionSet : nat)
| FragmentDefinitionObj (name : string) (typeCondition : string)
                        (directives : list Directive) (selectionSet : nat)
| SelectionSetObj (selections : list nat)
| FieldObj (alias : option string) (name : string) (arguments : list Argument)
           (directives : list Directive) (selectionSet : option nat)
| FragmentSpreadObj (name : string) (directives : list Directive)
| InlineFragmentObj (typeCondition : string) (directives : list Directive)
                    (selectionSet : nat)
| NotASelectionObj.

Abbreviation Heap := (gmap nat Obj).

(** The references an object holds. *)
Definition refs (o : Obj) : list nat :=
  match o with
  | DocumentObj ds => ds
  | OperationDefinitionObj _ _ _ ss => [ss]
  | FragmentDefinitionObj _ _ _ ss => [ss]
  | SelectionSetObj l => l
  | FieldObj _ _ _ _ ss => option_list ss
  | FragmentSpreadObj _ _ => []
  | InlineFragmentObj _ _ ss => [ss]
  | NotASelectionObj => []
  end.

(** The same object with every reference renamed. *)
Definition relocate (f : nat → nat) (o : Obj) : Obj :=
  match o with
  | DocumentObj ds => DocumentObj (f <$> ds)
  | OperationDefinitionObj op n ds ss => OperationDefinitionObj op n ds (f ss)
  | FragmentDefinitionObj n t ds ss => FragmentDefinitionObj n t ds (f ss)
  | SelectionSetObj l => SelectionSetObj (f <$> l)
  | FieldObj a n args ds ss => FieldObj a n args ds (f <$> ss)
  | FragmentSpreadObj n ds => FragmentSpreadObj n ds
  | InlineFragmentObj t ds ss => InlineFragmentObj t ds (f ss)
  | NotASelectionObj => NotASelectionObj
  end.

(** An address above every address in use. *)
Definition bound (h : Heap) : nat := S (max_list (elements (dom h))).

(** A computation on the store: it completes, normally or by a throw, and
    leaves a store. *)
Definition M (A : Type) : Type := Heap → Completion A * Heap.

#[export] Instance M_ret : MRet M := λ A a h, (Return a, h).
#[export] Instance M_bind : MBind M := λ A B f m h,
  match m h with
  | (Return a, h') => f a h'
  | (Throw e, h') => (Throw e, h')
  end.

Definition throw {A} (e : JsError) : M A := λ h, (Throw e, h).
Definition lift {A} (c : Completion A) : M A := λ h, (c, h).
Definition get : M Heap := λ h, (Return h, h).

(** Reading a property through a reference that has no object. *)
Definition read (l : nat) : M Obj := λ h,
  match h !! l with
  | Some o => (Return o, h)
  | None => (Throw (TypeError "Cannot read properties of undefined"), h)
  end.

Definition write (l : nat) (o : Obj) : M () := λ h, (Return (), <[l := o]> h).

(** A new object, at an address not in use. *)
Definition alloc (o : Obj) : M nat := λ h, (Return (bound h), <[bound h := o]> h).

(** [x.selectionSet = ss].  It is only ever done to an object that was
    just seen to have the property; on the others it is left out. *)
Definition assign_selectionSet (l : nat) (ss : nat) : M () :=
  o ← read l;
  match o with
  | OperationDefinitionObj op n ds _ => write l (OperationDefinitionObj op n ds ss)
  | FragmentDefinitionObj n t ds _ => write l (FragmentDefinitionObj n t ds ss)
  | FieldObj a n args ds _ => write l (FieldObj a n args ds (Some ss))
  | InlineFragmentObj t ds _ => write l (InlineFragmentObj t ds ss)
  | _ => mret ()
  end.

(** [selSet.selections = l]. *)
Definition assign_selections (selSet : nat) (l : list nat) : M () :=
  o ← read selSet;
  match o with
  | SelectionSetObj _ => write selSet (SelectionSetObj l)
  | _ => mret ()
  end.

(** [doc.definitions = l]. *)
Definition assign_definitions (doc : nat) (l : list nat) : M () :=
  o ← read doc;
  match o with
  | DocumentObj _ => write doc (DocumentObj l)
  | _ => mret ()
  end.

(** [x.directives], for the [forEach] that follows: an object without the
    property makes it throw. *)
Definition directivesOf (o : Obj) : M (list Directive) :=
  match o with
  | FieldObj _ _ _ ds _ => mret ds
  | FragmentSpreadObj _ ds => mret ds
  | InlineFragmentObj _ ds _ => mret ds
  | OperationDefinitionObj _ _ ds _ => mret ds
  | FragmentDefinitionObj _ _ ds _ => mret ds
  | _ => throw (TypeError "Cannot read properties of undefined (reading 'forEach')")
  end.

(** [def.selectionSet] of a definition. *)
Definition selectionSetOf (def : nat) : M nat :=
  o ← read def;
  match o with
  | OperationDefinitionObj _ _ _ ss => mret ss
  | FragmentDefinitionObj _ _ _ ss => mret ss
  | _ => throw (TypeError "Cannot read properties of undefined (reading 'selections')")
  end.

(** Putting a document value into the store, as the parser does: one new
    object per node. *)
Fixpoint allocSelection (s : Selection) : M nat :=
  match s with
  | Field a n args ds None => alloc (FieldObj a n args ds None)
  | Field a n args ds (Some ss) =>
      l ← allocSelectionSet ss; alloc (FieldObj a n args ds (Some l))
  | FragmentSpread n ds => alloc (FragmentSpreadObj n ds)
  | InlineFragment t ds ss =>
      l ← allocSelectionSet ss; alloc (InlineFragmentObj t ds l)
  | NotASelection => alloc NotASelectionObj
  end
with allocSelectionSet (ss : SelectionSet) : M nat :=
  match ss with
  | Build_SelectionSet l => ls ← mapM allocSelection l; alloc (SelectionSetObj ls)
  end.

Definition allocDefinition (d : DocDefinition) : M nat :=
  match d with
  | OperationDefinition op n ds ss =>
      l ← allocSelectionSet ss; alloc (OperationDefinitionObj op n ds l)
  | FragmentDefinition n t ds ss =>
      l ← allocSelectionSet ss; alloc (FragmentDefinitionObj n t ds l)
  end.

Definition allocDocument (doc : Document) : M nat :=
  ls ← mapM allocDefinition (definitions doc); alloc (DocumentObj ls).

(** Reading a document value back from the store, to a depth. *)
Fixpoint loadSelectionSet (depth : nat) (h : Heap) (l : nat) : option SelectionSet :=
  match depth with
  | 0 => None
  | S depth =>
      match h !! l with
      | Some (SelectionSetObj ls) =>
          Build_SelectionSet <$>
            mapM (λ s,
                    match h !! s with
                    | Some (FieldObj a n args ds None) => Some (Field a n args ds None)
                    | Some (FieldObj a n args ds (Some ss)) =>
                        (λ ss', Field a n args ds (Some ss')) <$> loadSelectionSet depth h ss
                    | Some (FragmentSpreadObj n ds) => Some (FragmentSpread n ds)
                    | Some (InlineFragmentObj t ds ss) =>
                        InlineFragment t ds <$> loadSelectionSet depth h ss
                    | Some NotASelectionObj => Some NotASelection
                    | _ => None
                    end) ls
      | _ => None
      end
  end.

Definition loadDocument (depth : nat) (h : Heap) (l : nat) : option Document :=
  match h !! l with
  | Some (DocumentObj ls) =>
      Build_Document <$>
        mapM (λ d,
                match h !! d with
                | Some (OperationDefinitionObj op n ds ss) =>
                    OperationDefinition op n ds <$> loadSelectionSet depth h ss
                | Some (FragmentDefinitionObj n t ds ss) =>
                    FragmentDefinition n t ds <$> loadSelectionSet depth h ss
                | _ => None
                end) ls
  | _ => None
  end.

(** [cloneDeep] of lodash copies every object that can be reached from
    its argument, once each, and has the copies refer to one another as
    the originals do.  Here every object of the store gets a copy, at its
    own address moved up by [bound h], with its references moved up
    likewise: the copies that can be reached from the copy of [value] are
    those of the objects that can be reached from [value], and the other
    copies cannot be reached from anywhere. *)
Definition cloneDeep (value : nat) : M nat := λ h,
  let n := bound h in
  (Return (value + n), h ∪ kmap (λ l, l + n) (relocate (λ l, l + n) <$> h)).

(** A resolver is handed a reference, and the store to read through it.
    It reads; what it returns that is not its argument is made new in the
    store by the caller ([forDirective]). *)
Definition DirectiveResolver : Type :=
  Heap → nat → Variables → Directive → Completion Resolved.

Abbreviation Resolvers := (gmap string DirectiveResolver).

Definition skipDirectiveResolver : DirectiveResolver :=
  λ _ selection variables directive,
    skipIncludeDirectiveResolver "skip" selection variables directive.

Definition includeDirectiveResolver : DirectiveResolver :=
  λ _ selection variables directive,
    skipIncludeDirectiveResolver "include" selection variables directive.

(** [directiveResolvers[name]], line 73, when it is a function: the own
    property of the registry, or else the function the registry inherits
    from [Object.prototype] ([Directives.inherited]). *)
Definition lookupResolver (directiveResolvers : Resolvers) (name : string)
  : option DirectiveResolver :=
  match directiveResolvers !! name with
  | Some directiveResolver => Some directiveResolver
  | None => (λ f, λ _ : Heap, f) <$> inherited name
  end.

(** The three [let]s of the callback, lines 67-69. *)
Record Locals := {
  newSelection : option nat;
  currSelection : nat;
  toBeRemoved : option bool
}.

(** The body of [selection.directives.forEach], lines 72-89.  An object a
    resolver made is new in the store. *)
Definition forDirective (variables : Variables) (directiveResolvers : Resolvers)
    (selection : nat) (st : Locals) (directive : Directive) : M Locals :=
  match dir_name directive with
  | Some name =>
      if bool_decide (name = "") then mret st else
      match lookupResolver directiveResolvers name with
      | None => throw (TypeError "directiveResolver is not a function")
      | Some directiveResolver =>
          h ← get;
          r ← lift (directiveResolver h (currSelection st) variables directive);
          newSelection' ←
            match r with
            | ReturnsArgument => mret (Some (currSelection st))
            | ReturnsUndefined => mret None
            | ReturnsOther s => l ← allocSelection s; mret (Some l)
            end;
          if bool_decide (name = "skip") || bool_decide (name = "include") then
            match newSelection', toBeRemoved st with
            | None, None =>
                mret {| newSelection := None; currSelection := currSelection st;
                        toBeRemoved := Some true |}
            | None, Some _ =>
                mret {| newSelection := None; currSelection := selection;
                        toBeRemoved := toBeRemoved st |}
            | Some ns, _ =>
                mret {| newSelection := Some ns; currSelection := ns;
                        toBeRemoved := Some false |}
            end
          else
            mret {| newSelection := newSelection'; currSelection := currSelection st;
                    toBeRemoved := toBeRemoved st |}
      end
  | None => mret st
  end.

(** The callback of [selections.map], lines 65-105; [recurse] is the call
    of [applyDirectivesToSelectionSet] on line 97. *)
Definition applyDirectivesToSelection (recurse : nat → M nat) (variables : Variables)
    (directiveResolvers : Resolvers) (selection : nat) : M (option nat) :=
  o ← read selection;
  ds ← directivesOf o;
  st ← forEach (forDirective variables directiveResolvers selection)
         {| newSelection := Some selection; currSelection := selection;
            toBeRemoved := None |} ds;
  match newSelection st with
  | Some ns =>
      withSelSet ← read selection;
      match withSelSet with
      | InlineFragmentObj _ _ ss => ss' ← recurse ss; assign_selectionSet selection ss'
      | FieldObj _ _ _ _ (Some ss) => ss' ← recurse ss; assign_selectionSet selection ss'
      | _ => mret ()
      end;;
      mret (Some ns)
  | None =>
      if negb (bool_decide (toBeRemoved st = Some true))
      then mret (Some (currSelection st))
      else mret None
  end.

(** [applyDirectivesToSelectionSet], lines 58-110.  [stack] is the depth
    of calls the engine has room for.  The two assignments to
    [selSet.selections] (lines 65 and 108) have nothing between them and
    are one write. *)
Fixpoint applyDirectivesToSelectionSet (stack : nat) (variables : Variables)
    (directiveResolvers : Resolvers) (selSet : nat) : M nat :=
  match stack with
  | 0 => throw (RangeError "Maximum call stack size exceeded")
  | S stack =>
      o ← read selSet;
      match o with
      | SelectionSetObj selections =>
          mapped ←
            mapM (applyDirectivesToSelection
                    (applyDirectivesToSelectionSet stack variables directiveResolvers)
                    variables directiveResolvers)
                 selections;
          assign_selections selSet (omap id mapped);;
          mret selSet
      | _ => throw (TypeError "Cannot read properties of undefined (reading 'map')")
      end
  end.

(** [filter] with a test that reads the store. *)
Fixpoint filterM {A} (test : A → M bool) (l : list A) : M (list A) :=
  match l with
  | [] => mret []
  | x :: l' =>
      b ← test x;
      k ← filterM test l';
      mret (if b : bool then x :: k else k)
  end.

Definition isFragmentDefinitionObj (o : Obj) : bool :=
  match o with
  | FragmentDefinitionObj _ _ _ _ => true
  | _ => false
  end.

Definition isQueryDefinitionObj (o : Obj) : bool :=
  match o with
  | OperationDefinitionObj query _ _ _ => true
  | _ => false
  end.

(** Modelled from the spec: [getFragmentDefinitions] of [./getFromAST], on
    objects; see [Directives.getFragmentDefinitions]. *)
Definition getFragmentDefinitions (doc : nat) : M (list nat) :=
  d ← read doc;
  match d with
  | DocumentObj defs => filterM (λ l, o ← read l; mret (isFragmentDefinitionObj o)) defs
  | _ => throw (TypeError "Cannot read properties of undefined (reading 'filter')")
  end.

(** Modelled from the spec: [getQueryDefinition] of [./getFromAST], on
    objects; see [Directives.getQueryDefinition]. *)
Definition getQueryDefinition (doc : nat) : M nat :=
  d ← read doc;
  match d with
  | DocumentObj defs =>
      queries ← filterM (λ l, o ← read l; mret (isQueryDefinitionObj o)) defs;
      match queries with
      | queryDef :: _ => mret queryDef
      | [] => throw (Error "Must contain a query definition.")
      end
  | _ => throw (TypeError "Cannot read properties of undefined (reading 'map')")
  end.

(** [applyDirectives], lines 28-56.  [newDoc.definitions] is assigned the
    mapped array and then gets [queryDef] in front; nothing is read in
    between, and the two are one write. *)
Definition applyDirectives (stack : nat) (doc : nat) (variables : option Variables)
    (directiveResolvers : option Resolvers) : M nat :=
  let variables := default ∅ variables in
  let directiveResolvers := default ∅ directiveResolvers in
  newDoc ← cloneDeep doc;
  fragmentDefs ← getFragmentDefinitions newDoc;
  queryDef ← getQueryDefinition newDoc;
  selSet ← selectionSetOf queryDef;
  newSelSet ← applyDirectivesToSelectionSet stack variables directiveResolvers selSet;
  assign_selectionSet queryDef newSelSet;;
  definitions ←
    mapM (λ fragmentDef,
            selSet ← selectionSetOf fragmentDef;
            fragmentSelSet ← applyDirectivesToSelectionSet stack variables
                               directiveResolvers selSet;
            assign_selectionSet fragmentDef fragmentSelSet;;
            mret fragmentDef)
         fragmentDefs;
  assign_definitions newDoc (queryDef :: definitions);;
  mret newDoc.

End Store.

(** ** Documents used as concrete inputs *)

Module Samples.
Import Directives.

(** [@name(if: value)]. *)
Definition conditional (name : string) (value : Value) : Directive :=
  {| dir_name := Some name;
     dir_arguments := [ {| arg_name := Some "if"; arg_value := value |} ] |}.

Definition skip_if (b : bool) : Directive := conditional "skip" (BooleanValue b).
Definition include_if (b : bool) : Directive := conditional "include" (BooleanValue b).

(** The registry a caller builds to have both conditional directives
    applied in one pass. *)
Definition skipAndInclude : Resolvers :=
  <[ "skip" := skipDirectiveResolver ]> {[ "include" := includeDirectiveResolver ]}.

Definition leaf (name : string) (ds : list Directive) : Selection :=
  Field None name [] ds None.

(** [{ b @skip(if: true)  c }] *)
Definition inner : SelectionSet :=
  Build_SelectionSet [leaf "b" [skip_if true]; leaf "c" []].

(** [{ a <ds> { b @skip(if: true)  c } }] *)
Definition outer (ds : list Directive) : SelectionSet :=
  Build_SelectionSet [Field None "a" [] ds (Some inner)].

(** [{ a @foo }] *)
Definition unknownDirective : SelectionSet :=
  Build_SelectionSet [leaf "a" [ {| dir_name := Some "foo"; dir_arguments := [] |} ]].

(** [@name], without arguments. *)
Definition named (name : string) : Directive :=
  {| dir_name := Some name; dir_arguments := [] |}.

(** [{ a @constructor { b } }] and [{ a @toString }]: directives under
    names that a registry written as an object literal does not have but
    inherits. *)
Definition constructorDirective : SelectionSet :=
  Build_SelectionSet
    [Field None "a" [] [named "constructor"] (Some (Build_SelectionSet [leaf "b" []]))].

Definition toStringDirective : SelectionSet :=
  Build_SelectionSet [leaf "a" [named "toString"]].

(** [fragment F on T { b @skip(if: true) c }
     query { x  a @include(if: $show) { b @skip(if: true) c }  y @skip(if: $show) }] *)
Definition document : Document :=
  {| definitions :=
       [ FragmentDefinition "F" "T" [] inner;
         OperationDefinition query None []
           (Build_SelectionSet
              [ leaf "x" [];
                Field None "a" [] [conditional "include" (Variable_ "show")] (Some inner);
                leaf "y" [conditional "skip" (Variable_ "show")] ]) ] |}.

(** [query { a @include(if: true) }] *)
Definition included : Document :=
  {| definitions :=
       [ OperationDefinition query None []
           (Build_SelectionSet [leaf "a" [include_if true]]) ] |}.

Definition show : Variables := {[ "show" := JsBoolean true ]}.

(** [document] rewritten with [$show = true]:
    [query { x  a @include(if: $show) { c } }  fragment F on T { c }]. *)
Definition rewritten : Document :=
  {| definitions :=
       [ OperationDefinition query None []
           (Build_SelectionSet
              [ leaf "x" [];
                Field None "a" [] [conditional "include" (Variable_ "show")]
                  (Some (Build_SelectionSet [leaf "c" []])) ]);
         FragmentDefinition "F" "T" [] (Build_SelectionSet [leaf "c" []]) ] |}.

(** A selection set as the only definition of a document. *)
Definition queryOf (selSet : SelectionSet) : Document :=
  {| definitions := [OperationDefinition query None [] selSet] |}.

(** [{ a @upper  ... on T @skip(if: false) { b @skip(if: true) c } }], for
    a resolver of [upper] that returns another object. *)
Definition replaced : SelectionSet :=
  Build_SelectionSet
    [ leaf "a" [ {| dir_name := Some "upper"; dir_arguments := [] |} ];
      InlineFragment "T" [skip_if false] inner ].

End Samples.

(** ** Notions the properties are stated with *)

Module Notions.
Import Directives.

(** The value a condition stands for: the literal, or what
    [variables[name]] gives for the variable, when that is not
    [undefined]. *)
Definition resolvesTo (variables : Variables) (value : Value) (v : JsValue) : Prop :=
  (∃ b, value = BooleanValue b ∧ v = JsBoolean b)
  ∨ (∃ name, value = Variable_ name ∧ getValue variables name = v ∧ v ≠ JsUndefined).

(** Lines 93-100 of the callback: the recursive call on the selection set
    of a selection that has one, assigned back to it. *)
Definition rewriteNested (variables : Variables) (directiveResolvers : Resolvers)
    (selection : Selection) : Completion Selection :=
  match nested selection with
  | Some ss =>
      ss' ← applyDirectivesToSelectionSet variables directiveResolvers ss;
      Return (set_selectionSet selection ss')
  | None => Return selection
  end.

(** A resolver that only decides: it returns the selection it was called
    with or [undefined], never another object, and which of the two does
    not depend on the selection.  The resolvers of [skip] and [include]
    are of this kind. *)
Definition deciding (r : DirectiveResolver) : Prop :=
  ∀ selection variables directive,
    (∀ o, r selection variables directive ≠ Return (ReturnsOther o))
    ∧ ∀ selection', r selection' variables directive = r selection variables directive.

Definition allDeciding (R : Resolvers) : Prop :=
  ∀ name r, R !! name = Some r → deciding r.

(** The same of the resolvers that the directives [ds] are resolved with,
    the inherited ones included: every name among them that the registry
    has a function for, its own or one of [Object.prototype], has one that
    only decides.  [Object] does; [Object.prototype.toString] does not. *)
Definition decidingOn (R : Resolvers) (ds : list Directive) : Prop :=
  ∀ d name r,
    d ∈ ds → dir_name d = Some name → lookupResolver R name = Some r → deciding r.

(** A registry that resolves every name as another does, where the other
    has a function for it: it has the same own resolvers and more, and
    none that stands in front of a function the other inherits. *)
Definition extends (R R' : Resolvers) : Prop :=
  ∀ name r, lookupResolver R name = Some r → lookupResolver R' name = Some r.

(** The locals of the callback while no resolver has returned another
    object: both references are to the selection itself. *)
Definition onThis (st : Locals) : Prop :=
  currSelection st = This ∧ (newSelection st = None ∨ newSelection st = Some This).

(** Every directive in the tree below a selection, the selection's own
    first. *)
Fixpoint allDirectives (selection : Selection) : list Directive :=
  directives selection ++
  match selection with
  | Field _ _ _ _ (Some (Build_SelectionSet l)) => flat_map allDirectives l
  | InlineFragment _ _ (Build_SelectionSet l) => flat_map allDirectives l
  | _ => []
  end.

Definition documentDirectives (doc : Document) : list Directive :=
  flat_map (λ d, flat_map allDirectives (selections (def_selectionSet d)))
           (definitions doc).

Definition isConditional (directive : Directive) : bool :=
  bool_decide (dir_name directive = Some "skip")
  || bool_decide (dir_name directive = Some "include").

(** The rewrite of one definition: lines 42-45 for the operation, 47-51 for
    a fragment. *)
Definition rewritesTo (variables : Variables) (R : Resolvers) (d d' : DocDefinition) : Prop :=
  ∃ ss', applyDirectivesToSelectionSet variables R (def_selectionSet d) = Return ss'
         ∧ d' = def_set_selectionSet d ss'.

(** A selection whose rewrite, when it is kept, is kept unchanged by the
    rewrite; and the same of a selection set. *)
Definition settled (variables : Variables) (R : Resolvers) (selection : Selection) : Prop :=
  ∀ s', applyDirectivesToSelection variables R selection = Return (Some s') →
        applyDirectivesToSelection variables R s' = Return (Some s').

Definition settledSet (variables : Variables) (R : Resolvers) (selSet : SelectionSet) : Prop :=
  ∀ out, applyDirectivesToSelectionSet variables R selSet = Return out →
         applyDirectivesToSelectionSet variables R out = Return out.

End Notions.

(** ** Notions for the store *)

Module StoreNotions.
Import Directives Store.
Local Open Scope nat_scope.

(** Below address [n] the store [h] is as [h0] was. *)
Definition below (n : nat) (h0 h : Heap) : Prop :=
  ∀ l, l < n → h !! l = h0 !! l.

(** The objects from address [n] on refer to nothing below [n]. *)
Definition closed (n : nat) (h : Heap) : Prop :=
  ∀ l o, n ≤ l → h !! l = Some o → Forall (λ r, n ≤ r) (refs o).

Definition inv (n : nat) (h0 h : Heap) : Prop :=
  below n h0 h ∧ closed n h ∧ n ≤ bound h.

(** A computation that, from a store in the invariant, ends in one,
    however it completes, with [post] of its result when it returns. *)
Definition safe {A} (n : nat) (h0 : Heap) (m : M A) (post : A → Prop) : Prop :=
  ∀ h, inv n h0 h → inv n h0 (m h).2 ∧ ∀ a, (m h).1 = Return a → post a.

(** Locals that hold no reference below [n]. *)
Definition above (n : nat) (st : Locals) : Prop :=
  n ≤ currSelection st ∧ ∀ ns, newSelection st = Some ns → n ≤ ns.

(** The resolvers of [skip] and [include] on references. *)
Definition conditionals : Resolvers :=
  <[ "skip" := skipDirectiveResolver ]> {[ "include" := includeDirectiveResolver ]}.

(** [Samples.document] in an empty store, and the reference to it. *)
Definition stored : Completion nat * Heap := allocDocument Samples.document ∅.

Definition storedDocument : nat :=
  match stored.1 with
  | Return doc => doc
  | Throw _ => 0
  end.

(** A resolver that returns another object, and the same on references. *)
Definition upper : Directives.DirectiveResolver :=
  λ _ _ _, Return (ReturnsOther (Samples.leaf "A" [])).

Definition upperRef : DirectiveResolver :=
  λ _ _ _ _, Return (ReturnsOther (Samples.leaf "A" [])).

(** The two embeddings side by side on one document: the document is put
    in an empty store; either both calls return, and the reference
    returned reads back as the value returned, or both throw the same;
    and the stored document reads back as it was. *)
Definition agree (doc : Document) (variables : option Variables)
    (R : Directives.Resolvers) (R' : Resolvers) : Prop :=
  match allocDocument doc ∅ with
  | (Return l, h) =>
      match Directives.applyDirectives doc variables (Some R),
            applyDirectives 16 l variables (Some R') h with
      | Return doc', (Return l', h') =>
          loadDocument 16 h' l' = Some doc' ∧ loadDocument 16 h' l = Some doc
      | Throw e, (Throw e', h') => e = e' ∧ loadDocument 16 h' l = Some doc
      | _, _ => False
      end
  | (Throw _, _) => False
  end.

End StoreNotions.

(** ** The polling scheduler *)

Module Scheduler.

(** Modelled from the spec: the descriptor of a polling query.  The
    scheduler's source ([src/scheduler.ts]) is not among the sources; only
    its test is.  The spec's data model has
    "PollingQueryDescriptor: {query, variables, pollIntervalMillis}"; the
    interval is [None] when the descriptor has none, as the options of the
    first test. *)
Record PollingQueryDescriptor := {
  descriptor_query : Document;
  descriptor_variables : gmap string JsValue;
  pollIntervalMillis : option Z
}.

(** Modelled from the spec: the scheduler's state.  [pollingTimers] has the
    registrations with a timer (and a listener), [inFlightQueries] is the
    spec's InFlightSet, "mapping from QueryId to the descriptor currently
    executing".  [executing] is not the scheduler's: it is the
    collaborator's side, one entry per call of execute() that has not
    completed.  [delivered] lists what the listeners were handed. *)
Record State := {
  nextQueryId : nat;
  pollingTimers : gmap nat PollingQueryDescriptor;
  inFlightQueries : gmap nat PollingQueryDescriptor;
  executing : list nat;
  delivered : list (nat * bool)
}.

Definition initial : State :=
  {| nextQueryId := 0; pollingTimers := ∅; inFlightQueries := ∅;
     executing := []; delivered := [] |}.

(** Modelled from the spec: steps 1 and 2 of the tick, "If the QueryId is
    currently present in the InFlightSet, skip this tick entirely (no new
    execution, no error).  Otherwise, add the QueryId to the InFlightSet,
    invoke the external execute() collaborator". *)
Definition fetchQuery (queryId : nat) (descriptor : PollingQueryDescriptor) (st : State)
  : State :=
  {| nextQueryId := nextQueryId st;
     pollingTimers := pollingTimers st;
     inFlightQueries := <[queryId := descriptor]> (inFlightQueries st);
     executing := queryId :: executing st;
     delivered := delivered st |}.

Definition tick (queryId : nat) (st : State) : Completion State :=
  match pollingTimers st !! queryId with
  | None => Return st
  | Some descriptor =>
      match inFlightQueries st !! queryId with
      | Some _ => Return st
      | None => Return (fetchQuery queryId descriptor st)
      end
  end.

Definition hasInterval (descriptor : PollingQueryDescriptor) : bool :=
  match pollIntervalMillis descriptor with
  | Some interval => bool_decide (0 < interval)%Z
  | None => false
  end.

(** Modelled from the spec: "startPollingQuery(descriptor, onResult) ->
    QueryId: requires descriptor.pollIntervalMillis to be a positive value;
    absence or non-positive value is an error (cannot poll without an
    interval).  Registers a new QueryId, starts a recurring timer, and
    returns immediately."  The spec does not say whether an execution is
    started with the registration; the test expects one ("as soon as we
    register a query, there should be an addition to the query map",
    lines 211-212).  [eager] covers both. *)
Definition startPollingQuery (eager : bool) (descriptor : PollingQueryDescriptor)
    (st : State) : Completion (nat * State) :=
  if negb (hasInterval descriptor) then
    Throw (Error "cannot poll without an interval")
  else
    let queryId := nextQueryId st in
    let st' :=
      {| nextQueryId := S queryId;
         pollingTimers := <[queryId := descriptor]> (pollingTimers st);
         inFlightQueries := inFlightQueries st;
         executing := executing st;
         delivered := delivered st |} in
    Return (queryId, if eager then fetchQuery queryId descriptor st' else st').

(** Modelled from the spec: "registerPollingQuery(descriptor) ->
    ObservableQuery: convenience wrapper that internally calls
    startPollingQuery"; the observable is known by the QueryId. *)
Definition registerPollingQuery (eager : bool) (descriptor : PollingQueryDescriptor)
    (st : State) : Completion (nat * State) :=
  startPollingQuery eager descriptor st.

(** Modelled from the spec: "stopPollingQuery(queryId): cancels the timer
    and removes all bookkeeping (in-flight entry, listener) for that id;
    idempotent". *)
Definition stopPollingQuery (queryId : nat) (st : State) : State :=
  {| nextQueryId := nextQueryId st;
     pollingTimers := delete queryId (pollingTimers st);
     inFlightQueries := delete queryId (inFlightQueries st);
     executing := executing st;
     delivered := delivered st |}.

(** Removes the first occurrence. *)
Fixpoint remove_one (queryId : nat) (l : list nat) : list nat :=
  match l with
  | [] => []
  | x :: l' => if bool_decide (x = queryId) then l' else x :: remove_one queryId l'
  end.

(** Modelled from the spec: step 3 of the tick, "On completion (success or
    failure), remove the QueryId from the InFlightSet and deliver the
    outcome to all current subscribers for that id"; an id that was
    stopped has none. *)
Definition complete (queryId : nat) (ok : bool) (st : State) : State :=
  {| nextQueryId := nextQueryId st;
     pollingTimers := pollingTimers st;
     inFlightQueries := delete queryId (inFlightQueries st);
     executing := remove_one queryId (executing st);
     delivered :=
       match pollingTimers st !! queryId with
       | Some _ => delivered st ++ [(queryId, ok)]
       | None => delivered st
       end |}.

(** What can happen to a scheduler: a caller registers or stops, a timer
    fires, an execution completes. *)
Inductive Event :=
| Start (descriptor : PollingQueryDescriptor)
| Tick (queryId : nat)
| Complete (queryId : nat) (ok : bool)
| Stop (queryId : nat).

(** A registration that throws leaves the scheduler as it was; only an
    execution that is under way can complete. *)
Definition step (eager : bool) (st : State) (ev : Event) : State :=
  match ev with
  | Start descriptor =>
      match startPollingQuery eager descriptor st with
      | Return (_, st') => st'
      | Throw _ => st
      end
  | Tick queryId =>
      match tick queryId st with
      | Return st' => st'
      | Throw _ => st
      end
  | Complete queryId ok =>
      if bool_decide (queryId ∈ executing st) then complete queryId ok st else st
  | Stop queryId => stopPollingQuery queryId st
  end.

Definition run (eager : bool) (events : list Event) : State :=
  foldl (step eager) initial events.

(** How many executions of [queryId] are under way. *)
Definition inFlightCount (queryId : nat) (st : State) : nat :=
  length (filter (λ x, x = queryId) (executing st)).

(** What the scheduler keeps true: no execution under way twice, every id
    in use below the next one, and an execution under way either recorded
    in flight or of a registration that was stopped. *)
Definition invariant (st : State) : Prop :=
  NoDup (executing st)
  ∧ (∀ queryId, queryId ∈ executing st → (queryId < nextQueryId st)%nat)
  ∧ (∀ queryId, is_Some (pollingTimers st !! queryId) → (queryId < nextQueryId st)%nat)
  ∧ (∀ queryId, queryId ∈ executing st →
       is_Some (inFlightQueries st !! queryId) ∨ pollingTimers st !! queryId = None).

(** The options of the tests: no interval, and 70 ms. *)
Definition nonPolling : PollingQueryDescriptor :=
  {| descriptor_query := Samples.included; descriptor_variables := ∅;
     pollIntervalMillis := None |}.

Definition polling : PollingQueryDescriptor :=
  {| descriptor_query := Samples.included; descriptor_variables := ∅;
     pollIntervalMillis := Some 70%Z |}.

End Scheduler.

(** ** Document values in the store *)

Module Representation.
Import Directives Store.
Local Open Scope nat_scope.

(** [repSel h l s F]: in the store [h], the object at [l] and the objects
    below it are a tree, each object used once, that holds the selection
    [s]; [F] has their addresses. *)
Inductive repSel (h : Heap) : nat → Selection → gset nat → Prop :=
| rep_leaf l a n args ds :
    h !! l = Some (FieldObj a n args ds None) →
    repSel h l (Field a n args ds None) {[l]}
| rep_field l a n args ds lss ss F :
    h !! l = Some (FieldObj a n args ds (Some lss)) →
    repSet h lss ss F → l ∉ F →
    repSel h l (Field a n args ds (Some ss)) ({[l]} ∪ F)
| rep_spread l n ds :
    h !! l = Some (FragmentSpreadObj n ds) →
    repSel h l (FragmentSpread n ds) {[l]}
| rep_inline l t ds lss ss F :
    h !! l = Some (InlineFragmentObj t ds lss) →
    repSet h lss ss F → l ∉ F →
    repSel h l (InlineFragment t ds ss) ({[l]} ∪ F)
| rep_not l :
    h !! l = Some NotASelectionObj →
    repSel h l NotASelection {[l]}
with repSet (h : Heap) : nat → SelectionSet → gset nat → Prop :=
| rep_set l ls sels F :
    h !! l = Some (SelectionSetObj ls) →
    repSels h ls sels F → l ∉ F →
    repSet h l (Build_SelectionSet sels) ({[l]} ∪ F)
with repSels (h : Heap) : list nat → list Selection → gset nat → Prop :=
| rep_nil : repSels h [] [] ∅
| rep_cons l ls s sels F1 F2 :
    repSel h l s F1 → repSels h ls sels F2 → F1 ## F2 →
    repSels h (l :: ls) (s :: sels) (F1 ∪ F2).

Scheme repSel_mut := Minimality for repSel Sort Prop
  with repSet_mut := Minimality for repSet Sort Prop
  with repSels_mut := Minimality for repSels Sort Prop.

Combined Scheme rep_mutind from repSel_mut, repSet_mut, repSels_mut.

(** How deep the calls of [applyDirectivesToSelectionSet] nest on a
    selection set. *)
Fixpoint depthSel (s : Selection) : nat :=
  match s with
  | Field _ _ _ _ (Some (Build_SelectionSet l)) =>
      S (foldr (λ s d, Nat.max (depthSel s) d) 0 l)
  | InlineFragment _ _ (Build_SelectionSet l) =>
      S (foldr (λ s d, Nat.max (depthSel s) d) 0 l)
  | _ => 0
  end.

Definition depthSet (ss : SelectionSet) : nat :=
  S (foldr (λ s d, Nat.max (depthSel s) d) 0 (selections ss)).

(** From [h] to [h'] no object is lost, and outside [F] none is changed. *)
Definition frame (F : gset nat) (h h' : Heap) : Prop :=
  ∀ x o, h !! x = Some o → is_Some (h' !! x) ∧ (x ∉ F → h' !! x = Some o).

(** Addresses in [F] or not in use in [h]. *)
Definition within (F' F : gset nat) (h : Heap) : Prop :=
  ∀ x, x ∈ F' → x ∈ F ∨ h !! x = None.

(** A registry on values and a registry on references that have the same
    names, with resolvers that return the same for a reference and for the
    value it holds. *)
Definition related (R : Directives.Resolvers) (R' : Resolvers) : Prop :=
  ∀ name,
    match R !! name, R' !! name with
    | None, None => True
    | Some r, Some r' =>
        ∀ h l s F variables directive,
          repSel h l s F → r' h l variables directive = r s variables directive
    | _, _ => False
    end.

(** The references of the callback on values and its references on
    objects: the selection itself, or an object made by a resolver, which
    is in no object of [h0]. *)
Definition refersTo (h0 h : Heap) (l : nat) (r : Directives.Ref) (r' : nat) : Prop :=
  match r with
  | This => r' = l
  | Other o => ∃ Fo, repSel h r' o Fo ∧ ∀ x, x ∈ Fo → h0 !! x = None
  end.

Definition sameLocals (h0 h : Heap) (l : nat) (st : Directives.Locals) (st' : Locals)
  : Prop :=
  refersTo h0 h l (Directives.currSelection st) (currSelection st')
  ∧ Directives.toBeRemoved st = toBeRemoved st'
  ∧ match Directives.newSelection st, newSelection st' with
    | None, None => True
    | Some r, Some r' => refersTo h0 h l r r'
    | _, _ => False
    end.

(** The object of a selection, given the reference to its selection set. *)
Definition objOf (s : Selection) (lss : option nat) : Obj :=
  match s with
  | Field a n args ds _ => FieldObj a n args ds lss
  | FragmentSpread n ds => FragmentSpreadObj n ds
  | InlineFragment t ds _ => InlineFragmentObj t ds (default 0 lss)
  | NotASelection => NotASelectionObj
  end.

(** The reference the callback descends through, lines 95-96. *)
Definition nestedObj (o : Obj) : option nat :=
  match o with
  | InlineFragmentObj _ _ ss => Some ss
  | FieldObj _ _ _ _ (Some ss) => Some ss
  | _ => None
  end.

(** What [allocSelection] makes is a tree for the value, out of
    addresses that were not in use, and nothing else changes. *)
Definition allocates {A} (rep : Heap → nat → A → gset nat → Prop)
    (m : A → M nat) (a : A) : Prop :=
  ∀ h, ∃ l h' F,
    m a h = (Return l, h') ∧ rep h' l a F ∧ (∀ x, x ∈ F → h !! x = None) ∧ frame ∅ h h'.

(** The embedding on objects does to a tree for [ss] what the embedding on
    values does to [ss], with a stack of [k]: it throws the same, or it
    returns the reference it was given, and a tree for the value returned
    is at it; only the tree and addresses not in use are written to. *)
Definition setRefines (variables : Variables) (R : Directives.Resolvers) (R' : Resolvers)
    (k : nat) : Prop :=
  ∀ h l ss F,
    repSet h l ss F → depthSet ss ≤ k →
    ∃ c h',
      applyDirectivesToSelectionSet k variables R' l h = (c, h')
      ∧ frame F h h'
      ∧ match Directives.applyDirectivesToSelectionSet variables R ss with
        | Return ss' => c = Return l ∧ ∃ F', repSet h' l ss' F' ∧ within F' F h
        | Throw e => c = Throw e
        end.

End Representation.

(** ** Notions for further properties of the rewriter *)

Module MoreNotions.
Import Directives Notions.

(** What a directive named [skip] or [include] says of the selections it
    is on, under a registry: keep ([true]) or remove ([false]).  Its
    resolver returns the selection it is given, or [undefined]. *)
Definition says (variables : Variables) (R : Resolvers) (directive : Directive)
    (keep : bool) : Prop :=
  ∃ name r,
    dir_name directive = Some name ∧ (name = "skip" ∨ name = "include")
    ∧ R !! name = Some r
    ∧ ∀ selection,
        r selection variables directive
        = Return (if keep then ReturnsArgument else ReturnsUndefined).

(** A directive the rewriter passes over (line 72): no name, or an empty
    one. *)
Definition unnamed (directive : Directive) : Prop :=
  dir_name directive = None ∨ dir_name directive = Some "".

(** Every directive in the trees of a selection set. *)
Definition setDirectives (selSet : SelectionSet) : list Directive :=
  flat_map allDirectives (selections selSet).

(** A selection, and a selection set, as the types have them: selection
    nodes at every depth. *)
Fixpoint typed (selection : Selection) : bool :=
  match selection with
  | Field _ _ _ _ (Some (Build_SelectionSet l)) => forallb typed l
  | InlineFragment _ _ (Build_SelectionSet l) => forallb typed l
  | NotASelection => false
  | _ => true
  end.

Definition typedSet (selSet : SelectionSet) : bool :=
  forallb typed (selections selSet).

(** [pruned s' s]: [s'] is [s] with selections taken out, at any depth, and
    nothing else changed. *)
Inductive prunedSel : Selection → Selection → Prop :=
| pruned_same s : prunedSel s s
| pruned_below s ss ss' :
    nested s = Some ss → prunedSet ss' ss → prunedSel (set_selectionSet s ss') s
with prunedSet : SelectionSet → SelectionSet → Prop :=
| pruned_set l' l : prunedList l' l → prunedSet (Build_SelectionSet l') (Build_SelectionSet l)
with prunedList : list Selection → list Selection → Prop :=
| pruned_nil : prunedList [] []
| pruned_drop s l' l : prunedList l' l → prunedList l' (s :: l)
| pruned_keep s' s l' l :
    prunedSel s' s → prunedList l' l → prunedList (s' :: l') (s :: l).

(** The variable the condition of a directive refers to. *)
Definition conditionVariable (directive : Directive) : option string :=
  match dir_arguments directive with
  | [ifArgument] =>
      match arg_value ifArgument with
      | Variable_ name => Some name
      | _ => None
      end
  | _ => None
  end.

(** Two variables objects with the same bindings for the variables the
    directives refer to. *)
Definition agreeOn (ds : list Directive) (variables variables' : Variables) : Prop :=
  ∀ directive name,
    directive ∈ ds → conditionVariable directive = Some name →
    variables !! name = variables' !! name.

(** A registry whose own resolvers are those of [directives.ts], under
    whatever names. *)
Definition builtin (R : Resolvers) : Prop :=
  ∀ name r, R !! name = Some r → r = skipDirectiveResolver ∨ r = includeDirectiveResolver.

End MoreNotions.

(** ** Documents in the store *)

Module DocRepresentation.
Import Directives Store Representation.
Local Open Scope nat_scope.

(** The object of a definition, given the reference to its selection
    set. *)
Definition defObj (d : DocDefinition) (lss : nat) : Obj :=
  match d with
  | OperationDefinition op n ds _ => OperationDefinitionObj op n ds lss
  | FragmentDefinition n t ds _ => FragmentDefinitionObj n t ds lss
  end.

(** [repDef h l d F]: the object at [l] and the tree of its selection set
    hold the definition [d]; [F] has their addresses. *)
Definition repDef (h : Heap) (l : nat) (d : DocDefinition) (F : gset nat) : Prop :=
  ∃ lss Fs,
    h !! l = Some (defObj d lss) ∧ repSet h lss (def_selectionSet d) Fs
    ∧ (l ∉ Fs) ∧ F = ({[l]} ∪ Fs).

Inductive repDefs (h : Heap) : list nat → list DocDefinition → gset nat → Prop :=
| repDefs_nil : repDefs h [] [] ∅
| repDefs_cons l ls d defs F1 F2 :
    repDef h l d F1 → repDefs h ls defs F2 → F1 ## F2 →
    repDefs h (l :: ls) (d :: defs) (F1 ∪ F2).

(** [repDoc h l doc F]: the object at [l] and what is below it are a tree
    that holds the document [doc]. *)
Definition repDoc (h : Heap) (l : nat) (doc : Document) (F : gset nat) : Prop :=
  ∃ ls Fd,
    h !! l = Some (DocumentObj ls) ∧ repDefs h ls (definitions doc) Fd
    ∧ (l ∉ Fd) ∧ F = ({[l]} ∪ Fd).

(** The stack the rewrite of a document needs. *)
Definition depthDoc (doc : Document) : nat :=
  foldr (λ d k, Nat.max (depthSet (def_selectionSet d)) k) 0 (definitions doc).

(** The rewrite of the definitions in a list, one after the other: lines
    46-52 on values. *)
Definition rewriteDefinitions (variables : Variables) (R : Directives.Resolvers)
    (defs : list DocDefinition) : Completion (list DocDefinition) :=
  mapM (λ def,
          selSet ← Directives.applyDirectivesToSelectionSet variables R
                     (def_selectionSet def);
          Return (def_set_selectionSet def selSet))
       defs.

(** The rewrite of one definition on objects: lines 42-45 for the
    operation, 47-50 for a fragment. *)
Definition rewriteDefinitionObj (stack : nat) (variables : Variables) (R' : Resolvers)
    (def : nat) : M () :=
  selSet ← selectionSetOf def;
  newSelSet ← applyDirectivesToSelectionSet stack variables R' selSet;
  assign_selectionSet def newSelSet.

(** The same on objects: lines 46-52. *)
Definition rewriteDefinitionObjs (stack : nat) (variables : Variables) (R' : Resolvers)
    (defs : list nat) : M (list nat) :=
  mapM (λ def,
          selSet ← selectionSetOf def;
          newSelSet ← applyDirectivesToSelectionSet stack variables R' selSet;
          assign_selectionSet def newSelSet;;
          mret def)
       defs.

End DocRepresentation.

(** ** Properties of the directive functions *)

Module DirectivesTheory.
Import Directives Samples Notions.

(** *** Completions *)

Lemma bind_Return {A B} (f : A → Completion B) (c : Completion A) (b : B) :
  c ≫= f = Return b ↔ ∃ a, c = Return a ∧ f a = Return b.
Proof.
  destruct c as [a|e]; simpl.
  - split; [eauto | intros (a' & [= <-] & H); exact H].
  - split; [discriminate | intros (a' & [=] & _)].
Qed.

Lemma bind_Throw {A B} (f : A → Completion B) (c : Completion A) (e : JsError) :
  c ≫= f = Throw e ↔ c = Throw e ∨ ∃ a, c = Return a ∧ f a = Throw e.
Proof.
  destruct c as [a|e']; simpl.
  - split; [eauto | intros [[=] | (a' & [= <-] & H)]; exact H].
  - split; [intros [= ->]; auto | intros [[= ->] | (a' & [=] & _)]; reflexivity].
Qed.

Lemma mapM_Return {A B} (f : A → Completion B) (l : list A) (k : list B) :
  mapM f l = Return k ↔ Forall2 (λ x y, f x = Return y) l k.
Proof.
  revert k. induction l as [|x l IH]; intros k; simpl.
  - split; [intros [= <-]; constructor | intros H; inversion H; reflexivity].
  - split.
    + intros H. apply bind_Return in H as (y & Hy & H).
      apply bind_Return in H as (k' & Hk' & [= <-]).
      constructor; [exact Hy | by apply IH].
    + intros H. inversion H as [|? y ? k' Hy Hk']; subst.
      apply bind_Return. exists y. split; [exact Hy|].
      apply bind_Return. exists k'. split; [by apply IH | reflexivity].
Qed.

Lemma mapM_Throw {A B} (f : A → Completion B) (l : list A) (e : JsError) :
  mapM f l = Throw e → ∃ x, x ∈ l ∧ f x = Throw e.
Proof.
  induction l as [|x l IH]; simpl; [discriminate|].
  intros H. apply bind_Throw in H as [H | (y & Hy & H)].
  - exists x. split; [left | exact H].
  - apply bind_Throw in H as [H | (k & _ & [=])].
    destruct (IH H) as (x' & Hin & Hx'). exists x'. split; [by right | exact Hx'].
Qed.

(** *** The conditional resolver *)

(** C7.  A variable that the variables object does not bind is not always
    an error.  [@include(if: $toString)] with the variables [{}], which is
    what [applyDirectives] falls back to, returns the selection:
    [variables["toString"]] is the function that [{}] inherits from
    [Object.prototype], which is not [undefined] and is truthy.  [@skip]
    with the same condition returns [undefined].  So the rewrite of
    [{ a @include(if: $toString) }] returns, with [a] in it. *)
Theorem inherited_variable_resolves :
  (∅ : Variables) !! "toString" = None
  ∧ skipIncludeDirectiveResolver "include" (leaf "a" []) ∅
      (conditional "include" (Variable_ "toString"))
    = Return ReturnsArgument
  ∧ skipIncludeDirectiveResolver "skip" (leaf "a" []) ∅
      (conditional "skip" (Variable_ "toString"))
    = Return ReturnsUndefined
  ∧ applyDirectivesToSelectionSet ∅ skipAndInclude
      (Build_SelectionSet [leaf "a" [conditional "include" (Variable_ "toString")]])
    = Return (Build_SelectionSet
                [leaf "a" [conditional "include" (Variable_ "toString")]]).
Proof. split_and!; reflexivity. Qed.

(** For the rest the resolver is as the specification has it.
    [skipIncludeDirectiveResolver] throws exactly when the
    directive does not have exactly one argument, or the argument is not
    named [if], or its value is neither a boolean literal nor a variable,
    or it is a variable for which [variables[name]] is [undefined]: one
    that the variables object does not bind (or binds to [undefined]) and
    that is not the name of a member of [Object.prototype] either.
    Otherwise the condition resolves to a value, taken as a boolean and
    negated for [skip]; the resolver returns the selection it was given
    when that boolean is true and [undefined] when it is false. *)
Theorem skipIncludeDirectiveResolver_spec directiveName (selection : Selection)
    variables directive :
  (throws (skipIncludeDirectiveResolver directiveName selection variables directive)
   ↔ length (dir_arguments directive) ≠ 1
     ∨ ∃ ifArgument, dir_arguments directive = [ifArgument]
        ∧ (arg_name ifArgument ≠ Some "if"
           ∨ ((∀ b, arg_value ifArgument ≠ BooleanValue b)
              ∧ (∀ name, arg_value ifArgument ≠ Variable_ name))
           ∨ ∃ name, arg_value ifArgument = Variable_ name
                     ∧ (variables !! name = Some JsUndefined
                        ∨ (variables !! name = None ∧ name ∉ Object_prototype))))
  ∧ (∀ ifArgument v,
       dir_arguments directive = [ifArgument] →
       arg_name ifArgument = Some "if" →
       resolvesTo variables (arg_value ifArgument) v →
       let keep := if bool_decide (directiveName = "skip")
                   then negb (truthy v) else truthy v in
       skipIncludeDirectiveResolver directiveName selection variables directive
       = Return (if keep then ReturnsArgument else ReturnsUndefined)).
Proof.
  assert (Hundef : ∀ name,
            getValue variables name = JsUndefined
            ↔ variables !! name = Some JsUndefined
              ∨ (variables !! name = None ∧ name ∉ Object_prototype)).
  { intros name. unfold getValue. destruct (variables !! name) as [v|].
    - split; [intros ->; by left | intros [[= ->] | [[=] _]]; done].
    - case_bool_decide; split; try done; [intros [[=]|[_ ?]]; done | by right]. }
  unfold skipIncludeDirectiveResolver, throws. split.
  - destruct (dir_arguments directive) as [|ifArgument [|? ?]] eqn:Hargs; simpl.
    + split; [intros _; left; lia | eauto].
    + assert (Hone : ∀ P : Argument → Prop,
                 (1 ≠ 1 ∨ ∃ a, [ifArgument] = [a] ∧ P a) ↔ P ifArgument)
        by (intros P; split; [intros [? | (a & [= <-] & ?)]; done | eauto]).
      rewrite Hone. clear Hone.
      destruct (decide (arg_name ifArgument = Some "if")) as [Hn|Hn].
      * rewrite (bool_decide_eq_true_2 _ Hn). simpl.
        destruct (arg_value ifArgument) as [name| | | |b| | |] eqn:Hv; simpl;
          try (split; [intros _; right; left; split; intros; discriminate | eauto]).
        -- destruct (decide (getValue variables name = JsUndefined)) as [Hu|Hu].
           ++ rewrite Hu. simpl. split; [|eauto].
              intros _. right. right. exists name. split; [done|]. by apply Hundef.
           ++ split.
              ** intros [e He]. destruct (getValue variables name); try done;
                   simpl in He; repeat case_match; discriminate.
              ** intros [Hbad | [[_ Hbad] | (n & [= <-] & Hn')]];
                   [congruence | by destruct (Hbad name) | by apply Hundef in Hn'].
        -- split.
           ++ intros [e He]. repeat case_match; discriminate.
           ++ intros [Hbad | [[Hbad _] | (n & [=] & _)]];
                [congruence | by destruct (Hbad b)].
      * rewrite (bool_decide_eq_false_2 _ Hn). simpl.
        split; [auto | eauto].
    + split; [intros _; left; simpl; lia | eauto].
  - intros ifArgument v Hargs Hn Hres. rewrite Hargs.
    rewrite (bool_decide_eq_true_2 _ Hn). simpl.
    destruct Hres as [(b & -> & ->) | (name & -> & Hlk & Hv)]; simpl.
    + destruct (bool_decide (directiveName = "skip")); simpl;
        by destruct b.
    + rewrite Hlk.
      destruct v; try done; simpl;
        destruct (bool_decide (directiveName = "skip")); simpl;
        repeat case_match; done.
Qed.

Lemma skipIncludeDirectiveResolver_spec_witness :
  skipIncludeDirectiveResolver "skip" (leaf "a" []) show
    (conditional "skip" (Variable_ "show"))
  = Return ReturnsUndefined.
Proof.
  refine (proj2 (skipIncludeDirectiveResolver_spec "skip" (leaf "a" []) show
                   (conditional "skip" (Variable_ "show")))
                _ (JsBoolean true) eq_refl eq_refl _).
  right. exists "show". by split_and!.
Defined.

(** *** The rewriter, unfolded *)

Lemma resolveDirectives_node variables R selection :
  isNode selection →
  resolveDirectives variables R selection
  = forEach (forDirective variables R selection) initially (directives selection).
Proof. by destruct selection. Qed.

Lemma resolveDirectives_NotASelection variables R :
  resolveDirectives variables R NotASelection
  = Throw (TypeError "Cannot read properties of undefined (reading 'forEach')").
Proof. reflexivity. Qed.

Lemma resolveDirectives_Return variables R selection st :
  resolveDirectives variables R selection = Return st →
  isNode selection
  ∧ forEach (forDirective variables R selection) initially (directives selection)
    = Return st.
Proof. destruct selection; try done; by intros [= <-]. Qed.

Lemma directives_isNode selection directive :
  directive ∈ directives selection → isNode selection.
Proof. destruct selection; simpl; try done. by intros ?%elem_of_nil. Qed.

Lemma applyDirectivesToSelection_isNode variables R selection r :
  applyDirectivesToSelection variables R selection = Return r → isNode selection.
Proof. by destruct selection. Qed.

Lemma applyDirectivesToSelection_eq variables R selection :
  applyDirectivesToSelection variables R selection
  = st ← resolveDirectives variables R selection;
    match newSelection st with
    | Some ns =>
        withSelSet ← rewriteNested variables R selection;
        Return (Some (deref withSelSet ns))
    | None =>
        if negb (bool_decide (toBeRemoved st = Some true))
        then Return (Some (deref selection (currSelection st)))
        else Return None
    end.
Proof. destruct selection as [? ? ? ? [?|]| | |]; reflexivity. Qed.

Lemma applyDirectivesToSelectionSet_eq variables R l :
  applyDirectivesToSelectionSet variables R (Build_SelectionSet l)
  = mapped ← mapM (applyDirectivesToSelection variables R) l;
    Return (Build_SelectionSet (omap id mapped)).
Proof. reflexivity. Qed.

Lemma head_set_selectionSet selection ss :
  nested selection ≠ None → head (set_selectionSet selection ss) = head selection.
Proof. destruct selection as [? ? ? ? [?|]| | |]; simpl; congruence. Qed.

Lemma directives_set_selectionSet selection ss :
  directives (set_selectionSet selection ss) = directives selection.
Proof. by destruct selection. Qed.

Lemma nested_set_selectionSet selection ss :
  nested selection ≠ None → nested (set_selectionSet selection ss) = Some ss.
Proof. destruct selection as [? ? ? ? [?|]| | |]; simpl; congruence. Qed.

Lemma rewriteNested_Return variables R selection s' :
  rewriteNested variables R selection = Return s' →
  (nested selection = None ∧ s' = selection)
  ∨ ∃ ss ss', nested selection = Some ss
      ∧ applyDirectivesToSelectionSet variables R ss = Return ss'
      ∧ s' = set_selectionSet selection ss'.
Proof.
  unfold rewriteNested. destruct (nested selection) as [ss|] eqn:Hn.
  - intros H. apply bind_Return in H as (ss' & Hss' & [= <-]). right. eauto.
  - intros [= <-]. by left.
Qed.

Lemma rewriteNested_head variables R selection s' :
  rewriteNested variables R selection = Return s' →
  head s' = head selection ∧ directives s' = directives selection.
Proof.
  intros [[_ ->] | (ss & ss' & Hn & _ & ->)]%rewriteNested_Return; [done|].
  split; [apply head_set_selectionSet; congruence | apply directives_set_selectionSet].
Qed.

(** What [selections.map] followed by [filter(identity)] leaves: the
    selections the callback returned, in the order of the calls. *)
Lemma applyDirectivesToSelectionSet_Return variables R l out :
  applyDirectivesToSelectionSet variables R (Build_SelectionSet l) = Return out ↔
  ∃ mapped, Forall2 (λ s r, applyDirectivesToSelection variables R s = Return r) l mapped
            ∧ out = Build_SelectionSet (omap id mapped).
Proof.
  rewrite applyDirectivesToSelectionSet_eq, bind_Return.
  split; intros (mapped & H & Hout); exists mapped.
  - apply mapM_Return in H. by injection Hout as <-.
  - apply mapM_Return in H. by subst.
Qed.

Lemma applyDirectivesToSelectionSet_app variables R l1 l2 out :
  applyDirectivesToSelectionSet variables R (Build_SelectionSet (l1 ++ l2)) = Return out ↔
  ∃ out1 out2,
    applyDirectivesToSelectionSet variables R (Build_SelectionSet l1)
      = Return (Build_SelectionSet out1)
    ∧ applyDirectivesToSelectionSet variables R (Build_SelectionSet l2)
      = Return (Build_SelectionSet out2)
    ∧ out = Build_SelectionSet (out1 ++ out2).
Proof.
  rewrite applyDirectivesToSelectionSet_Return. split.
  - intros (mapped & H & ->).
    apply Forall2_app_inv_l in H as (m1 & m2 & H1 & H2 & ->).
    exists (omap id m1), (omap id m2). rewrite omap_app.
    split_and!; [| |done]; apply applyDirectivesToSelectionSet_Return; eauto.
  - intros (out1 & out2 & H1 & H2 & ->).
    apply applyDirectivesToSelectionSet_Return in H1 as (m1 & H1 & [= ->]).
    apply applyDirectivesToSelectionSet_Return in H2 as (m2 & H2 & [= ->]).
    exists (m1 ++ m2). rewrite omap_app. split; [by apply Forall2_app | done].
Qed.

Lemma applyDirectivesToSelectionSet_singleton variables R selection out :
  applyDirectivesToSelectionSet variables R (Build_SelectionSet [selection]) = Return out ↔
  ∃ r, applyDirectivesToSelection variables R selection = Return r
       ∧ out = Build_SelectionSet (option_list r).
Proof.
  rewrite applyDirectivesToSelectionSet_Return. split.
  - intros (mapped & H & ->). inversion H as [|? r ? ? Hr Hnil]; subst.
    inversion Hnil; subst. exists r. split; [done|]. by destruct r.
  - intros (r & Hr & ->). exists [r]. split; [by repeat constructor | by destruct r].
Qed.

(** *** Directives without a resolver *)

Lemma forEach_app {A S} (body : S → A → Completion S) st l1 l2 :
  forEach body st (l1 ++ l2) = st' ← forEach body st l1; forEach body st' l2.
Proof.
  revert st. induction l1 as [|x l1 IH]; intros st; simpl; [done|].
  destruct (body st x); simpl; [apply IH | done].
Qed.

Lemma lookupResolver_own (R : Resolvers) name r :
  R !! name = Some r → lookupResolver R name = Some r.
Proof. intros H. unfold lookupResolver, DirectiveResolver in *. by rewrite H. Qed.

Lemma lookupResolver_inherited (R : Resolvers) name :
  R !! name = None → lookupResolver R name = inherited name.
Proof. intros H. unfold lookupResolver, DirectiveResolver in *. by rewrite H. Qed.

Lemma forDirective_unregistered variables (R : Resolvers) selection st directive name :
  dir_name directive = Some name → name ≠ "" → lookupResolver R name = None →
  forDirective variables R selection st directive
  = Throw (TypeError "directiveResolver is not a function").
Proof.
  intros Hname Hne Hlk. unfold forDirective.
  rewrite Hname. simpl. rewrite (bool_decide_eq_false_2 _ Hne). simpl.
  by rewrite Hlk.
Qed.

(** A selection that carries a directive under a name for which the
    registry has no function, neither its own nor one it inherits, makes
    the callback throw: either an earlier directive of the selection
    throws, or the call of what is not a function does. *)
Lemma unregistered_directive_throws variables (R : Resolvers) selection directive name :
  directive ∈ directives selection →
  dir_name directive = Some name → name ≠ "" → lookupResolver R name = None →
  throws (applyDirectivesToSelection variables R selection).
Proof.
  intros Hin Hname Hne Hlk. rewrite applyDirectivesToSelection_eq.
  rewrite resolveDirectives_node by (by eapply directives_isNode).
  apply list_elem_of_split in Hin as (l1 & l2 & ->).
  rewrite forEach_app.
  destruct (forEach _ initially l1) as [st|e]; simpl; [|by eexists].
  rewrite (forDirective_unregistered _ _ _ _ _ name) by done. by eexists.
Qed.

Lemma mapM_throws {A B} (f : A → Completion B) (l : list A) x :
  x ∈ l → throws (f x) → throws (mapM f l).
Proof.
  intros Hin [e He]. induction l as [|y l IH]; [by apply elem_of_nil in Hin|].
  simpl. apply elem_of_cons in Hin as [<-|Hin].
  - rewrite He. by exists e.
  - destruct (f y); simpl; [|by eexists].
    destruct (IH Hin) as [e' ->]. by exists e'.
Qed.

(** C2.  [{ a @foo }] with the registry [{}], which is the registry
    [applyDirectives] falls back to, does not come back unchanged: the
    lookup of line 73 gives [undefined], and the call of line 74 throws.
    The same happens to [@include] under the registry of
    [applySkipResolver].  A selection passes through unchanged, its
    selection set rewritten, under a name the registry does not have only
    by way of [Object.prototype]: [{ a @constructor { b } }] does, because
    [{}] inherits [constructor], which is [Object] and returns the object
    it is given; and under the inherited [toString] what comes back in the
    place of the selection is not a selection. *)
Theorem unknown_directive_throws :
  applyDirectivesToSelectionSet ∅ ∅ unknownDirective
  = Throw (TypeError "directiveResolver is not a function")
  ∧ applyDirectivesToSelectionSet ∅ {[ "skip" := skipDirectiveResolver ]}
      (outer [include_if true])
    = Throw (TypeError "directiveResolver is not a function")
  ∧ applyDirectivesToSelectionSet ∅ ∅ constructorDirective = Return constructorDirective
  ∧ applyDirectivesToSelectionSet ∅ ∅ toStringDirective
    = Return (Build_SelectionSet [NotASelection]).
Proof. split_and!; reflexivity. Qed.

(** The names that make the call of line 74 throw in this way are those
    the registry has no function for, neither its own nor one it inherits:
    a selection set with a selection that carries a directive under such a
    name is not rewritten.  The directives that are passed over, leaving
    the selection as it is, are those without a name or with an empty
    one. *)
Theorem missing_resolver_throws variables (R : Resolvers) selSet selection directive name :
  selection ∈ selections selSet →
  directive ∈ directives selection →
  dir_name directive = Some name → name ≠ "" → lookupResolver R name = None →
  throws (applyDirectivesToSelectionSet variables R selSet)
  ∧ ∀ st unnamed,
      dir_name unnamed = None ∨ dir_name unnamed = Some "" →
      forDirective variables R selection st unnamed = Return st.
Proof.
  intros Hsel Hin Hname Hne Hlk. split.
  - destruct selSet as [l]. rewrite applyDirectivesToSelectionSet_eq.
    destruct (mapM_throws (applyDirectivesToSelection variables R) l selection Hsel)
      as [e He]; [by eapply unregistered_directive_throws|].
    rewrite He. by exists e.
  - intros st unnamed [Hn|Hn]; unfold forDirective; by rewrite Hn.
Qed.

Lemma missing_resolver_throws_witness :
  throws (applyDirectivesToSelectionSet ∅ ∅ unknownDirective).
Proof.
  refine (proj1 (missing_resolver_throws ∅ ∅ unknownDirective
                   (leaf "a" [ {| dir_name := Some "foo"; dir_arguments := [] |} ])
                   {| dir_name := Some "foo"; dir_arguments := [] |} "foo"
                   _ _ eq_refl _ eq_refl)).
  - by left.
  - by left.
  - done.
Defined.

(** *** Both [skip] and [include] on one selection *)

(** C3.  [{ a @include(if: true) @skip(if: true) { b @skip(if: true) c } }]:
    [a] is kept, through [return currSelection] (line 103), and its
    selection set comes back as it went in, [b] included.  With the two
    directives in the other order [a] is kept through
    [return newSelection] (line 101), and [b] is gone. *)
Theorem kept_by_override_not_descended :
  applyDirectivesToSelectionSet ∅ skipAndInclude (outer [include_if true; skip_if true])
  = Return (outer [include_if true; skip_if true])
  ∧ applyDirectivesToSelectionSet ∅ skipAndInclude (outer [skip_if true; include_if true])
    = Return (Build_SelectionSet
                [Field None "a" [] [skip_if true; include_if true]
                   (Some (Build_SelectionSet [leaf "c" []]))]).
Proof. split; reflexivity. Qed.

(** C1, as the spec has it, fails: a selection with [@skip(if: false)] and
    [@include(if: false)] is not removed, in either order. *)
Lemma skip_false_include_false_kept :
  applyDirectivesToSelectionSet ∅ skipAndInclude
    (Build_SelectionSet [leaf "a" [skip_if false; include_if false]])
  = Return (Build_SelectionSet [leaf "a" [skip_if false; include_if false]])
  ∧ applyDirectivesToSelectionSet ∅ skipAndInclude
      (Build_SelectionSet [leaf "a" [include_if false; skip_if false]])
    = Return (Build_SelectionSet [leaf "a" [include_if false; skip_if false]]).
Proof. split; reflexivity. Qed.

Lemma forDirective_skip_if variables (R : Resolvers) selection st b :
  R !! "skip" = Some skipDirectiveResolver →
  forDirective variables R selection st (skip_if b)
  = Return (if b
            then match toBeRemoved st with
                 | None => {| newSelection := None; currSelection := currSelection st;
                              toBeRemoved := Some true |}
                 | Some _ => {| newSelection := None; currSelection := This;
                                toBeRemoved := toBeRemoved st |}
                 end
            else {| newSelection := Some (currSelection st);
                    currSelection := currSelection st; toBeRemoved := Some false |}).
Proof.
  intros Hlk. unfold forDirective, skip_if, conditional. cbn [dir_name].
  rewrite bool_decide_eq_false_2 by done.
  rewrite (lookupResolver_own _ _ _ Hlk). by destruct b, (toBeRemoved st).
Qed.

Lemma forDirective_include_if variables (R : Resolvers) selection st b :
  R !! "include" = Some includeDirectiveResolver →
  forDirective variables R selection st (include_if b)
  = Return (if b
            then {| newSelection := Some (currSelection st);
                    currSelection := currSelection st; toBeRemoved := Some false |}
            else match toBeRemoved st with
                 | None => {| newSelection := None; currSelection := currSelection st;
                              toBeRemoved := Some true |}
                 | Some _ => {| newSelection := None; currSelection := This;
                                toBeRemoved := toBeRemoved st |}
                 end).
Proof.
  intros Hlk. unfold forDirective, include_if, conditional. cbn [dir_name].
  rewrite bool_decide_eq_false_2 by done.
  rewrite (lookupResolver_own _ _ _ Hlk). by destruct b, (toBeRemoved st).
Qed.

(** The callback on a selection that carries the two directives. *)
Lemma applyDirectivesToSelection_skip_include variables (R : Resolvers) selection b1 b2 :
  R !! "skip" = Some skipDirectiveResolver →
  R !! "include" = Some includeDirectiveResolver →
  directives selection = [skip_if b1; include_if b2]
  ∨ directives selection = [include_if b2; skip_if b1] →
  if b1 && negb b2
  then applyDirectivesToSelection variables R selection = Return None
  else applyDirectivesToSelection variables R selection = Return (Some selection)
       ∨ applyDirectivesToSelection variables R selection
         = Some <$> rewriteNested variables R selection.
Proof.
  intros Hs Hi Hds.
  assert (Hnode : isNode selection).
  { destruct Hds as [H|H]; (eapply directives_isNode; rewrite H; left). }
  rewrite applyDirectivesToSelection_eq, resolveDirectives_node by done.
  destruct Hds as [-> | ->]; simpl;
    rewrite ?forDirective_skip_if, ?forDirective_include_if by done; simpl;
    rewrite ?forDirective_skip_if, ?forDirective_include_if by done; simpl;
    destruct b1, b2; simpl; auto;
    right; by destruct (rewriteNested variables R selection).
Qed.

(** C1, amended.  Whenever the rewrite of a selection set returns, a
    selection in it that carries [@skip(if: b1)] and [@include(if: b2)], in
    either order, is removed when [b1] is true and [b2] is false, and kept
    in its place otherwise: kept with both true, and kept with both false
    as well. *)
Theorem skip_include_conflict variables (R : Resolvers) pre selection post b1 b2 out :
  R !! "skip" = Some skipDirectiveResolver →
  R !! "include" = Some includeDirectiveResolver →
  directives selection = [skip_if b1; include_if b2]
  ∨ directives selection = [include_if b2; skip_if b1] →
  applyDirectivesToSelectionSet variables R (Build_SelectionSet (pre ++ selection :: post))
  = Return out →
  ∃ pre' post',
    applyDirectivesToSelectionSet variables R (Build_SelectionSet pre)
    = Return (Build_SelectionSet pre')
    ∧ applyDirectivesToSelectionSet variables R (Build_SelectionSet post)
      = Return (Build_SelectionSet post')
    ∧ if b1 && negb b2
      then selections out = pre' ++ post'
      else ∃ kept, head kept = head selection
                   ∧ selections out = pre' ++ kept :: post'.
Proof.
  intros Hs Hi Hds H.
  apply applyDirectivesToSelectionSet_app in H as (pre' & rest & Hpre & H & ->).
  apply (applyDirectivesToSelectionSet_app _ _ [selection]) in H
    as (this & post' & Hthis & Hpost & [= ->]).
  apply applyDirectivesToSelectionSet_singleton in Hthis as (r & Hr & [= ->]).
  exists pre', post'. split_and!; [done..|].
  pose proof (applyDirectivesToSelection_skip_include variables R selection b1 b2
                Hs Hi Hds) as Hcase.
  destruct (b1 && negb b2).
  - rewrite Hr in Hcase. injection Hcase as ->. done.
  - destruct Hcase as [Hcase | Hcase]; rewrite Hr in Hcase.
    + injection Hcase as ->. by exists selection.
    + destruct (rewriteNested variables R selection) as [s'|e] eqn:Hs';
        simpl in Hcase; [|done].
      injection Hcase as ->. exists s'. split; [|done].
      by apply rewriteNested_head in Hs' as [? _].
Qed.

Lemma skip_include_conflict_witness :
  ∃ kept, head kept = head (Field None "a" [] [skip_if true; include_if true] (Some inner))
    ∧ selections (Build_SelectionSet
                    [leaf "x" [];
                     Field None "a" [] [skip_if true; include_if true]
                       (Some (Build_SelectionSet [leaf "c" []]))])
      = [leaf "x" []] ++ kept :: [].
Proof.
  destruct (skip_include_conflict ∅ skipAndInclude [leaf "x" []]
              (Field None "a" [] [skip_if true; include_if true] (Some inner)) []
              true true
              (Build_SelectionSet
                 [leaf "x" [];
                  Field None "a" [] [skip_if true; include_if true]
                    (Some (Build_SelectionSet [leaf "c" []]))])
              eq_refl eq_refl (or_introl eq_refl) eq_refl)
    as (pre' & post' & Hpre & Hpost & Hkept).
  injection Hpre as <-. injection Hpost as <-. exact Hkept.
Defined.

(** *** Resolvers that only decide *)

Lemma skipIncludeDirectiveResolver_deciding directiveName :
  deciding (skipIncludeDirectiveResolver directiveName).
Proof.
  intros selection variables directive. split; [|done].
  intros o. unfold skipIncludeDirectiveResolver.
  repeat case_match; simpl; try discriminate;
    repeat case_match; discriminate.
Qed.

Lemma allDeciding_empty : allDeciding ∅.
Proof. intros name r. by rewrite lookup_empty. Qed.

Lemma allDeciding_insert (R : Resolvers) name r :
  deciding r → allDeciding R → allDeciding (<[name := r]> R).
Proof.
  intros Hr HR name' r'. unfold DirectiveResolver in *.
  rewrite lookup_insert. case_decide; [by intros [= <-] | apply HR].
Qed.

Lemma allDeciding_skipAndInclude : allDeciding skipAndInclude.
Proof.
  apply allDeciding_insert; [apply skipIncludeDirectiveResolver_deciding|].
  apply allDeciding_insert; [apply skipIncludeDirectiveResolver_deciding|].
  apply allDeciding_empty.
Qed.

(** Of the functions a registry inherits, [Object] and those that throw
    only decide; [Object.prototype.toString] does not. *)
Lemma inherited_deciding name (r : DirectiveResolver) :
  inherited name = Some r → name ≠ "toString" → deciding r.
Proof.
  unfold inherited. intros H Hne.
  repeat case_bool_decide; simplify_eq; by intros selection variables directive.
Qed.

Lemma inherited_ext name (r : DirectiveResolver) selection selection' variables directive :
  inherited name = Some r →
  r selection' variables directive = r selection variables directive.
Proof. unfold inherited. intros H. by repeat case_bool_decide; simplify_eq. Qed.

Lemma lookupResolver_Some (R : Resolvers) name r :
  lookupResolver R name = Some r →
  R !! name = Some r ∨ (R !! name = None ∧ inherited name = Some r).
Proof.
  unfold lookupResolver, DirectiveResolver in *.
  destruct (R !! name) as [r'|]; [intros [= <-]; by left | by right].
Qed.

Lemma lookupResolver_ext (R : Resolvers) name r selection selection' variables directive :
  allDeciding R → lookupResolver R name = Some r →
  r selection' variables directive = r selection variables directive.
Proof.
  intros HR [Hown | [_ Hin]]%lookupResolver_Some.
  - by destruct (HR _ _ Hown selection variables directive) as [_ ->].
  - by eapply inherited_ext.
Qed.

Lemma decidingOn_subseteq (R : Resolvers) ds ds' :
  ds ⊆ ds' → decidingOn R ds' → decidingOn R ds.
Proof. intros Hsub H d name r Hd. apply H. by apply Hsub. Qed.

Lemma decidingOn_app (R : Resolvers) ds ds' :
  decidingOn R (ds ++ ds') ↔ decidingOn R ds ∧ decidingOn R ds'.
Proof.
  split.
  - intros H. split; intros d name r Hd; apply H; apply elem_of_app; auto.
  - intros [H1 H2] d name r [Hd|Hd]%elem_of_app; [by apply H1 | by apply H2].
Qed.

Lemma decidingOn_nil (R : Resolvers) : decidingOn R [].
Proof. intros d name r Hd. by apply elem_of_nil in Hd. Qed.

Lemma decidingOn_cons (R : Resolvers) d ds :
  decidingOn R (d :: ds) ↔ decidingOn R [d] ∧ decidingOn R ds.
Proof. apply (decidingOn_app R [d] ds). Qed.

(** A registry whose own resolvers only decide resolves with resolvers
    that only decide every directive that is not named [toString]. *)
Lemma allDeciding_decidingOn (R : Resolvers) ds :
  allDeciding R → Forall (λ d, dir_name d ≠ Some "toString") ds → decidingOn R ds.
Proof.
  intros HR Hds d name r Hd Hname [Hown | [_ Hin]]%lookupResolver_Some.
  - by eapply HR.
  - eapply inherited_deciding; [done|].
    intros ->. by apply (proj1 (Forall_forall _ _) Hds d Hd).
Qed.

Lemma forDirective_onThis variables (R : Resolvers) selection st directive st' :
  decidingOn R [directive] → onThis st →
  forDirective variables R selection st directive = Return st' → onThis st'.
Proof.
  intros HR [Hcurr Hnew]. unfold forDirective.
  destruct (dir_name directive) as [name|] eqn:Hname; [|by intros [= <-]].
  case_bool_decide; [by intros [= <-]|].
  destruct (lookupResolver R name) as [r|] eqn:Hr; [|done].
  assert (Hdec : deciding r).
  { eapply (HR directive); [by left|done..]. }
  destruct (r (deref selection (currSelection st)) variables directive) as [res|e] eqn:Hres;
    simpl; [|done].
  destruct res as [| |o];
    [| |by destruct (Hdec (deref selection (currSelection st)) variables directive)
          as [Hno _]; destruct (Hno _ Hres)].
  - rewrite Hcurr. destruct (_ || _); intros [= <-]; split; simpl; auto.
  - destruct (_ || _); [destruct (toBeRemoved st)|]; intros [= <-]; split; simpl; auto.
Qed.

Lemma forDirective_ext variables (R : Resolvers) selection selection' st directive :
  allDeciding R →
  forDirective variables R selection st directive
  = forDirective variables R selection' st directive.
Proof.
  intros HR. unfold forDirective.
  destruct (dir_name directive) as [name|]; [|done].
  case_bool_decide; [done|].
  destruct (lookupResolver R name) as [r|] eqn:Hr; [|done].
  by rewrite (lookupResolver_ext _ _ _ (deref selection (currSelection st))
                (deref selection' (currSelection st)) variables directive HR Hr).
Qed.

Lemma forEach_onThis variables (R : Resolvers) selection l st st' :
  decidingOn R l → onThis st →
  forEach (forDirective variables R selection) st l = Return st' → onThis st'.
Proof.
  revert st. induction l as [|d l IH]; intros st HR Hst; simpl.
  - by intros [= <-].
  - apply decidingOn_cons in HR as [Hd HR].
    intros H. apply bind_Return in H as (st1 & H1 & H).
    eapply IH; [done| |exact H]. eapply forDirective_onThis; eauto.
Qed.

Lemma forDirective_ext_on variables (R : Resolvers) selection selection' st directive :
  decidingOn R [directive] →
  forDirective variables R selection st directive
  = forDirective variables R selection' st directive.
Proof.
  intros HR. unfold forDirective.
  destruct (dir_name directive) as [name|] eqn:Hname; [|done].
  case_bool_decide; [done|].
  destruct (lookupResolver R name) as [r|] eqn:Hr; [|done].
  assert (Hdec : deciding r) by (eapply (HR directive); [by left|done..]).
  by destruct (Hdec (deref selection' (currSelection st)) variables directive) as [_ ->].
Qed.

Lemma forEach_ext_on variables (R : Resolvers) selection selection' l st :
  decidingOn R l →
  forEach (forDirective variables R selection) st l
  = forEach (forDirective variables R selection') st l.
Proof.
  revert st. induction l as [|d l IH]; intros st HR; simpl; [done|].
  apply decidingOn_cons in HR as [Hd HR].
  rewrite (forDirective_ext_on _ _ selection selection') by done.
  destruct (forDirective _ _ _ _ _); simpl; [by apply IH | done].
Qed.

Lemma forEach_ext variables (R : Resolvers) selection selection' l st :
  allDeciding R →
  forEach (forDirective variables R selection) st l
  = forEach (forDirective variables R selection') st l.
Proof.
  intros HR. revert st. induction l as [|d l IH]; intros st; simpl; [done|].
  rewrite (forDirective_ext _ _ selection selection') by done.
  destruct (forDirective _ _ _ _ _); simpl; [apply IH | done].
Qed.

Lemma resolveDirectives_onThis variables (R : Resolvers) selection st :
  decidingOn R (directives selection) →
  resolveDirectives variables R selection = Return st → onThis st.
Proof.
  intros HR [_ H]%resolveDirectives_Return.
  eapply forEach_onThis; [done| |exact H]. split; simpl; auto.
Qed.

Lemma resolveDirectives_ext variables (R : Resolvers) selection selection' :
  allDeciding R → isNode selection → isNode selection' →
  directives selection = directives selection' →
  resolveDirectives variables R selection = resolveDirectives variables R selection'.
Proof.
  intros HR Hn Hn' Hds. rewrite !resolveDirectives_node by done.
  rewrite Hds. by apply forEach_ext.
Qed.

(** With resolvers that only decide, the callback has three outcomes:
    removed, kept as it was (line 103), or kept with its selection set
    rewritten (line 101). *)
Lemma applyDirectivesToSelection_deciding variables (R : Resolvers) selection r :
  decidingOn R (directives selection) →
  applyDirectivesToSelection variables R selection = Return r →
  ∃ st, resolveDirectives variables R selection = Return st ∧
    ((newSelection st = None ∧ toBeRemoved st = Some true ∧ r = None)
     ∨ (newSelection st = None ∧ toBeRemoved st ≠ Some true ∧ r = Some selection)
     ∨ (newSelection st = Some This ∧ ∃ s', rewriteNested variables R selection = Return s'
                                         ∧ r = Some s')).
Proof.
  intros HR. rewrite applyDirectivesToSelection_eq. intros H.
  apply bind_Return in H as (st & Hst & H). exists st. split; [done|].
  destruct (resolveDirectives_onThis _ _ _ _ HR Hst) as [Hcurr [Hnew | Hnew]];
    rewrite Hnew in H.
  - rewrite Hcurr in H. case_bool_decide; simpl in H; injection H as <-; auto.
  - apply bind_Return in H as (s' & Hs' & [= <-]). right; right. eauto.
Qed.

Lemma applyDirectivesToSelection_head variables (R : Resolvers) selection s' :
  decidingOn R (directives selection) →
  applyDirectivesToSelection variables R selection = Return (Some s') →
  head s' = head selection.
Proof.
  intros HR H.
  apply applyDirectivesToSelection_deciding in H
    as (st & _ & [(_ & _ & [=]) | [(_ & _ & [= <-]) | (_ & s1 & Hs1 & [= <-])]]);
    [done| |done].
  by apply rewriteNested_head in Hs1 as [? _].
Qed.

(** *** Order of the survivors *)

(** C5.  When the rewrite of a selection set returns, its selections are
    what the callback returned for the selections of the input, taken in
    input order with the removed ones left out.  When the directives of
    the selections are resolved with resolvers that only decide, each
    survivor is the input selection (with, at most, its own selection set
    rewritten), so the survivors are a subsequence of the input. *)
Theorem order_preserved variables (R : Resolvers) selSet out :
  applyDirectivesToSelectionSet variables R selSet = Return out →
  ∃ mapped,
    Forall2 (λ s r, applyDirectivesToSelection variables R s = Return r)
            (selections selSet) mapped
    ∧ selections out = omap id mapped
    ∧ (decidingOn R (flat_map directives (selections selSet)) →
       sublist (head <$> selections out) (head <$> selections selSet)).
Proof.
  destruct selSet as [l]. intros H.
  apply applyDirectivesToSelectionSet_Return in H as (mapped & H & ->).
  exists mapped. split_and!; [done..|]. simpl. intros HR.
  induction H as [|s r l mapped Hr _ IH]; simpl; [constructor|].
  simpl in HR. apply decidingOn_app in HR as [Hs HR].
  destruct r as [s'|]; simpl.
  - rewrite (applyDirectivesToSelection_head _ _ _ _ Hs Hr). constructor. by apply IH.
  - constructor. by apply IH.
Qed.

Lemma order_preserved_witness :
  sublist (head <$> [leaf "x" []; Field None "a" [] [conditional "include" (Variable_ "show")]
                                    (Some (Build_SelectionSet [leaf "c" []]))])
          (head <$> [leaf "x" [];
                     Field None "a" [] [conditional "include" (Variable_ "show")] (Some inner);
                     leaf "y" [conditional "skip" (Variable_ "show")]]).
Proof.
  destruct (order_preserved show skipAndInclude
              (Build_SelectionSet
                 [leaf "x" [];
                  Field None "a" [] [conditional "include" (Variable_ "show")] (Some inner);
                  leaf "y" [conditional "skip" (Variable_ "show")]])
              (Build_SelectionSet
                 [leaf "x" [];
                  Field None "a" [] [conditional "include" (Variable_ "show")]
                    (Some (Build_SelectionSet [leaf "c" []]))])
              eq_refl) as (mapped & _ & _ & Hsub).
  apply Hsub. apply allDeciding_decidingOn; [apply allDeciding_skipAndInclude|].
  simpl. by repeat constructor.
Defined.

(** *** Rewriting twice *)

Lemma allDirectives_eq selection :
  allDirectives selection
  = directives selection
    ++ match nested selection with
       | Some ss => flat_map allDirectives (selections ss)
       | None => []
       end.
Proof. by destruct selection as [? ? ? ? [[?]|]| |? ? [?]|]. Qed.

Section Idempotence.
Context (variables : Variables) (R : Resolvers).

Let once := λ selection,
  decidingOn R (allDirectives selection) → settled variables R selection.
Let onceSet := λ selSet,
  decidingOn R (flat_map allDirectives (selections selSet)) →
  settledSet variables R selSet.

Lemma set_selectionSet_twice selection ss ss' :
  set_selectionSet (set_selectionSet selection ss) ss' = set_selectionSet selection ss'.
Proof. by destruct selection. Qed.

Lemma isNode_nested selection ss : nested selection = Some ss → isNode selection.
Proof. by destruct selection. Qed.

Lemma isNode_set_selectionSet selection ss :
  isNode (set_selectionSet selection ss) = isNode selection.
Proof. by destruct selection. Qed.

Lemma once_selection selection :
  (∀ ss, nested selection = Some ss → onceSet ss) → once selection.
Proof.
  intros Hnested HR s' H.
  rewrite allDirectives_eq in HR. apply decidingOn_app in HR as [HR HRn].
  pose proof H as Hcase.
  apply applyDirectivesToSelection_deciding in Hcase
    as (st & Hst & [(_ & _ & [=]) | [(_ & _ & [= <-]) | (Hnew & s1 & Hs1 & [= <-])]]);
    [done| |done].
  rewrite applyDirectivesToSelection_eq.
  apply rewriteNested_Return in Hs1 as [[_ ->] | (ss & ss' & Hn & Hss' & ->)].
  { by rewrite <- applyDirectivesToSelection_eq. }
  assert (Hnode : isNode selection) by (by eapply isNode_nested).
  rewrite !resolveDirectives_node in * by (by rewrite ?isNode_set_selectionSet).
  rewrite directives_set_selectionSet.
  rewrite (forEach_ext_on _ _ _ selection) by done.
  rewrite Hst. simpl. rewrite Hnew. unfold rewriteNested.
  rewrite nested_set_selectionSet by congruence.
  rewrite Hn in HRn.
  rewrite (Hnested ss Hn HRn ss' Hss'). simpl.
  by rewrite set_selectionSet_twice.
Qed.

Lemma once_selections l mapped :
  Forall (settled variables R) l →
  Forall2 (λ s r, applyDirectivesToSelection variables R s = Return r) l mapped →
  Forall2 (λ s r, applyDirectivesToSelection variables R s = Return r)
          (omap id mapped) (Some <$> omap id mapped).
Proof.
  intros Hl H. induction H as [|s r l mapped Hr _ IH]; simpl; [constructor|].
  apply Forall_cons in Hl as [Hs Hl].
  destruct r as [s'|]; simpl; [|by apply IH].
  constructor; [by apply Hs | by apply IH].
Qed.

Lemma omap_id_Some {A} (l : list A) : omap id (Some <$> l) = l.
Proof. induction l as [|x l IH]; [done | simpl; f_equal; exact IH]. Qed.

Lemma applyDirectivesToSelectionSet_idempotent selSet out :
  decidingOn R (flat_map allDirectives (selections selSet)) →
  applyDirectivesToSelectionSet variables R selSet = Return out →
  applyDirectivesToSelectionSet variables R out = Return out.
Proof.
  intros HR. revert out. change (settledSet variables R selSet).
  revert HR. change (onceSet selSet).
  apply (SelectionSet_tree_ind once onceSet); clear selSet.
  - intros. by apply once_selection.
  - intros a n args ds ss Hss. apply once_selection. by intros ? [= <-].
  - intros. by apply once_selection.
  - intros t ds ss Hss. apply once_selection. by intros ? [= <-].
  - by apply once_selection.
  - intros l Hl HR out H. simpl in HR.
    assert (Hsettled : Forall (settled variables R) l).
    { clear H. induction Hl as [|s l Hs _ IH]; [constructor|].
      simpl in HR. apply decidingOn_app in HR as [HRs HR].
      constructor; [by apply Hs | by apply IH]. }
    apply applyDirectivesToSelectionSet_Return in H as (mapped & H & ->).
    apply applyDirectivesToSelectionSet_Return.
    exists (Some <$> omap id mapped). split; [by apply (once_selections l)|].
    by rewrite omap_id_Some.
Qed.

End Idempotence.

(** *** The definitions of the rewritten document *)

Lemma filter_none {A} (f : A → bool) (l : list A) :
  forallb (λ x, negb (f x)) l = true → filter (λ x, f x) l = [].
Proof.
  induction l as [|x l IH]; simpl; [done|].
  destruct (f x) eqn:Hx; simpl; [discriminate|]. intros Hl.
  rewrite filter_cons_False by (rewrite Hx; exact id). by apply IH.
Qed.

Lemma filter_all {A} (f : A → bool) (l : list A) :
  Forall (λ x, f x = true) l → filter (λ x, f x) l = l.
Proof.
  induction 1 as [|x l Hx _ IH]; [done|].
  rewrite filter_cons_True by (rewrite Hx; exact I). by rewrite IH.
Qed.

Lemma isQueryDefinition_not_fragment d :
  isQueryDefinition d = true → isFragmentDefinition d = false.
Proof. by destruct d as [[]| ]. Qed.

Lemma isFragmentDefinition_not_query d :
  isFragmentDefinition d = true → isQueryDefinition d = false.
Proof. by destruct d as [[]| ]. Qed.

Lemma isQueryDefinition_set d ss :
  isQueryDefinition (def_set_selectionSet d ss) = isQueryDefinition d.
Proof. by destruct d. Qed.

Lemma isFragmentDefinition_set d ss :
  isFragmentDefinition (def_set_selectionSet d ss) = isFragmentDefinition d.
Proof. by destruct d. Qed.

Lemma def_selectionSet_set d ss : def_selectionSet (def_set_selectionSet d ss) = ss.
Proof. by destruct d. Qed.

Lemma def_set_selectionSet_twice d ss ss' :
  def_set_selectionSet (def_set_selectionSet d ss) ss' = def_set_selectionSet d ss'.
Proof. by destruct d. Qed.

Lemma applyDirectives_Return doc variables R doc' :
  applyDirectives doc variables R = Return doc' ↔
  ∃ queryDef queryDef' fragments',
    getQueryDefinition doc = Return queryDef
    ∧ rewritesTo (default ∅ variables) (default ∅ R) queryDef queryDef'
    ∧ Forall2 (rewritesTo (default ∅ variables) (default ∅ R))
              (getFragmentDefinitions doc) fragments'
    ∧ doc' = {| definitions := queryDef' :: fragments' |}.
Proof.
  unfold applyDirectives, rewritesTo. split.
  - intros H. apply bind_Return in H as (queryDef & Hq & H).
    apply bind_Return in H as (newSelSet & Hss & H).
    apply bind_Return in H as (fragments' & Hfs & [= <-]).
    exists queryDef, (def_set_selectionSet queryDef newSelSet), fragments'.
    split_and!; [done|eauto| |done].
    apply mapM_Return in Hfs. eapply Forall2_impl; [exact Hfs|].
    intros f f' Hf. simpl in Hf. apply bind_Return in Hf as (ss' & Hss' & [= <-]). eauto.
  - intros (queryDef & queryDef' & fragments' & Hq & (newSelSet & Hss & ->) & Hfs & ->).
    rewrite Hq. simpl. rewrite Hss. simpl.
    assert (mapM (λ fragmentDef,
                    fragmentSelSet ← applyDirectivesToSelectionSet (default ∅ variables)
                                       (default ∅ R) (def_selectionSet fragmentDef);
                    Return (def_set_selectionSet fragmentDef fragmentSelSet))
                 (getFragmentDefinitions doc) = Return fragments') as ->; [|done].
    apply mapM_Return. eapply Forall2_impl; [exact Hfs|].
    intros f f' (ss' & Hss' & ->). simpl. by rewrite Hss'.
Qed.

(** C10.  For a document whose definitions are one query operation among
    others that are not query operations, a rewrite that returns gives the
    document whose definitions are the rewritten query operation followed
    by the rewritten fragment definitions, in the order the input has
    them; the other definitions are not in it. *)
Theorem applyDirectives_definitions doc variables R pre queryDef post doc' :
  definitions doc = pre ++ queryDef :: post →
  isQueryDefinition queryDef = true →
  forallb (λ d, negb (isQueryDefinition d)) (pre ++ post) = true →
  applyDirectives doc variables R = Return doc' →
  ∃ queryDef' fragments',
    rewritesTo (default ∅ variables) (default ∅ R) queryDef queryDef'
    ∧ Forall2 (rewritesTo (default ∅ variables) (default ∅ R))
              (filter (λ d, isFragmentDefinition d) (pre ++ post)) fragments'
    ∧ definitions doc' = queryDef' :: fragments'.
Proof.
  intros Hdefs Hq Hothers H.
  apply applyDirectives_Return in H
    as (queryDef0 & queryDef' & fragments' & Hget & Hrw & Hfs & ->).
  rewrite forallb_app in Hothers. apply andb_prop in Hothers as [Hpre Hpost].
  assert (queryDef0 = queryDef) as ->.
  { unfold getQueryDefinition in Hget. rewrite Hdefs in Hget.
    rewrite filter_app, (filter_none _ _ Hpre), filter_cons_True in Hget
      by (rewrite Hq; exact I).
    simpl in Hget. congruence. }
  exists queryDef', fragments'. split_and!; [done| |done].
  unfold getFragmentDefinitions in Hfs. rewrite Hdefs in Hfs.
  rewrite filter_app, filter_cons_False in Hfs
    by (rewrite (isQueryDefinition_not_fragment _ Hq); exact id).
  by rewrite filter_app.
Qed.

Lemma applyDirectives_definitions_witness :
  ∃ queryDef' fragments',
    rewritesTo show skipAndInclude
      (OperationDefinition query None []
         (Build_SelectionSet
            [ leaf "x" [];
              Field None "a" [] [conditional "include" (Variable_ "show")] (Some inner);
              leaf "y" [conditional "skip" (Variable_ "show")] ])) queryDef'
    ∧ Forall2 (rewritesTo show skipAndInclude) [FragmentDefinition "F" "T" [] inner] fragments'
    ∧ definitions rewritten = queryDef' :: fragments'.
Proof.
  exact (applyDirectives_definitions document (Some show) (Some skipAndInclude)
           [FragmentDefinition "F" "T" [] inner] _ [] rewritten
           eq_refl eq_refl eq_refl eq_refl).
Defined.

(** C8, as the spec has it, fails: the rewrite of
    [query { a @include(if: true) }] is that document itself, [@include]
    still on [a]. *)
Lemma directives_stay :
  applyDirectives included None (Some skipAndInclude) = Return included
  ∧ existsb isConditional (documentDirectives included) = true.
Proof. split; reflexivity. Qed.

Lemma documentDirectives_definition doc d :
  d ∈ definitions doc →
  flat_map allDirectives (selections (def_selectionSet d)) ⊆ documentDirectives doc.
Proof.
  intros Hd x Hx. apply list_elem_of_In, in_flat_map. exists d.
  split; by apply list_elem_of_In.
Qed.

(** C8, amended.  When the directives of a document are resolved with
    resolvers that only decide, as those of [skip] and [include] do (a
    resolver returns the selection it is given or [undefined], never
    anything else, and which of the two does not depend on the selection),
    a rewrite that returns gives a document that the rewrite with the same
    variables returns unchanged.  (The directives of the surviving
    selections are still there the second time; they decide as they did
    the first time.) *)
Theorem applyDirectives_idempotent doc variables R doc' :
  decidingOn (default ∅ R) (documentDirectives doc) →
  applyDirectives doc variables R = Return doc' →
  applyDirectives doc' variables R = Return doc'.
Proof.
  intros HR H.
  apply applyDirectives_Return in H
    as (queryDef & queryDef' & fragments' & Hget & (qss & Hqss & ->) & Hfs & ->).
  assert (Hq : isQueryDefinition queryDef = true
               ∧ decidingOn (default ∅ R)
                   (flat_map allDirectives (selections (def_selectionSet queryDef)))).
  { unfold getQueryDefinition in Hget.
    destruct (filter _ _) as [|q l] eqn:Hf; [done|]. injection Hget as ->.
    assert (Hin : queryDef ∈ filter (λ d, isQueryDefinition d) (definitions doc))
      by (rewrite Hf; left).
    apply list_elem_of_filter in Hin as [Hin Hdoc]. split.
    - by destruct (isQueryDefinition queryDef).
    - eapply decidingOn_subseteq; [by apply documentDirectives_definition|done]. }
  destruct Hq as [Hq HRq].
  assert (Hfrag : Forall (λ f, isFragmentDefinition f = true) fragments'
                  ∧ Forall2 (rewritesTo (default ∅ variables) (default ∅ R))
                            fragments' fragments').
  { unfold getFragmentDefinitions in Hfs.
    assert (Hall : Forall (λ f, isFragmentDefinition f = true)
                          (filter (λ d, isFragmentDefinition d) (definitions doc))).
    { apply Forall_forall. intros f [Hf _]%list_elem_of_filter.
      by destruct (isFragmentDefinition f). }
    assert (Hdec : Forall (λ f, decidingOn (default ∅ R)
                                  (flat_map allDirectives (selections (def_selectionSet f))))
                          (filter (λ d, isFragmentDefinition d) (definitions doc))).
    { apply Forall_forall. intros f [_ Hf]%list_elem_of_filter.
      eapply decidingOn_subseteq; [by apply documentDirectives_definition|done]. }
    induction Hfs as [|f f' l l' (ss' & Hss' & ->) _ IH]; [by split; constructor|].
    apply Forall_cons in Hall as [Hf Hall]. apply Forall_cons in Hdec as [Hdf Hdec].
    destruct (IH Hall Hdec) as [IH1 IH2].
    split; constructor; try done.
    - by rewrite isFragmentDefinition_set.
    - exists ss'. rewrite def_selectionSet_set, def_set_selectionSet_twice.
      split; [|done]. by eapply applyDirectivesToSelectionSet_idempotent. }
  destruct Hfrag as [Hfrag1 Hfrag2].
  apply applyDirectives_Return.
  exists (def_set_selectionSet queryDef qss), (def_set_selectionSet queryDef qss), fragments'.
  split_and!; [| |  |done].
  - unfold getQueryDefinition. simpl.
    rewrite filter_cons_True by (rewrite isQueryDefinition_set, Hq; exact I). done.
  - exists qss. rewrite def_selectionSet_set, def_set_selectionSet_twice.
    split; [|done]. by eapply applyDirectivesToSelectionSet_idempotent.
  - unfold getFragmentDefinitions. simpl.
    rewrite filter_cons_False
      by (rewrite isFragmentDefinition_set, (isQueryDefinition_not_fragment _ Hq);
          exact id).
    by rewrite filter_all.
Qed.

Lemma applyDirectives_idempotent_witness :
  applyDirectives rewritten (Some show) (Some skipAndInclude) = Return rewritten.
Proof.
  refine (applyDirectives_idempotent document (Some show) (Some skipAndInclude) rewritten
            _ eq_refl).
  apply allDeciding_decidingOn; [apply allDeciding_skipAndInclude|].
  simpl. by repeat constructor.
Defined.

End DirectivesTheory.

(** ** The caller's document is left alone *)

Module StoreTheory.
Import Store StoreNotions.
Local Open Scope nat_scope.

Lemma bound_gt (h : Heap) l o : h !! l = Some o → l < bound h.
Proof.
  intros Hl. unfold bound.
  assert (l ∈ elements (dom h)) as Hin%max_list_elem_of_le
    by (apply elem_of_elements, elem_of_dom; eauto).
  lia.
Qed.

Lemma bound_None (h : Heap) l : bound h ≤ l → h !! l = None.
Proof.
  intros Hl. destruct (h !! l) as [o|] eqn:Ho; [|done].
  apply bound_gt in Ho. lia.
Qed.

Lemma max_list_le (l : list nat) m : Forall (λ x, x ≤ m) l → max_list l ≤ m.
Proof. induction 1 as [|x l Hx _ IH]; simpl; lia. Qed.

Lemma bound_mono (h h' : Heap) :
  (∀ l, is_Some (h !! l) → is_Some (h' !! l)) → bound h ≤ bound h'.
Proof.
  intros Hsub. unfold bound. apply le_n_S, max_list_le, Forall_forall.
  intros l Hl. apply max_list_elem_of_le.
  apply elem_of_elements, elem_of_dom, Hsub.
  by apply elem_of_dom, elem_of_elements.
Qed.

Lemma bound_insert (h : Heap) l o : bound h ≤ bound (<[l := o]> h).
Proof.
  apply bound_mono. intros l' Hl'. rewrite lookup_insert.
  case_decide; [eauto | done].
Qed.

Section Frame.
Context (n : nat) (h0 : Heap).

Lemma bind_run {A B} (m : M A) (f : A → M B) h :
  (m ≫= f) h = match m h with
                | (Return a, h') => f a h'
                | (Throw e, h') => (Throw e, h')
                end.
Proof. reflexivity. Qed.

Lemma safe_ret {A} (a : A) (post : A → Prop) : post a → safe n h0 (mret a) post.
Proof. intros Hp h Hh. split; [done|]. by intros a' [= <-]. Qed.

Lemma safe_throw {A} e (post : A → Prop) : safe n h0 (throw e) post.
Proof. intros h Hh. split; [done|]. intros a [=]. Qed.

Lemma safe_bind {A B} (m : M A) (f : A → M B) (P : A → Prop) (Q : B → Prop) :
  safe n h0 m P → (∀ a, P a → safe n h0 (f a) Q) → safe n h0 (m ≫= f) Q.
Proof.
  intros Hm Hf h Hh. rewrite bind_run.
  destruct (Hm h Hh) as [Hinv Hpost].
  destruct (m h) as [[a|e] h'] eqn:Hmh; simpl in *.
  - apply (Hf a); [by apply Hpost | done].
  - split; [done|]. intros a [=].
Qed.

Lemma safe_weaken {A} (m : M A) (P Q : A → Prop) :
  safe n h0 m P → (∀ a, P a → Q a) → safe n h0 m Q.
Proof.
  intros Hm HPQ h Hh. destruct (Hm h Hh) as [Hinv Hpost].
  split; [done|]. intros a Ha. by apply HPQ, Hpost.
Qed.

Lemma safe_lift {A} (c : Completion A) : safe n h0 (lift c) (λ _, True).
Proof. intros h Hh. by split. Qed.

Lemma safe_get : safe n h0 get (λ _, True).
Proof. intros h Hh. by split. Qed.

Lemma safe_read l :
  safe n h0 (read l) (λ o, n ≤ l → Forall (λ r, n ≤ r) (refs o)).
Proof.
  intros h Hh. unfold read. destruct (h !! l) as [o|] eqn:Ho; simpl.
  - split; [done|]. intros o' [= <-] Hl. destruct Hh as (_ & Hc & _). by eapply Hc.
  - split; [done|]. intros o' [=].
Qed.

Lemma inv_insert h l o :
  n ≤ l → Forall (λ r, n ≤ r) (refs o) → inv n h0 h → inv n h0 (<[l := o]> h).
Proof.
  intros Hl Ho (Hb & Hc & Hn). split_and!.
  - intros l' Hl'. rewrite lookup_insert_ne by lia. by apply Hb.
  - intros l' o' Hl'. rewrite lookup_insert. case_decide.
    + by intros [= <-].
    + by apply Hc.
  - etrans; [exact Hn | apply bound_insert].
Qed.

Lemma safe_write l o :
  n ≤ l → Forall (λ r, n ≤ r) (refs o) → safe n h0 (write l o) (λ _, True).
Proof. intros Hl Ho h Hh. split; [by apply inv_insert | done]. Qed.

Lemma safe_alloc o :
  Forall (λ r, n ≤ r) (refs o) → safe n h0 (alloc o) (λ l, n ≤ l).
Proof.
  intros Ho h Hh. pose proof Hh as (_ & _ & Hn). unfold alloc. simpl. split.
  - by apply inv_insert.
  - by intros l [= <-].
Qed.

Lemma safe_mapM {A B} (f : A → M B) (P : A → Prop) (Q : B → Prop) l :
  Forall P l → (∀ x, P x → safe n h0 (f x) Q) → safe n h0 (mapM f l) (Forall Q).
Proof.
  intros Hl Hf. induction Hl as [|x l Hx _ IH]; simpl.
  - by apply safe_ret.
  - eapply safe_bind; [by apply Hf|]. intros y Hy.
    eapply safe_bind; [exact IH|]. intros k Hk.
    apply safe_ret. by constructor.
Qed.

Lemma safe_forEach {A S} (body : S → A → M S) (J : S → Prop) st l :
  J st → (∀ st x, J st → safe n h0 (body st x) J) → safe n h0 (forEach body st l) J.
Proof.
  intros Hst Hbody. revert st Hst. induction l as [|x l IH]; intros st Hst; simpl.
  - by apply safe_ret.
  - eapply safe_bind; [by apply Hbody|]. intros st' Hst'. by apply IH.
Qed.

Lemma safe_filterM {A} (test : A → M bool) (P : A → Prop) l :
  Forall P l → (∀ x, safe n h0 (test x) (λ _, True)) →
  safe n h0 (filterM test l) (Forall P).
Proof.
  intros Hl Htest. induction Hl as [|x l Hx _ IH]; simpl.
  - by apply safe_ret.
  - eapply safe_bind; [apply Htest|]. intros b _.
    eapply safe_bind; [exact IH|]. intros k Hk.
    apply safe_ret. destruct b; [by constructor | done].
Qed.

Lemma safe_allocSelectionSet ss : safe n h0 (allocSelectionSet ss) (λ l, n ≤ l).
Proof.
  apply (SelectionSet_tree_ind
           (λ s, safe n h0 (allocSelection s) (λ l, n ≤ l))
           (λ ss, safe n h0 (allocSelectionSet ss) (λ l, n ≤ l))); clear ss; simpl.
  - intros. by apply safe_alloc.
  - intros a nm args ds ss IH. eapply safe_bind; [exact IH|].
    intros l Hl. apply safe_alloc. simpl. by constructor.
  - intros. by apply safe_alloc.
  - intros t ds ss IH. eapply safe_bind; [exact IH|].
    intros l Hl. apply safe_alloc. simpl. by constructor.
  - by apply safe_alloc.
  - intros l Hl. eapply safe_bind.
    + apply (safe_mapM _ (λ s, safe n h0 (allocSelection s) (λ l, n ≤ l))
               (λ l, n ≤ l) _ Hl).
      by intros.
    + intros ls Hls. by apply safe_alloc.
Qed.

Lemma safe_allocSelection s : safe n h0 (allocSelection s) (λ l, n ≤ l).
Proof.
  destruct s as [a nm args ds [ss|]|nm ds|t ds ss|]; simpl.
  - eapply safe_bind; [apply safe_allocSelectionSet|].
    intros l Hl. apply safe_alloc. simpl. by constructor.
  - by apply safe_alloc.
  - by apply safe_alloc.
  - eapply safe_bind; [apply safe_allocSelectionSet|].
    intros l Hl. apply safe_alloc. simpl. by constructor.
  - by apply safe_alloc.
Qed.

Lemma safe_assign_selectionSet l ss :
  n ≤ l → n ≤ ss → safe n h0 (assign_selectionSet l ss) (λ _, True).
Proof.
  intros Hl Hss. unfold assign_selectionSet.
  eapply safe_bind; [apply safe_read|]. intros o Ho.
  destruct o; try (by apply safe_ret);
    apply safe_write; simpl; try done; by repeat constructor.
Qed.

Lemma safe_assign_selections selSet l :
  n ≤ selSet → Forall (λ r, n ≤ r) l →
  safe n h0 (assign_selections selSet l) (λ _, True).
Proof.
  intros Hs Hl. unfold assign_selections.
  eapply safe_bind; [apply safe_read|]. intros o Ho.
  destruct o; try (by apply safe_ret). by apply safe_write.
Qed.

Lemma safe_assign_definitions doc l :
  n ≤ doc → Forall (λ r, n ≤ r) l →
  safe n h0 (assign_definitions doc l) (λ _, True).
Proof.
  intros Hs Hl. unfold assign_definitions.
  eapply safe_bind; [apply safe_read|]. intros o Ho.
  destruct o; try (by apply safe_ret). by apply safe_write.
Qed.

Lemma safe_selectionSetOf def :
  n ≤ def → safe n h0 (selectionSetOf def) (λ ss, n ≤ ss).
Proof.
  intros Hd. unfold selectionSetOf.
  eapply safe_bind; [apply safe_read|]. intros o Ho. specialize (Ho Hd).
  destruct o; try apply safe_throw; apply safe_ret; simpl in Ho;
    by apply Forall_cons in Ho as [? _].
Qed.

Lemma safe_directivesOf o : safe n h0 (directivesOf o) (λ _, True).
Proof. destruct o; simpl; (by apply safe_ret) || apply safe_throw. Qed.

Lemma safe_forDirective variables (R : Resolvers) selection st directive :
  n ≤ selection → above n st →
  safe n h0 (forDirective variables R selection st directive) (above n).
Proof.
  intros Hsel [Hcurr Hnew]. unfold forDirective.
  destruct (dir_name directive) as [name|]; [|by apply safe_ret].
  case_bool_decide; [by apply safe_ret|].
  destruct (lookupResolver R name) as [r|]; [|apply safe_throw].
  eapply safe_bind; [apply safe_get|]. intros h _.
  eapply safe_bind; [apply safe_lift|]. intros res _.
  eapply (safe_bind _ _ (λ o, ∀ ns, o = Some ns → n ≤ ns)).
  { destruct res as [| |s].
    - apply safe_ret. by intros ns [= <-].
    - by apply safe_ret.
    - eapply safe_bind; [apply safe_allocSelection|].
      intros l Hl. apply safe_ret. by intros ns [= <-]. }
  intros new' Hnew'.
  destruct (_ || _).
  - destruct new' as [ns|]; [|destruct (toBeRemoved st)]; apply safe_ret;
      split; simpl; auto; try done.
  - apply safe_ret. by split.
Qed.

Lemma safe_applyDirectivesToSelection recurse variables (R : Resolvers) selection :
  (∀ ss, n ≤ ss → safe n h0 (recurse ss) (λ r, n ≤ r)) →
  n ≤ selection →
  safe n h0 (applyDirectivesToSelection recurse variables R selection)
       (λ r, ∀ l, r = Some l → n ≤ l).
Proof.
  intros Hrec Hsel. unfold applyDirectivesToSelection.
  eapply safe_bind; [apply safe_read|]. intros o _.
  eapply safe_bind; [apply safe_directivesOf|]. intros ds _.
  eapply safe_bind.
  { apply (safe_forEach _ (above n)); [|by intros; apply safe_forDirective].
    split; simpl; [done|]. by intros ns [= <-]. }
  intros st [Hcurr Hnew].
  destruct (newSelection st) as [ns|].
  - eapply safe_bind; [apply safe_read|]. intros w Hw. specialize (Hw Hsel).
    eapply (safe_bind _ _ (λ _, True)).
    + destruct w as [| | | |? ? ? ? [ss|]| |? ? ss|]; try (by apply safe_ret); simpl in Hw;
        apply Forall_cons in Hw as [Hss _];
        (eapply safe_bind; [by apply Hrec|]);
        intros ss' Hss'; by apply safe_assign_selectionSet.
    + intros _ _. apply safe_ret. intros l [= <-]. by apply Hnew.
  - case_bool_decide; simpl.
    + by apply safe_ret.
    + apply safe_ret. by intros l [= <-].
Qed.

Lemma safe_applyDirectivesToSelectionSet stack variables (R : Resolvers) selSet :
  n ≤ selSet →
  safe n h0 (applyDirectivesToSelectionSet stack variables R selSet) (λ r, n ≤ r).
Proof.
  revert selSet. induction stack as [|stack IH]; intros selSet Hs; simpl.
  - apply safe_throw.
  - eapply safe_bind; [apply safe_read|]. intros o Ho. specialize (Ho Hs).
    destruct o as [| | |selections| | | |]; try apply safe_throw. simpl in Ho.
    eapply safe_bind.
    + apply (safe_mapM _ _ (λ r, ∀ l, r = Some l → n ≤ l) _ Ho).
      intros selection Hsel. by apply safe_applyDirectivesToSelection.
    + intros mapped Hmapped.
      eapply safe_bind; [|intros _ _; by apply safe_ret].
      apply safe_assign_selections; [done|].
      induction Hmapped as [|[l|] mapped Hl _ IHm]; simpl; [done| |done].
      constructor; [by apply Hl | done].
Qed.

End Frame.

Global Instance add_inj n : Inj (=) (=) (λ l : nat, l + n).
Proof. intros x y. simpl. lia. Qed.

Lemma refs_relocate f o : refs (relocate f o) = f <$> refs o.
Proof. destruct o as [| | | |? ? ? ? [?|]| | |]; done. Qed.

(** The store [cloneDeep] leaves is in the invariant for the bound of the
    store it started from: nothing below it has changed, and the copies
    refer to copies. *)
Lemma cloneDeep_inv value h :
  inv (bound h) h (cloneDeep value h).2
  ∧ (cloneDeep value h).1 = Return (value + bound h).
Proof.
  split; [|done]. unfold cloneDeep. simpl. split_and!.
  - intros l Hl. destruct (h !! l) as [o|] eqn:Ho.
    + by apply lookup_union_Some_l.
    + apply lookup_union_None. split; [done|].
      apply (lookup_kmap_None (λ l, l + bound h)).
      intros i Hi. lia.
  - intros l o Hl Hlk. apply lookup_union_Some_raw in Hlk as [Hlk | [_ Hlk]].
    { apply bound_gt in Hlk. lia. }
    apply (lookup_kmap_Some (λ l, l + bound h)) in Hlk as (i & -> & Hi).
    rewrite lookup_fmap in Hi. destruct (h !! i) as [o'|]; [|done].
    injection Hi as <-. rewrite refs_relocate. apply Forall_fmap, Forall_forall.
    intros r _. simpl. lia.
  - apply bound_mono. intros l [o Ho]. exists o. by apply lookup_union_Some_l.
Qed.

(** What can be read back from a store can be read back from a store
    that has the same objects and more. *)
Lemma loadSelectionSet_mono depth (h h' : Heap) l ss :
  h ⊆ h' → loadSelectionSet depth h l = Some ss → loadSelectionSet depth h' l = Some ss.
Proof.
  intros Hsub. revert l ss. induction depth as [|depth IH]; intros l ss; simpl; [done|].
  destruct (h !! l) as [o|] eqn:Ho; [|done].
  rewrite (lookup_weaken _ _ _ _ Ho Hsub).
  destruct o; try done. intros H.
  apply fmap_Some in H as (k & Hk & ->). apply fmap_Some. exists k. split; [|done].
  apply mapM_Some in Hk. apply mapM_Some.
  eapply Forall2_impl; [exact Hk|]. intros s r. simpl.
  destruct (h !! s) as [o|] eqn:Hs; [|done].
  rewrite (lookup_weaken _ _ _ _ Hs Hsub).
  destruct o as [| | | |? ? ? ? [?|]| | |]; try done.
  - intros (ss' & Hss' & ->)%fmap_Some. by rewrite (IH _ _ Hss').
  - intros (ss' & Hss' & ->)%fmap_Some. by rewrite (IH _ _ Hss').
Qed.

Lemma loadDocument_mono depth (h h' : Heap) l doc :
  h ⊆ h' → loadDocument depth h l = Some doc → loadDocument depth h' l = Some doc.
Proof.
  intros Hsub. unfold loadDocument.
  destruct (h !! l) as [o|] eqn:Ho; [|done].
  rewrite (lookup_weaken _ _ _ _ Ho Hsub).
  destruct o; try done. intros H.
  apply fmap_Some in H as (k & Hk & ->). apply fmap_Some. exists k. split; [|done].
  apply mapM_Some in Hk. apply mapM_Some.
  eapply Forall2_impl; [exact Hk|]. intros s r. simpl.
  destruct (h !! s) as [o|] eqn:Hs; [|done].
  rewrite (lookup_weaken _ _ _ _ Hs Hsub).
  destruct o; try done.
  - intros (ss' & Hss' & ->)%fmap_Some.
    by rewrite (loadSelectionSet_mono _ _ _ _ _ Hsub Hss').
  - intros (ss' & Hss' & ->)%fmap_Some.
    by rewrite (loadSelectionSet_mono _ _ _ _ _ Hsub Hss').
Qed.

Lemma applyDirectives_below stack doc variables (R : option Resolvers) (h : Heap) :
  h ⊆ (applyDirectives stack doc variables R h).2.
Proof.
  set (n := bound h).
  unfold applyDirectives. cbv zeta.
  match goal with |- context [mbind ?f (cloneDeep doc)] => set (rest := f) end.
  rewrite bind_run.
  destruct (cloneDeep_inv doc h) as [Hinv Hret]. fold n in Hinv, Hret.
  destruct (cloneDeep doc h) as [c h1]. simpl in Hinv, Hret. subst c.
  assert (Hrest : safe n h (rest (doc + n)) (λ _, True)).
  { assert (Hdoc : n ≤ doc + n) by lia. revert Hdoc. generalize (doc + n). intros newDoc Hdoc.
    subst rest. cbn beta.
    eapply (safe_bind _ _ _ _ (Forall (λ r, n ≤ r))).
    { unfold getFragmentDefinitions.
      eapply safe_bind; [apply safe_read|]. intros d Hd. specialize (Hd Hdoc).
      destruct d; try apply safe_throw. simpl in Hd. cbn beta iota.
      apply safe_filterM; [done|]. intros l.
      eapply safe_bind; [apply safe_read|]. intros; by apply safe_ret. }
    intros fragmentDefs Hfs.
    eapply (safe_bind _ _ _ _ (λ r, n ≤ r)).
    { unfold getQueryDefinition.
      eapply safe_bind; [apply safe_read|]. intros d Hd. specialize (Hd Hdoc).
      destruct d; try apply safe_throw. simpl in Hd. cbn beta iota.
      eapply safe_bind.
      - apply (safe_filterM _ _ _ (λ r, n ≤ r)); [done|]. intros l.
        eapply safe_bind; [apply safe_read|]. intros; by apply safe_ret.
      - intros [|q qs] Hqs; [apply safe_throw|].
        apply safe_ret. by apply Forall_cons in Hqs as [? _]. }
    intros queryDef Hq.
    eapply safe_bind; [by apply safe_selectionSetOf|]. intros selSet Hss.
    eapply safe_bind; [by apply safe_applyDirectivesToSelectionSet|]. intros newSelSet Hnew.
    eapply safe_bind; [by apply safe_assign_selectionSet|]. intros _ _.
    eapply safe_bind.
    { apply (safe_mapM _ _ _ _ (λ r, n ≤ r) _ Hfs). intros fragmentDef Hf.
      eapply safe_bind; [by apply safe_selectionSetOf|]. intros fss Hfss.
      eapply safe_bind; [by apply safe_applyDirectivesToSelectionSet|]. intros fss' Hfss'.
      eapply safe_bind; [by apply safe_assign_selectionSet|]. intros _ _.
      by apply safe_ret. }
    intros definitions Hdefs.
    eapply safe_bind; [apply safe_assign_definitions; [done | by constructor]|].
    intros _ _. by apply safe_ret. }
  destruct (Hrest h1 Hinv) as [(Hbelow & _ & _) _].
  apply map_subseteq_spec. intros l o Hl. rewrite Hbelow; [done|].
  by eapply bound_gt.
Qed.

(** C6.  Whatever the completion of [applyDirectives], a return or a throw
    (an undefined variable, a missing resolver, an exhausted stack), every
    object that was in the store before the call is in it unchanged after
    the call, and the caller's document reads back as the same value:
    what is written to is the copy [cloneDeep] made, and what the
    resolvers made. *)
Theorem applyDirectives_frame stack doc variables (R : option Resolvers) (h : Heap) :
  h ⊆ (applyDirectives stack doc variables R h).2
  ∧ ∀ depth value,
      loadDocument depth h doc = Some value →
      loadDocument depth (applyDirectives stack doc variables R h).2 doc = Some value.
Proof.
  split; [apply applyDirectives_below|].
  intros depth value. apply loadDocument_mono, applyDirectives_below.
Qed.

(** The call at work on [Samples.document] in the store: with [$show]
    bound, it returns a new document that reads back as
    [Samples.rewritten]; with [$show] not bound, it throws.  Either way
    the stored document reads back as before. *)
Lemma applyDirectives_stored :
  (∃ newDoc h',
      applyDirectives 8 storedDocument (Some Samples.show) (Some conditionals) stored.2
      = (Return newDoc, h')
      ∧ newDoc ≠ storedDocument
      ∧ loadDocument 8 h' newDoc = Some Samples.rewritten
      ∧ loadDocument 8 h' storedDocument = Some Samples.document)
  ∧ (∃ h',
      applyDirectives 8 storedDocument None (Some conditionals) stored.2
      = (Throw (Error "Invalid variable referenced in @include directive."), h')
      ∧ loadDocument 8 h' storedDocument = Some Samples.document).
Proof.
  split.
  - eexists _, _. split; [vm_compute; reflexivity|].
    split_and!; [by vm_compute | vm_compute; reflexivity..].
  - eexists. split; vm_compute; reflexivity.
Qed.

(** The embedding on values and the embedding on objects give the same on
    the documents the properties above are shown on: both orders of
    [@skip(if: true)] and [@include(if: true)], both false, a directive
    without a resolver, an unbound variable, a resolver that returns
    another object, and directives under the inherited names [constructor]
    and [toString]. *)
Lemma embeddings_agree :
  agree Samples.document (Some Samples.show) Samples.skipAndInclude conditionals
  ∧ agree Samples.document None Samples.skipAndInclude conditionals
  ∧ agree (Samples.queryOf (Samples.outer [Samples.include_if true; Samples.skip_if true]))
          None Samples.skipAndInclude conditionals
  ∧ agree (Samples.queryOf (Samples.outer [Samples.skip_if true; Samples.include_if true]))
          None Samples.skipAndInclude conditionals
  ∧ agree (Samples.queryOf (Samples.outer [Samples.skip_if false; Samples.include_if false]))
          None Samples.skipAndInclude conditionals
  ∧ agree (Samples.queryOf (Samples.outer [Samples.skip_if true; Samples.include_if false]))
          None Samples.skipAndInclude conditionals
  ∧ agree (Samples.queryOf Samples.unknownDirective) None ∅ ∅
  ∧ agree (Samples.queryOf Samples.replaced) None
          (<[ "upper" := upper ]> Samples.skipAndInclude)
          (<[ "upper" := upperRef ]> conditionals)
  ∧ agree (Samples.queryOf Samples.constructorDirective) None ∅ ∅
  ∧ agree (Samples.queryOf Samples.toStringDirective) None
          Samples.skipAndInclude conditionals.
Proof. split_and!; vm_compute; split; reflexivity. Qed.

End StoreTheory.

(** ** The embedding on values describes the embedding on objects *)

Module Refinement.
Import Directives Store StoreNotions Representation StoreTheory.
Local Open Scope nat_scope.

Lemma rep_dom h :
  (∀ l s F, repSel h l s F → l ∈ F ∧ ∀ x, x ∈ F → is_Some (h !! x))
  ∧ (∀ l ss F, repSet h l ss F → l ∈ F ∧ ∀ x, x ∈ F → is_Some (h !! x))
  ∧ (∀ ls sels F, repSels h ls sels F → ∀ x, x ∈ F → is_Some (h !! x)).
Proof.
  apply rep_mutind.
  - intros l a n args ds Hl. split; [set_solver|].
    intros x ->%elem_of_singleton. eauto.
  - intros l a n args ds lss ss F Hl _ [_ IH] _. split; [set_solver|].
    intros x [->%elem_of_singleton|Hx]%elem_of_union; [eauto | by apply IH].
  - intros l n ds Hl. split; [set_solver|].
    intros x ->%elem_of_singleton. eauto.
  - intros l t ds lss ss F Hl _ [_ IH] _. split; [set_solver|].
    intros x [->%elem_of_singleton|Hx]%elem_of_union; [eauto | by apply IH].
  - intros l Hl. split; [set_solver|].
    intros x ->%elem_of_singleton. eauto.
  - intros l ls sels F Hl _ IH _. split; [set_solver|].
    intros x [->%elem_of_singleton|Hx]%elem_of_union; [eauto | by apply IH].
  - intros x Hx. set_solver.
  - intros l ls s sels F1 F2 _ [_ IH1] _ IH2 _ x [Hx|Hx]%elem_of_union;
      [by apply IH1 | by apply IH2].
Qed.

Lemma repSel_in h l s F : repSel h l s F → l ∈ F.
Proof. intros H. destruct (rep_dom h) as (H1 & _ & _). by apply H1 in H as [? _]. Qed.

Lemma repSel_dom h l s F x : repSel h l s F → x ∈ F → is_Some (h !! x).
Proof. intros H. destruct (rep_dom h) as (H1 & _ & _). apply H1 in H as [_ H]. apply H. Qed.

Lemma repSet_in h l ss F : repSet h l ss F → l ∈ F.
Proof. intros H. destruct (rep_dom h) as (_ & H2 & _). by apply H2 in H as [? _]. Qed.

Lemma repSet_dom h l ss F x : repSet h l ss F → x ∈ F → is_Some (h !! x).
Proof. intros H. destruct (rep_dom h) as (_ & H2 & _). apply H2 in H as [_ H]. apply H. Qed.

Lemma repSels_dom h ls sels F x : repSels h ls sels F → x ∈ F → is_Some (h !! x).
Proof. intros H. destruct (rep_dom h) as (_ & _ & H3). by apply (H3 ls sels). Qed.

(** A tree is in every store that has the same objects at its addresses. *)
Lemma rep_transport h h' :
  (∀ l s F, repSel h l s F → (∀ x, x ∈ F → h' !! x = h !! x) → repSel h' l s F)
  ∧ (∀ l ss F, repSet h l ss F → (∀ x, x ∈ F → h' !! x = h !! x) → repSet h' l ss F)
  ∧ (∀ ls sels F, repSels h ls sels F → (∀ x, x ∈ F → h' !! x = h !! x) →
       repSels h' ls sels F).
Proof.
  apply rep_mutind.
  - intros l a n args ds Hl Heq. apply rep_leaf. rewrite Heq; [done | set_solver].
  - intros l a n args ds lss ss F Hl _ IH Hnot Heq. apply (rep_field _ _ _ _ _ _ lss).
    + rewrite Heq; [done | set_solver].
    + apply IH. intros x Hx. apply Heq. set_solver.
    + done.
  - intros l n ds Hl Heq. apply rep_spread. rewrite Heq; [done | set_solver].
  - intros l t ds lss ss F Hl _ IH Hnot Heq. apply (rep_inline _ _ _ _ lss).
    + rewrite Heq; [done | set_solver].
    + apply IH. intros x Hx. apply Heq. set_solver.
    + done.
  - intros l Hl Heq. apply rep_not. rewrite Heq; [done | set_solver].
  - intros l ls sels F Hl _ IH Hnot Heq. apply (rep_set _ _ ls).
    + rewrite Heq; [done | set_solver].
    + apply IH. intros x Hx. apply Heq. set_solver.
    + done.
  - intros _. constructor.
  - intros l ls s sels F1 F2 _ IH1 _ IH2 Hdisj Heq. constructor; [apply IH1|apply IH2|done].
    + intros x Hx. apply Heq. set_solver.
    + intros x Hx. apply Heq. set_solver.
Qed.

Lemma frame_refl F h : frame F h h.
Proof. intros x o Ho. eauto. Qed.

Lemma frame_trans F F' h h1 h2 :
  frame F h h1 → frame F' h1 h2 → within F' F h → frame F h h2.
Proof.
  intros H1 H2 Hw x o Ho. destruct (H1 x o Ho) as [[o1 Ho1] Hsame].
  destruct (H2 x o1 Ho1) as [Hsome Hsame2]. split; [done|].
  intros Hx. specialize (Hsame Hx). rewrite Hsame in Ho1. injection Ho1 as <-.
  apply Hsame2. intros Hx'. destruct (Hw x Hx'); congruence.
Qed.

Lemma frame_mono F F' h h' : frame F h h' → F ⊆ F' → frame F' h h'.
Proof. intros H Hsub x o Ho. destruct (H x o Ho) as [? Hs]. split; [done|]. set_solver. Qed.

Lemma frame_None F h h' x : frame F h h' → h' !! x = None → h !! x = None.
Proof.
  intros H Hx. destruct (h !! x) as [o|] eqn:Ho; [|done].
  destruct (H x o Ho) as [[? ?] _]. congruence.
Qed.

Lemma frame_insert F h l o :
  l ∈ F ∨ h !! l = None → frame F h (<[l := o]> h).
Proof.
  intros Hl x o' Ho'. rewrite lookup_insert. case_decide as Heq.
  - subst. split; [eauto|]. intros Hx. destruct Hl; [done | congruence].
  - eauto.
Qed.

Lemma within_refl F h : within F F h.
Proof. intros x Hx. by left. Qed.

Lemma within_fresh F' F h : (∀ x, x ∈ F' → h !! x = None) → within F' F h.
Proof. intros H x Hx. right. by apply H. Qed.

Lemma bound_fresh (h : Heap) : h !! bound h = None.
Proof. by apply bound_None. Qed.

(** Transport along a frame: a tree away from what changed. *)
Lemma repSel_frame F h h' l s Fs :
  frame F h h' → repSel h l s Fs → Fs ## F → repSel h' l s Fs.
Proof.
  intros Hf Hrep Hdisj. destruct (rep_transport h h') as (Ht & _ & _).
  apply Ht; [exact Hrep|].
  intros x Hx. destruct (repSel_dom _ _ _ _ x Hrep Hx) as [o Ho].
  rewrite Ho. apply (Hf x o Ho). set_solver.
Qed.

Lemma repSet_frame F h h' l ss Fs :
  frame F h h' → repSet h l ss Fs → Fs ## F → repSet h' l ss Fs.
Proof.
  intros Hf Hrep Hdisj. destruct (rep_transport h h') as (_ & Ht & _).
  apply Ht; [exact Hrep|].
  intros x Hx. destruct (repSet_dom _ _ _ _ x Hrep Hx) as [o Ho].
  rewrite Ho. apply (Hf x o Ho). set_solver.
Qed.

Lemma repSels_frame F h h' ls sels Fs :
  frame F h h' → repSels h ls sels Fs → Fs ## F → repSels h' ls sels Fs.
Proof.
  intros Hf Hrep Hdisj. destruct (rep_transport h h') as (_ & _ & Ht).
  apply Ht; [exact Hrep|].
  intros x Hx. destruct (repSels_dom _ _ _ _ x Hrep Hx) as [o Ho].
  rewrite Ho. apply (Hf x o Ho). set_solver.
Qed.

(** *** Allocation *)

Lemma read_Some (h : Heap) l o : h !! l = Some o → read l h = (Return o, h).
Proof. intros H. unfold read. by rewrite H. Qed.

Lemma frame_alloc F (h : Heap) o : frame F h (<[bound h := o]> h).
Proof. apply frame_insert. right. apply bound_fresh. Qed.

Lemma frame_empty_sub h h' x o : frame ∅ h h' → h !! x = Some o → h' !! x = Some o.
Proof. intros H Ho. apply (H x o Ho). set_solver. Qed.

Lemma allocates_list l :
  Forall (allocates repSel allocSelection) l →
  ∀ h, ∃ ls h' F,
    mapM allocSelection l h = (Return ls, h') ∧ repSels h' ls l F
    ∧ (∀ x, x ∈ F → h !! x = None) ∧ frame ∅ h h'.
Proof.
  induction 1 as [|s l Hs _ IH]; intros h; simpl.
  - exists [], h, ∅. split_and!; [done|constructor|set_solver|apply frame_refl].
  - destruct (Hs h) as (l1 & h1 & F1 & Hrun1 & Hrep1 & Hfresh1 & Hframe1).
    destruct (IH h1) as (ls & h2 & F2 & Hrun2 & Hrep2 & Hfresh2 & Hframe2).
    exists (l1 :: ls), h2, (F1 ∪ F2).
    rewrite bind_run, Hrun1, bind_run, Hrun2.
    assert (Hdisj : F1 ## F2).
    { intros x Hx1 Hx2. apply Hfresh2 in Hx2.
      destruct (repSel_dom _ _ _ _ x Hrep1 Hx1). congruence. }
    split_and!; [done| | |].
    + constructor; [|done|done]. eapply repSel_frame; [exact Hframe2|done|set_solver].
    + intros x [Hx|Hx]%elem_of_union; [by apply Hfresh1|].
      eapply frame_None; [exact Hframe1 | by apply Hfresh2].
    + eapply frame_trans; [exact Hframe1|exact Hframe2|]. intros x Hx. set_solver.
Qed.

Lemma allocSelection_eq s :
  allocSelection s
  = match nested s with
    | Some ss => l ← allocSelectionSet ss; alloc (objOf s (Some l))
    | None => alloc (objOf s None)
    end.
Proof. by destruct s as [? ? ? ? [?|]| | |]. Qed.

Lemma rep_node h l s lss ss Fn :
  nested s = Some ss → h !! l = Some (objOf s (Some lss)) → repSet h lss ss Fn → l ∉ Fn →
  repSel h l s ({[l]} ∪ Fn).
Proof.
  destruct s as [a n args ds [ss0|]|n ds|t ds ss0|]; simpl; try done;
    intros [= ->] Hl Hss Hnot.
  - by apply (rep_field _ _ _ _ _ _ lss).
  - by apply (rep_inline _ _ _ _ lss).
Qed.

Lemma rep_single h l s :
  nested s = None → h !! l = Some (objOf s None) → repSel h l s {[l]}.
Proof.
  destruct s as [a n args ds [ss0|]|n ds|t ds ss0|]; simpl; try done; intros _ Hl;
    by constructor.
Qed.

Lemma allocates_selection_of s :
  (∀ ss, nested s = Some ss → allocates repSet allocSelectionSet ss) →
  allocates repSel allocSelection s.
Proof.
  intros Hnested h. rewrite allocSelection_eq.
  destruct (nested s) as [ss|] eqn:Hn.
  - destruct (Hnested ss eq_refl h) as (lss & h1 & F & Hrun & Hrep & Hfresh & Hframe).
    exists (bound h1), (<[bound h1 := objOf s (Some lss)]> h1), ({[bound h1]} ∪ F).
    assert (Hnot : bound h1 ∉ F).
    { intros Hx. destruct (repSet_dom _ _ _ _ _ Hrep Hx) as [o Ho].
      by rewrite bound_fresh in Ho. }
    split_and!.
    + by rewrite bind_run, Hrun.
    + apply (rep_node _ _ _ lss ss); [done|apply lookup_insert_eq| |done].
      eapply repSet_frame; [apply (frame_alloc ∅)|done|set_solver].
    + intros x [->%elem_of_singleton|Hx]%elem_of_union; [|by apply Hfresh].
      eapply frame_None; [exact Hframe | apply bound_fresh].
    + eapply frame_trans; [exact Hframe|apply (frame_alloc ∅)|]. intros x Hx. set_solver.
  - exists (bound h), (<[bound h := objOf s None]> h), {[bound h]}.
    split_and!; [done| | |apply frame_alloc].
    + apply rep_single; [done|apply lookup_insert_eq].
    + intros x ->%elem_of_singleton. apply bound_fresh.
Qed.

Lemma allocates_selectionSet ss : allocates repSet allocSelectionSet ss.
Proof.
  apply (SelectionSet_tree_ind (allocates repSel allocSelection)
           (allocates repSet allocSelectionSet)); clear ss.
  - intros. by apply allocates_selection_of.
  - intros a n args ds ss IH. apply allocates_selection_of. by intros ? [= <-].
  - intros. by apply allocates_selection_of.
  - intros t ds ss IH. apply allocates_selection_of. by intros ? [= <-].
  - by apply allocates_selection_of.
  - intros l Hl h.
    destruct (allocates_list l Hl h) as (ls & h1 & F & Hrun & Hrep & Hfresh & Hframe).
    exists (bound h1), (<[bound h1 := SelectionSetObj ls]> h1), ({[bound h1]} ∪ F).
    assert (Hnot : bound h1 ∉ F).
    { intros Hx. destruct (repSels_dom _ _ _ _ _ Hrep Hx) as [o Ho].
      by rewrite bound_fresh in Ho. }
    split_and!.
    + simpl. by rewrite bind_run, Hrun.
    + apply (rep_set _ _ ls); [apply lookup_insert_eq| |done].
      eapply repSels_frame; [apply (frame_alloc ∅)|done|set_solver].
    + intros x [->%elem_of_singleton|Hx]%elem_of_union; [|by apply Hfresh].
      eapply frame_None; [exact Hframe | apply bound_fresh].
    + eapply frame_trans; [exact Hframe|apply (frame_alloc ∅)|]. intros x Hx. set_solver.
Qed.

Lemma allocates_selection s : allocates repSel allocSelection s.
Proof. apply allocates_selection_of. intros. apply allocates_selectionSet. Qed.

Lemma refersTo_frame h0 h h2 l r r' :
  frame ∅ h h2 → refersTo h0 h l r r' → refersTo h0 h2 l r r'.
Proof.
  intros Hf. destruct r as [|o]; simpl; [done|].
  intros (Fo & Hrep & Hfresh). exists Fo. split; [|done].
  eapply repSel_frame; [exact Hf|done|set_solver].
Qed.

Lemma sameLocals_frame h0 h h2 l st st' :
  frame ∅ h h2 → sameLocals h0 h l st st' → sameLocals h0 h2 l st st'.
Proof.
  intros Hf (Hcurr & Htbr & Hnew). split_and!; [by eapply refersTo_frame|done|].
  destruct (Directives.newSelection st), (newSelection st'); try done.
  by eapply refersTo_frame.
Qed.

Lemma refersTo_rep h0 h l s F r r' :
  repSel h l s F → refersTo h0 h l r r' → ∃ F', repSel h r' (deref s r) F'.
Proof.
  intros Hrep. destruct r as [|o]; simpl.
  - intros ->. eauto.
  - intros (Fo & Ho & _). eauto.
Qed.

Lemma rep_inv h l s F :
  repSel h l s F →
  match nested s with
  | None => h !! l = Some (objOf s None) ∧ F = {[l]}
  | Some ss =>
      ∃ lss Fn, h !! l = Some (objOf s (Some lss)) ∧ repSet h lss ss Fn
                ∧ (l ∉ Fn) ∧ F = ({[l]} ∪ Fn)
  end.
Proof. destruct 1; simpl; eauto 10. Qed.

Lemma rep_build h l s lss ss' Fn :
  nested s ≠ None → h !! l = Some (objOf s (Some lss)) → repSet h lss ss' Fn → l ∉ Fn →
  repSel h l (set_selectionSet s ss') ({[l]} ∪ Fn).
Proof.
  destruct s as [a n args ds [ss|]|n ds|t ds ss|]; simpl; try done; intros _ Hl Hss Hnot.
  - by apply (rep_field _ _ _ _ _ _ lss).
  - by apply (rep_inline _ _ _ _ lss).
Qed.

Lemma directivesOf_objOf s x :
  isNode s → directivesOf (objOf s x) = mret (directives s).
Proof. by destruct s. Qed.

Lemma directivesOf_NotASelection :
  directivesOf NotASelectionObj
  = throw (TypeError "Cannot read properties of undefined (reading 'forEach')").
Proof. reflexivity. Qed.

Lemma nestedObj_objOf_Some s lss : nested s ≠ None → nestedObj (objOf s (Some lss)) = Some lss.
Proof. by destruct s as [? ? ? ? [?|]| | |]. Qed.

Lemma nestedObj_objOf_None s : nested s = None → nestedObj (objOf s None) = None.
Proof. by destruct s as [? ? ? ? [?|]| | |]. Qed.

Lemma assign_selectionSet_same (h : Heap) l s lss :
  nested s ≠ None → h !! l = Some (objOf s (Some lss)) →
  assign_selectionSet l lss h = (Return (), h).
Proof.
  intros Hn Hl. unfold assign_selectionSet. rewrite bind_run, (read_Some _ _ _ Hl).
  destruct s as [a n args ds [ss|]|n ds|t ds ss|]; simpl in *; try done;
    unfold write; by rewrite insert_id.
Qed.

Lemma descend_eq (recurse : nat → M nat) l w :
  match w with
  | InlineFragmentObj _ _ ss => ss' ← recurse ss; assign_selectionSet l ss'
  | FieldObj _ _ _ _ (Some ss) => ss' ← recurse ss; assign_selectionSet l ss'
  | _ => mret ()
  end
  = match nestedObj w with
    | Some ss => ss' ← recurse ss; assign_selectionSet l ss'
    | None => mret ()
    end.
Proof. by destruct w as [| | | |? ? ? ? [?|]| | |]. Qed.

(** Registries that are related resolve every name alike: what they
    inherit is the same function on both sides. *)
Lemma related_lookup (R : Directives.Resolvers) (R' : Resolvers) name :
  related R R' →
  match Directives.lookupResolver R name, lookupResolver R' name with
  | None, None => True
  | Some r, Some r' =>
      ∀ h l s F variables directive,
        repSel h l s F → r' h l variables directive = r s variables directive
  | _, _ => False
  end.
Proof.
  intros Hrel. pose proof (Hrel name) as Hname.
  unfold Directives.lookupResolver, lookupResolver.
  unfold Directives.DirectiveResolver, DirectiveResolver in *.
  destruct (R !! name) as [r|], (R' !! name) as [r'|]; try done.
  unfold inherited. by repeat case_bool_decide.
Qed.

Section Related.
Context (variables : Variables) (R : Directives.Resolvers) (R' : Resolvers).
Context (Hrel : related R R').

Lemma forDirective_refines h0 h l s F st st' directive :
  frame ∅ h0 h → repSel h l s F → sameLocals h0 h l st st' →
  ∃ c h2,
    Store.forDirective variables R' l st' directive h = (c, h2)
    ∧ frame ∅ h h2
    ∧ match Directives.forDirective variables R s st directive with
      | Return st1 => ∃ st1', c = Return st1' ∧ sameLocals h0 h2 l st1 st1'
      | Throw e => c = Throw e
      end.
Proof.
  intros Hf0 Hrep Hst. pose proof Hst as (Hcurr & Htbr & Hnew).
  unfold Store.forDirective, Directives.forDirective.
  destruct (dir_name directive) as [name|]; [|by eexists _, _; split_and!; eauto using frame_refl].
  case_bool_decide; [by eexists _, _; split_and!; eauto using frame_refl|].
  pose proof (related_lookup R R' name Hrel) as Hname.
  destruct (Directives.lookupResolver R name) as [r|], (lookupResolver R' name) as [r'|];
    try done; [|by eexists _, _; split_and!; eauto using frame_refl].
  destruct (refersTo_rep _ _ _ _ _ _ _ Hrep Hcurr) as (Fc & Hc).
  rewrite bind_run. cbn [get]. rewrite bind_run. cbn [lift].
  rewrite (Hname _ _ _ _ variables directive Hc).
  destruct (r (deref s (Directives.currSelection st)) variables directive) as [res|e];
    [|by eexists _, _; split_and!; eauto using frame_refl].
  simpl.
  destruct res as [| |o].
  - (* the resolver returned its argument *)
    rewrite bind_run. cbn [mret M_ret].
    destruct (bool_decide (name = "skip") || bool_decide (name = "include")).
    + eexists _, _. split_and!; [done|apply frame_refl|]. eexists. split; [done|].
      by split_and!.
    + eexists _, _. split_and!; [done|apply frame_refl|]. eexists. split; [done|].
      by split_and!.
  - (* it returned undefined *)
    rewrite bind_run. cbn [mret M_ret].
    destruct (bool_decide (name = "skip") || bool_decide (name = "include")).
    + rewrite <- Htbr. destruct (Directives.toBeRemoved st);
        (eexists _, _; split_and!; [done|apply frame_refl|]; eexists; split; [done|]);
        by split_and!.
    + eexists _, _. split_and!; [done|apply frame_refl|]. eexists. split; [done|].
      by split_and!.
  - (* it returned another object *)
    destruct (allocates_selection o h) as (lo & h2 & Fo & Hrun & Ho & Hfresh & Hframe).
    rewrite bind_run, bind_run, Hrun. cbn [mret M_ret].
    assert (Href : refersTo h0 h2 l (Other o) lo).
    { exists Fo. split; [done|]. intros x Hx. eapply frame_None; [exact Hf0|by apply Hfresh]. }
    destruct (bool_decide (name = "skip") || bool_decide (name = "include")).
    + eexists _, _. split_and!; [done|done|]. eexists. split; [done|].
      by split_and!.
    + eexists _, _. split_and!; [done|done|]. eexists. split; [done|].
      split_and!; [by eapply refersTo_frame|done|done].
Qed.

Lemma forEach_refines h0 l s F ds :
  ∀ h st st',
    frame ∅ h0 h → repSel h l s F → sameLocals h0 h l st st' →
    ∃ c h2,
      forEach (Store.forDirective variables R' l) st' ds h = (c, h2)
      ∧ frame ∅ h h2
      ∧ match forEach (Directives.forDirective variables R s) st ds with
        | Return st1 => ∃ st1', c = Return st1' ∧ sameLocals h0 h2 l st1 st1'
        | Throw e => c = Throw e
        end.
Proof.
  induction ds as [|d ds IH]; intros h st st' Hf0 Hrep Hst; simpl.
  - eexists _, _. split_and!; [done|apply frame_refl|eauto].
  - destruct (forDirective_refines h0 h l s F st st' d Hf0 Hrep Hst)
      as (c1 & h1 & Hrun1 & Hframe1 & Hres1).
    rewrite bind_run, Hrun1.
    destruct (Directives.forDirective variables R s st d) as [st1|e]; simpl.
    + destruct Hres1 as (st1' & -> & Hst1).
      assert (Hf1 : frame ∅ h0 h1).
      { eapply frame_trans; [exact Hf0|exact Hframe1|]. intros x Hx. set_solver. }
      assert (Hrep1 : repSel h1 l s F)
        by (eapply repSel_frame; [exact Hframe1|done|set_solver]).
      destruct (IH h1 st1 st1' Hf1 Hrep1 Hst1) as (c2 & h2 & Hrun2 & Hframe2 & Hres2).
      exists c2, h2. split_and!; [done| |done].
      eapply frame_trans; [exact Hframe1|exact Hframe2|]. intros x Hx. set_solver.
    + subst c1. eexists _, _. split_and!; [done|done|done].
Qed.

Lemma sameLocals_initially h l :
  sameLocals h h l initially
    {| newSelection := Some l; currSelection := l; toBeRemoved := None |}.
Proof. by split_and!. Qed.

Lemma applyDirectivesToSelection_refines k :
  setRefines variables R R' k →
  ∀ h l s F,
    repSel h l s F → depthSel s ≤ k →
    ∃ c h',
      Store.applyDirectivesToSelection
        (applyDirectivesToSelectionSet k variables R') variables R' l h = (c, h')
      ∧ frame F h h'
      ∧ match Directives.applyDirectivesToSelection variables R s with
        | Return None => c = Return None
        | Return (Some s') =>
            ∃ l' F', c = Return (Some l') ∧ repSel h' l' s' F' ∧ within F' F h
        | Throw e => c = Throw e
        end.
Proof.
  intros Hrec h l s F Hrep Hdepth.
  destruct (isNode s) eqn:Hnode; cycle 1.
  { destruct s; try done. inversion Hrep as [| | | |? Hl]; subst.
    unfold Store.applyDirectivesToSelection.
    rewrite bind_run, (read_Some _ _ _ Hl), bind_run. simpl.
    eexists _, _. split_and!; [done|apply frame_refl|done]. }
  apply Is_true_true in Hnode.
  rewrite DirectivesTheory.applyDirectivesToSelection_eq.
  rewrite DirectivesTheory.resolveDirectives_node by done.
  unfold Store.applyDirectivesToSelection.
  assert (Hobj : ∃ x, h !! l = Some (objOf s x)).
  { pose proof (rep_inv _ _ _ _ Hrep) as Hinv. destruct (nested s).
    - destruct Hinv as (lss & Fn & ? & _). eauto.
    - destruct Hinv as [? _]. eauto. }
  destruct Hobj as (x & Hl).
  rewrite bind_run, (read_Some _ _ _ Hl), bind_run, directivesOf_objOf by done.
  cbn [mret M_ret]. rewrite bind_run.
  destruct (forEach_refines h l s F (directives s) h initially _
              (frame_refl _ _) Hrep (sameLocals_initially h l))
    as (c1 & h1 & Hrun1 & Hframe1 & Hres1).
  rewrite Hrun1. clear Hrun1.
  assert (Hframe1F : frame F h h1) by (eapply frame_mono; [exact Hframe1|set_solver]).
  destruct (forEach _ initially (directives s)) as [st|e]; simpl;
    [|subst c1; by eexists _, _].
  destruct Hres1 as (st' & -> & Hcurr & Htbr & Hnew).
  assert (Hrep1 : repSel h1 l s F) by (eapply repSel_frame; [exact Hframe1|done|set_solver]).
  assert (Hl1 : h1 !! l = Some (objOf s x)) by (by eapply frame_empty_sub).
  destruct (Directives.newSelection st) as [r|], (newSelection st') as [r'|]; try done.
  - (* the last resolver returned a selection: lines 92-101 *)
    rewrite bind_run, (read_Some _ _ _ Hl1), bind_run, descend_eq.
    unfold Notions.rewriteNested.
    pose proof (rep_inv _ _ _ _ Hrep1) as Hinv.
    destruct (nested s) as [ss|] eqn:Hnested.
    + destruct Hinv as (lss & Fn & Hl1' & Hss & Hnot & ->).
      rewrite Hl1 in Hl1'. injection Hl1' as Hx. rewrite Hx in *.
      rewrite nestedObj_objOf_Some by congruence.
      assert (Hd : depthSet ss ≤ k).
      { destruct s as [? ? ? ? [[?]|]| |? ? [?]|]; simpl in *; try done;
          injection Hnested as <-; done. }
      destruct (Hrec h1 lss ss Fn Hss Hd) as (c2 & h2 & Hrun2 & Hframe2 & Hres2).
      rewrite bind_run, Hrun2.
      assert (HframeF : frame ({[l]} ∪ Fn) h h2).
      { eapply frame_trans; [exact Hframe1F|exact Hframe2|].
        intros y Hy. left. set_solver. }
      destruct (Directives.applyDirectivesToSelectionSet variables R ss) as [ss'|e]; simpl;
        [|subst c2; by eexists _, _].
      destruct Hres2 as (-> & Fn' & Hss' & Hwithin).
      assert (Hl2 : h2 !! l = Some (objOf s (Some lss))).
      { apply (Hframe2 l _ Hl1). done. }
      rewrite (assign_selectionSet_same h2 l s lss) by (done || congruence).
      cbn [mret M_ret].
      eexists _, _. split; [done|]. split; [done|].
      destruct r as [|o]; simpl in Hnew |- *.
      * subst r'. exists l, ({[l]} ∪ Fn'). split; [done|]. split.
        -- apply (rep_build _ _ _ lss); [congruence|done|done|].
           intros Hin. destruct (Hwithin l Hin) as [?|Hnone]; [done|congruence].
        -- intros y [->%elem_of_singleton|Hy]%elem_of_union; [left; set_solver|].
           destruct (Hwithin y Hy) as [?|Hnone]; [left; set_solver|].
           right. eapply (frame_None _ h h1); [exact Hframe1|done].
      * destruct Hnew as (Fo & Ho & Hfresh).
        exists r', Fo. split; [done|]. split; [|by apply within_fresh].
        eapply repSel_frame; [exact Hframe2|done|].
        intros y Hy1 Hy2. apply Hfresh in Hy1.
        destruct (repSet_dom _ _ _ _ y Hss Hy2) as [o' Ho'].
        assert (h1 !! y = None → False) by congruence.
        destruct (h !! y) as [o''|] eqn:Hhy; [done|].
        assert (Hin : y ∈ {[l]} ∪ Fn) by set_solver.
        destruct (repSel_dom _ _ _ _ y Hrep Hin). congruence.
    + destruct Hinv as [Hl1' ->].
      rewrite Hl1 in Hl1'. injection Hl1' as Hx. rewrite Hx.
      rewrite nestedObj_objOf_None by done. cbn [mret M_ret].
      eexists _, _. split; [done|]. split; [done|]. simpl.
      destruct r as [|o]; simpl in Hnew |- *.
      * subst r'. exists l, {[l]}. split; [done|]. split; [done|apply within_refl].
      * destruct Hnew as (Fo & Ho & Hfresh).
        exists r', Fo. split; [done|]. split; [done|by apply within_fresh].
  - (* the last resolver returned undefined: lines 102-104 *)
    rewrite <- Htbr.
    destruct (negb (bool_decide (Directives.toBeRemoved st = Some true)));
      cbn [mret M_ret]; (eexists _, _; split; [done|]; split; [done|]); [|done].
    destruct (Directives.currSelection st) as [|o]; simpl in Hcurr |- *.
    + rewrite Hcurr. exists l, F. split; [done|]. split; [done|apply within_refl].
    + destruct Hcurr as (Fo & Ho & Hfresh).
      eexists _, Fo. split; [done|]. split; [done|by apply within_fresh].
Qed.

Lemma mapM_refines k :
  setRefines variables R R' k →
  ∀ sels ls Fl h,
    repSels h ls sels Fl → Forall (λ s, depthSel s ≤ k) sels →
    ∃ c h',
      mapM (Store.applyDirectivesToSelection
              (applyDirectivesToSelectionSet k variables R') variables R') ls h = (c, h')
      ∧ frame Fl h h'
      ∧ match mapM (Directives.applyDirectivesToSelection variables R) sels with
        | Return mapped =>
            ∃ mapped' F', c = Return mapped'
              ∧ repSels h' (omap id mapped') (omap id mapped) F' ∧ within F' Fl h
        | Throw e => c = Throw e
        end.
Proof.
  intros Hrec. induction sels as [|s sels IH]; intros ls Fl h Hrep Hdepth.
  - inversion Hrep; subst. simpl. eexists _, _. split; [done|]. split; [apply frame_refl|].
    exists [], ∅. split; [done|]. split; [constructor|apply within_refl].
  - inversion Hrep as [|l ls' ? ? F1 F2 Hs Hsels Hdisj]; subst.
    apply Forall_cons in Hdepth as [Hd Hdepth].
    destruct (applyDirectivesToSelection_refines k Hrec h l s F1 Hs Hd)
      as (c1 & h1 & Hrun1 & Hframe1 & Hres1).
    cbn [mapM]. rewrite bind_run, Hrun1.
    assert (Hframe1' : frame (F1 ∪ F2) h h1) by (eapply frame_mono; [done|set_solver]).
    destruct (Directives.applyDirectivesToSelection variables R s) as [r|e]; simpl;
      [|subst c1; by eexists _, _].
    assert (Hc1 : ∃ r', c1 = Return r'
                  ∧ match r, r' with
                    | None, None => True
                    | Some s', Some l' => ∃ F', repSel h1 l' s' F' ∧ within F' F1 h
                    | _, _ => False
                    end).
    { destruct r as [s'|].
      - destruct Hres1 as (l' & F' & -> & ? & ?). exists (Some l'). eauto.
      - subst c1. by exists None. }
    destruct Hc1 as (r' & -> & Hr).
    assert (Hsels1 : repSels h1 ls' sels F2)
      by (eapply repSels_frame; [exact Hframe1|done|set_solver]).
    destruct (IH ls' F2 h1 Hsels1 Hdepth) as (c2 & h2 & Hrun2 & Hframe2 & Hres2).
    rewrite bind_run, Hrun2.
    assert (Hframe2' : frame (F1 ∪ F2) h h2).
    { eapply frame_trans; [exact Hframe1'|exact Hframe2|]. intros y Hy. left. set_solver. }
    destruct (mapM (Directives.applyDirectivesToSelection variables R) sels)
      as [mapped|e]; simpl; [|subst c2; by eexists _, _].
    destruct Hres2 as (mapped' & F2' & -> & Hmapped & Hwithin2).
    cbn [mret M_ret]. eexists _, _. split; [done|]. split; [done|].
    assert (Hw2 : within F2' (F1 ∪ F2) h).
    { intros y Hy. destruct (Hwithin2 y Hy) as [?|Hnone]; [left; set_solver|].
      right. by eapply (frame_None _ h h1). }
    destruct r as [s'|], r' as [l'|]; try done; simpl.
    + destruct Hr as (F1' & Hs' & Hwithin1).
      exists (Some l' :: mapped'), (F1' ∪ F2'). split; [done|]. split.
      * simpl. constructor; [|done|].
        -- eapply repSel_frame; [exact Hframe2|done|].
           intros y Hy1 Hy2. destruct (Hwithin1 y Hy1) as [?|Hnone]; [by apply (Hdisj y)|].
           destruct (repSels_dom _ _ _ _ y Hsels Hy2). congruence.
        -- intros y Hy1 Hy2. destruct (repSel_dom _ _ _ _ y Hs' Hy1) as [o Ho].
           destruct (Hwithin2 y Hy2) as [Hy2'|Hnone]; [|congruence].
           destruct (Hwithin1 y Hy1) as [?|Hnone]; [by apply (Hdisj y)|].
           destruct (repSels_dom _ _ _ _ y Hsels Hy2'). congruence.
      * intros y [Hy|Hy]%elem_of_union; [|by apply Hw2].
        destruct (Hwithin1 y Hy) as [?|?]; [left; by apply elem_of_union_l|by right].
    + exists (None :: mapped'), F2'. split; [done|]. split; [done|exact Hw2].
Qed.

Lemma depthSet_children sels k :
  depthSet (Build_SelectionSet sels) ≤ S k → Forall (λ s, depthSel s ≤ k) sels.
Proof.
  unfold depthSet. simpl. intros H. apply le_S_n in H.
  induction sels as [|s sels IH]; simpl in *; constructor; [lia|apply IH; lia].
Qed.

Lemma applyDirectivesToSelectionSet_refines k : setRefines variables R R' k.
Proof.
  induction k as [|k IH]; intros h l ss F Hrep Hdepth.
  { unfold depthSet in Hdepth. lia. }
  inversion Hrep as [? ls sels Fl Hl Hsels Hnot]; subst.
  apply depthSet_children in Hdepth.
  destruct (mapM_refines k IH sels ls Fl h Hsels Hdepth)
    as (c1 & h1 & Hrun1 & Hframe1 & Hres1).
  rewrite DirectivesTheory.applyDirectivesToSelectionSet_eq.
  cbn [applyDirectivesToSelectionSet].
  rewrite bind_run, (read_Some _ _ _ Hl), bind_run, Hrun1.
  assert (Hframe1' : frame ({[l]} ∪ Fl) h h1) by (eapply frame_mono; [done|set_solver]).
  destruct (mapM (Directives.applyDirectivesToSelection variables R) sels)
    as [mapped|e]; simpl; [|subst c1; by eexists _, _].
  destruct Hres1 as (mapped' & F' & -> & Hmapped & Hwithin).
  assert (Hl1 : h1 !! l = Some (SelectionSetObj ls)) by (by apply (Hframe1 l _ Hl)).
  rewrite bind_run. unfold assign_selections.
  rewrite bind_run, (read_Some _ _ _ Hl1). unfold write. cbn [mret M_ret].
  assert (Hnot' : l ∉ F').
  { intros Hin. destruct (Hwithin l Hin); [done|congruence]. }
  eexists _, _. split; [done|]. split.
  - eapply frame_trans; [exact Hframe1'| |apply within_refl].
    apply frame_insert. left. set_solver.
  - split; [done|]. exists ({[l]} ∪ F'). split.
    + apply (rep_set _ _ (omap id mapped')); [apply lookup_insert_eq| |done].
      eapply repSels_frame; [|exact Hmapped|].
      * apply (frame_insert {[l]}). left. set_solver.
      * set_solver.
    + intros y [->%elem_of_singleton|Hy]%elem_of_union; [left; set_solver|].
      destruct (Hwithin y Hy); [left; set_solver|by right].
Qed.

End Related.

Lemma related_conditionals : related Samples.skipAndInclude conditionals.
Proof.
  intros name. unfold Samples.skipAndInclude, conditionals.
  unfold Directives.DirectiveResolver, DirectiveResolver.
  rewrite !lookup_insert. case_decide; [done|].
  rewrite !lookup_singleton. case_decide; done.
Qed.

(** Every selection set can be put in a store as a tree, and on that tree
    (as on any other tree for it, [applyDirectivesToSelectionSet_refines])
    the embedding on objects, given stack enough for the depth of the
    selection set, completes as the embedding on values does on the
    selection set: with the same throw, or with the reference it was given,
    where a tree for the rewritten selection set then is.  The objects that
    are not of the tree are left as they were. *)
Theorem store_refines_values variables R R' (ss : SelectionSet) (h0 : Heap) :
  related R R' →
  ∃ l h F,
    allocSelectionSet ss h0 = (Return l, h) ∧ repSet h l ss F
    ∧ ∀ k, depthSet ss ≤ k →
        ∃ c h',
          applyDirectivesToSelectionSet k variables R' l h = (c, h')
          ∧ frame F h h'
          ∧ match Directives.applyDirectivesToSelectionSet variables R ss with
            | Return ss' => c = Return l ∧ ∃ F', repSet h' l ss' F' ∧ within F' F h
            | Throw e => c = Throw e
            end.
Proof.
  intros Hrel.
  destruct (allocates_selectionSet ss h0) as (l & h & F & Hrun & Hrep & _ & _).
  exists l, h, F. split_and!; [done|done|].
  intros k Hk. by apply (applyDirectivesToSelectionSet_refines variables R R' Hrel k).
Qed.

Lemma store_refines_values_witness :
  ∃ l h F,
    allocSelectionSet Samples.inner ∅ = (Return l, h) ∧ repSet h l Samples.inner F
    ∧ ∀ k, depthSet Samples.inner ≤ k →
        ∃ c h',
          applyDirectivesToSelectionSet k ∅ conditionals l h = (c, h')
          ∧ frame F h h'
          ∧ match Directives.applyDirectivesToSelectionSet ∅ Samples.skipAndInclude
                    Samples.inner
              with
            | Return ss' => c = Return l ∧ ∃ F', repSet h' l ss' F' ∧ within F' F h
            | Throw e => c = Throw e
            end.
Proof.
  exact (store_refines_values ∅ Samples.skipAndInclude conditionals Samples.inner ∅
           related_conditionals).
Defined.

End Refinement.

(** ** Properties of the scheduler *)

Module SchedulerTheory.
Import Scheduler.
Local Open Scope nat_scope.

Lemma invariant_initial : invariant initial.
Proof.
  split_and!; simpl.
  - constructor.
  - intros ? []%elem_of_nil.
  - intros ? [? H]. by rewrite lookup_empty in H.
  - intros ? []%elem_of_nil.
Qed.

Lemma invariant_fetchQuery queryId descriptor st :
  invariant st → queryId < nextQueryId st → queryId ∉ executing st →
  invariant (fetchQuery queryId descriptor st).
Proof.
  intros (Hnd & Hex & Htm & Hfl) Hlt Hnot. split_and!; simpl.
  - by constructor.
  - intros q [->|Hq]%elem_of_cons; [done | by apply Hex].
  - done.
  - intros q Hq. rewrite lookup_insert. case_decide; [left; eauto|].
    apply elem_of_cons in Hq as [->|Hq]; [done | by apply Hfl].
Qed.

Lemma elem_of_remove_one queryId x l :
  x ∈ remove_one queryId l → x ∈ l.
Proof.
  induction l as [|y l IH]; simpl; [done|].
  case_bool_decide; [by right|].
  intros [->|Hin]%elem_of_cons; [left | right; by apply IH].
Qed.

Lemma remove_one_NoDup queryId l :
  NoDup l → NoDup (remove_one queryId l) ∧ queryId ∉ remove_one queryId l.
Proof.
  induction 1 as [|x l Hx Hl [IH1 IH2]]; simpl.
  - split; [constructor | by intros ?%elem_of_nil].
  - case_bool_decide; subst; [done|]. split.
    + constructor; [|done]. by intros ?%elem_of_remove_one.
    + intros [->|?]%elem_of_cons; done.
Qed.

Lemma invariant_step eager st ev : invariant st → invariant (step eager st ev).
Proof.
  intros Hinv. pose proof Hinv as (Hnd & Hex & Htm & Hfl).
  destruct ev as [descriptor|queryId|queryId ok|queryId]; simpl.
  - unfold startPollingQuery. destruct (negb (hasInterval descriptor)); [done|].
    set (st' := {| nextQueryId := S (nextQueryId st) |}).
    assert (Hst' : invariant st').
    { split_and!; simpl; [done|..].
      - intros q Hq. specialize (Hex q Hq). lia.
      - intros q. rewrite lookup_insert. case_decide; [lia|].
        intros Hq. specialize (Htm q Hq). lia.
      - intros q Hq. rewrite lookup_insert_ne; [by apply Hfl|].
        specialize (Hex q Hq). lia. }
    destruct eager; [|done].
    apply invariant_fetchQuery; simpl; [done|lia|].
    intros Hq. specialize (Hex _ Hq). lia.
  - unfold tick. destruct (pollingTimers st !! queryId) as [d|] eqn:Ht; [|done].
    destruct (inFlightQueries st !! queryId) as [d'|] eqn:Hf; [done|].
    apply invariant_fetchQuery; [done|apply Htm; eauto|].
    intros Hq. destruct (Hfl _ Hq) as [[? ?]|?]; congruence.
  - case_bool_decide; [|done].
    destruct (remove_one_NoDup queryId _ Hnd) as [Hnd' Hnot].
    split_and!; simpl; [done|..].
    + intros q Hq%elem_of_remove_one. by apply Hex.
    + done.
    + intros q Hq. assert (q ≠ queryId) by (by intros ->).
      rewrite lookup_delete_ne by done. by apply Hfl, (elem_of_remove_one queryId).
  - split_and!; simpl; [done|done|..].
    + intros q [d Hq]. apply lookup_delete_Some in Hq as [_ Hq]. apply Htm. eauto.
    + intros q Hq. rewrite !lookup_delete. case_decide; [by right|by apply Hfl].
Qed.

Lemma invariant_run eager events : invariant (run eager events).
Proof.
  unfold run. induction events as [|ev events IH] using rev_ind; simpl.
  - apply invariant_initial.
  - rewrite foldl_app. simpl. by apply invariant_step.
Qed.

Lemma filter_eq_not_elem (queryId : nat) l :
  queryId ∉ l → filter (λ x, x = queryId) l = [].
Proof.
  induction l as [|x l IH]; [done|].
  intros [Hne Hl]%not_elem_of_cons.
  rewrite filter_cons_False by congruence. by apply IH.
Qed.

Lemma NoDup_count (queryId : nat) l :
  NoDup l → length (filter (λ x, x = queryId) l) ≤ 1.
Proof.
  induction 1 as [|x l Hx Hl IH]; simpl; [lia|].
  destruct (decide (x = queryId)) as [->|Hne].
  - rewrite filter_cons_True by done. simpl.
    rewrite filter_eq_not_elem by done. simpl. lia.
  - by rewrite filter_cons_False.
Qed.

(** C4.  In every state the scheduler can come to, by registrations,
    stops, ticks and completions in any order, no QueryId has more than
    one execution under way; and a tick of a QueryId that is in flight
    returns the state it found: no execution is started, none is queued,
    nothing is thrown. *)
Theorem one_execution_in_flight eager events queryId :
  inFlightCount queryId (run eager events) ≤ 1
  ∧ (is_Some (inFlightQueries (run eager events) !! queryId) →
     tick queryId (run eager events) = Return (run eager events)).
Proof.
  destruct (invariant_run eager events) as (Hnd & _). split.
  - by apply NoDup_count.
  - intros [d Hd]. unfold tick.
    destruct (pollingTimers _ !! queryId); [by rewrite Hd | done].
Qed.

(** The state the two in-flight tests look at: registered, and the timer
    has fired while the first execution has not returned. *)
Lemma one_execution_in_flight_witness :
  inFlightCount 0 (run true [Start polling; Tick 0; Tick 0]) ≤ 1
  ∧ tick 0 (run true [Start polling; Tick 0; Tick 0])
    = Return (run true [Start polling; Tick 0; Tick 0]).
Proof.
  destruct (one_execution_in_flight true [Start polling; Tick 0; Tick 0] 0) as [H1 H2].
  split; [exact H1|]. apply H2. by eexists.
Defined.

(** The assertions of the tests "should keep track of in flight queries"
    and "should not fire another query if one with the same id is in
    flight": one key in the map after registration, and after the timer
    has fired, and the descriptor under key 0. *)
Lemma in_flight_tests :
  size (inFlightQueries (run true [Start polling])) = 1
  ∧ size (inFlightQueries (run true [Start polling; Tick 0])) = 1
  ∧ inFlightQueries (run true [Start polling; Tick 0]) !! 0 = Some polling
  ∧ executing (run true [Start polling; Tick 0; Tick 0; Tick 0]) = [0].
Proof. split_and!; reflexivity. Qed.

(** C9.  A registration throws exactly when the descriptor has no poll
    interval or one that is not positive, and it throws at the
    registration: the scheduler is then as it was, with no timer to fire.
    A tick does not throw. *)
Theorem registration_fails_fast eager descriptor st :
  (throws (startPollingQuery eager descriptor st)
   ↔ ¬ ∃ interval, pollIntervalMillis descriptor = Some interval ∧ (0 < interval)%Z)
  ∧ (throws (registerPollingQuery eager descriptor st)
     ↔ ¬ ∃ interval, pollIntervalMillis descriptor = Some interval ∧ (0 < interval)%Z)
  ∧ (throws (startPollingQuery eager descriptor st) →
     startPollingQuery eager descriptor st = Throw (Error "cannot poll without an interval")
     ∧ step eager st (Start descriptor) = st)
  ∧ ∀ queryId, returns (tick queryId st).
Proof.
  assert (Hiff : throws (startPollingQuery eager descriptor st)
                 ↔ ¬ ∃ interval, pollIntervalMillis descriptor = Some interval
                                 ∧ (0 < interval)%Z).
  { unfold startPollingQuery, hasInterval, throws.
    destruct (pollIntervalMillis descriptor) as [interval|]; simpl.
    - case_bool_decide; simpl.
      + split; [by intros [? ?] | intros []; eauto].
      + split; [|eauto]. intros _ (i & [= <-] & ?). done.
    - split; [|eauto]. by intros _ (i & ? & _). }
  split_and!; [exact Hiff | exact Hiff | |].
  - intros [e He]. simpl. unfold startPollingQuery in *.
    by destruct (negb (hasInterval descriptor)).
  - intros queryId. unfold tick, returns.
    destruct (pollingTimers st !! queryId); [|eauto].
    destruct (inFlightQueries st !! queryId); eauto.
Qed.

(** The first test: registering options without [pollInterval] throws. *)
Lemma non_polling_query_throws :
  registerPollingQuery true nonPolling initial
  = Throw (Error "cannot poll without an interval").
Proof. reflexivity. Qed.

End SchedulerTheory.

(** ** Further properties of the rewriter *)

Module MoreTheory.
Import Directives Samples Notions MoreNotions DirectivesTheory.

(** *** Any number of [skip] and [include] directives *)

Lemma forDirective_says variables (R : Resolvers) selection st directive keep :
  says variables R directive keep → currSelection st = This →
  forDirective variables R selection st directive
  = Return (if keep
            then {| newSelection := Some This; currSelection := This;
                    toBeRemoved := Some false |}
            else {| newSelection := None; currSelection := This;
                    toBeRemoved := match toBeRemoved st with
                                   | None => Some true
                                   | Some b => Some b
                                   end |}).
Proof.
  intros (name & r & Hname & Hcond & Hr & Hsays) Hcurr. unfold forDirective.
  rewrite Hname. cbn beta iota.
  rewrite bool_decide_eq_false_2 by (by destruct Hcond as [-> | ->]).
  rewrite (lookupResolver_own _ _ _ Hr), Hsays. simpl.
  assert (bool_decide (name = "skip") || bool_decide (name = "include") = true) as ->.
  { by destruct Hcond as [-> | ->]. }
  rewrite Hcurr. by destruct keep, (toBeRemoved st).
Qed.

Lemma forEach_says variables (R : Resolvers) selection ds votes :
  Forall2 (says variables R) ds votes →
  forEach (forDirective variables R selection) initially ds
  = Return {| newSelection := match last votes with
                              | Some false => None
                              | _ => Some This
                              end;
              currSelection := This;
              toBeRemoved := match votes with
                             | [] => None
                             | _ => Some (forallb negb votes)
                             end |}.
Proof.
  revert ds.
  induction votes as [|keep votes IH] using rev_ind; intros ds Hds.
  - apply Forall2_nil_inv_r in Hds as ->. done.
  - apply Forall2_app_inv_r in Hds as (ds1 & ds2 & Hds1 & Hds2 & ->).
    apply Forall2_cons_inv_r in Hds2 as (d & ds3 & Hd & Hnil & ->).
    apply Forall2_nil_inv_r in Hnil as ->.
    rewrite forEach_app, (IH _ Hds1). simpl.
    rewrite (forDirective_says _ _ _ _ _ keep) by done. simpl.
    rewrite last_snoc, forallb_app. simpl.
    destruct votes as [|v votes]; destruct keep; simpl; try done.
    + by rewrite !andb_false_r.
    + by rewrite !andb_true_r.
Qed.

(** Any number of directives named [skip] or [include] on one selection,
    each saying keep or remove: the selection is removed when there is at
    least one and all say remove.  Otherwise it is kept: with its selection
    set rewritten when the last one says keep (or there is none), and as it
    was, its selection set not rewritten, when the last one says remove
    after an earlier one said keep.  (The callback first reads the
    directives, [directivesOf]; of a selection node that returns them,
    and of what is not a selection it throws.) *)
Theorem conditional_votes variables (R : Resolvers) selection votes :
  Forall2 (says variables R) (directives selection) votes →
  applyDirectivesToSelection variables R selection
  = _ ← directivesOf selection;
    match last votes with
    | Some false =>
        if forallb negb votes then Return None else Return (Some selection)
    | _ => Some <$> rewriteNested variables R selection
    end.
Proof.
  intros Hvotes. destruct (isNode selection) eqn:Hnode; [|by destruct selection].
  apply Is_true_true in Hnode.
  replace (directivesOf selection) with (Return (directives selection))
    by (by destruct selection).
  cbn [mbind Completion_bind].
  rewrite applyDirectivesToSelection_eq, resolveDirectives_node by done.
  rewrite (forEach_says _ _ _ _ _ Hvotes). simpl.
  destruct (last votes) as [[|]|] eqn:Hlast; simpl.
  - by destruct (rewriteNested variables R selection).
  - destruct votes as [|v votes]; [done|].
    by destruct (forallb negb (v :: votes)).
  - by destruct (rewriteNested variables R selection).
Qed.

Lemma says_skip_if variables (R : Resolvers) b :
  R !! "skip" = Some skipDirectiveResolver → says variables R (skip_if b) (negb b).
Proof.
  intros Hr. exists "skip", skipDirectiveResolver. split_and!; [done|by left|done|].
  intros selection. by destruct b.
Qed.

Lemma says_include_if variables (R : Resolvers) b :
  R !! "include" = Some includeDirectiveResolver → says variables R (include_if b) b.
Proof.
  intros Hr. exists "include", includeDirectiveResolver. split_and!; [done|by right|done|].
  intros selection. by destruct b.
Qed.

Lemma conditional_votes_witness :
  applyDirectivesToSelection ∅ skipAndInclude
    (Field None "a" [] [skip_if false; include_if false; skip_if true] (Some inner))
  = Return (Some (Field None "a" [] [skip_if false; include_if false; skip_if true]
                    (Some inner))).
Proof.
  refine (conditional_votes ∅ skipAndInclude
            (Field None "a" [] [skip_if false; include_if false; skip_if true] (Some inner))
            [true; false; false] _).
  repeat constructor.
  - exact (says_skip_if ∅ skipAndInclude false eq_refl).
  - exact (says_include_if ∅ skipAndInclude false eq_refl).
  - exact (says_skip_if ∅ skipAndInclude true eq_refl).
Defined.

(** *** Directives under other names *)

Lemma forDirective_other variables (R : Resolvers) selection st directive st' :
  isConditional directive = false →
  forDirective variables R selection st directive = Return st' →
  toBeRemoved st' = toBeRemoved st ∧ currSelection st' = currSelection st.
Proof.
  unfold isConditional, forDirective. intros Hname.
  destruct (dir_name directive) as [name|]; [|by intros [= <-]].
  destruct (bool_decide (name = "")); [by intros [= <-]|].
  destruct (lookupResolver R name) as [r|]; [|done].
  destruct (r _ variables directive) as [res|]; simpl; [|done].
  assert (bool_decide (name = "skip") || bool_decide (name = "include") = false) as ->.
  { apply orb_false_elim in Hname as [H1 H2].
    apply bool_decide_eq_false in H1, H2.
    apply orb_false_intro; apply bool_decide_eq_false; congruence. }
  by intros [= <-].
Qed.

Lemma forEach_other variables (R : Resolvers) selection ds :
  Forall (λ d, isConditional d = false) ds →
  ∀ st st',
    forEach (forDirective variables R selection) st ds = Return st' →
    toBeRemoved st' = toBeRemoved st ∧ currSelection st' = currSelection st.
Proof.
  induction 1 as [|d ds Hd _ IH]; intros st st'; simpl.
  - by intros [= <-].
  - intros H. apply bind_Return in H as (st1 & H1 & H).
    destruct (forDirective_other _ _ _ _ _ _ Hd H1) as [Ht Hc].
    destruct (IH _ _ H) as [Ht' Hc']. split; congruence.
Qed.

(** A selection whose directives are not named [skip] or [include] is
    never removed, whether their resolvers return a selection or
    [undefined]: when the last one returns [undefined], the callback
    returns the selection as it was, its selection set not rewritten. *)
Theorem other_names_never_remove variables (R : Resolvers) selection :
  Forall (λ d, isConditional d = false) (directives selection) →
  applyDirectivesToSelection variables R selection ≠ Return None
  ∧ ∀ st, resolveDirectives variables R selection = Return st →
          newSelection st = None →
          applyDirectivesToSelection variables R selection = Return (Some selection).
Proof.
  intros Hds.
  assert (Hst : ∀ st, resolveDirectives variables R selection = Return st →
                      toBeRemoved st = None ∧ currSelection st = This).
  { intros st [_ Hst]%resolveDirectives_Return.
    by apply (forEach_other variables R selection _ Hds initially). }
  split.
  - rewrite applyDirectivesToSelection_eq.
    destruct (resolveDirectives variables R selection) as [st|e]; simpl; [|done].
    destruct (Hst st eq_refl) as [Htbr Hcurr].
    destruct (newSelection st).
    + by destruct (rewriteNested variables R selection).
    + by rewrite Htbr.
  - intros st Hres Hnew. rewrite applyDirectivesToSelection_eq, Hres. simpl.
    destruct (Hst st Hres) as [Htbr Hcurr]. by rewrite Hnew, Htbr, Hcurr.
Qed.

Lemma other_names_never_remove_witness :
  applyDirectivesToSelection ∅ (<[ "omit" := λ _ _ _, Return ReturnsUndefined ]> ∅)
    (leaf "a" [ {| dir_name := Some "omit"; dir_arguments := [] |} ])
  ≠ Return None.
Proof.
  refine (proj1 (other_names_never_remove ∅ _ _ _)).
  by repeat constructor.
Defined.

(** *** What is removed is not looked into *)

(** With resolvers that only decide, whether a selection is removed is the
    matter of its directives: a selection that is removed is removed
    whatever is below it, also when rewriting what is below it would
    throw. *)
Theorem removed_not_descended variables (R : Resolvers) selection selection' :
  allDeciding R →
  directives selection = directives selection' →
  applyDirectivesToSelection variables R selection = Return None →
  applyDirectivesToSelection variables R selection' = Return None.
Proof.
  intros HR Hds H. rewrite applyDirectivesToSelection_eq in H.
  apply bind_Return in H as (st & Hst & H).
  destruct (newSelection st) as [ns|] eqn:Hnew.
  { by apply bind_Return in H as (? & _ & [=]). }
  destruct (bool_decide (toBeRemoved st = Some true)) eqn:Htbr; simpl in H; [|done].
  apply resolveDirectives_Return in Hst as [Hnode Hst].
  assert (Hnode' : isNode selection').
  { destruct selection'; try done. simpl in Hds. rewrite Hds in Hst.
    injection Hst as <-. done. }
  rewrite applyDirectivesToSelection_eq, resolveDirectives_node by done.
  rewrite <- Hds, <- (forEach_ext _ _ selection selection') by done.
  rewrite Hst. simpl. by rewrite Hnew, Htbr.
Qed.

Lemma removed_not_descended_witness :
  applyDirectivesToSelection ∅ skipAndInclude
    (Field None "a" [] [skip_if true] (Some unknownDirective))
  = Return None
  ∧ throws (applyDirectivesToSelectionSet ∅ skipAndInclude unknownDirective).
Proof.
  split.
  - exact (removed_not_descended ∅ skipAndInclude (leaf "a" [skip_if true])
             (Field None "a" [] [skip_if true] (Some unknownDirective))
             allDeciding_skipAndInclude eq_refl eq_refl).
  - by eexists.
Defined.

(** *** Documents without directives *)

Lemma forEach_unnamed variables (R : Resolvers) selection ds st :
  Forall unnamed ds → forEach (forDirective variables R selection) st ds = Return st.
Proof.
  induction 1 as [|d ds Hd _ IH]; simpl; [done|].
  assert (forDirective variables R selection st d = Return st) as ->; [|exact IH].
  unfold forDirective. by destruct Hd as [-> | ->].
Qed.

(** A selection set in which no directive has a name (none at all, for
    one) comes back as it is, under every registry and all variables.
    (That is of a selection set of selection nodes; with something in it
    that is not a selection, reading its directives throws.) *)
Theorem without_directives_unchanged variables (R : Resolvers) selSet :
  Forall unnamed (setDirectives selSet) →
  applyDirectivesToSelectionSet variables R selSet
  = if typedSet selSet then Return selSet
    else Throw (TypeError "Cannot read properties of undefined (reading 'forEach')").
Proof.
  set (notIterable := TypeError "Cannot read properties of undefined (reading 'forEach')").
  apply (SelectionSet_tree_ind
           (λ s, Forall unnamed (allDirectives s) →
                 applyDirectivesToSelection variables R s
                 = if typed s then Return (Some s) else Throw notIterable)
           (λ ss, Forall unnamed (setDirectives ss) →
                  applyDirectivesToSelectionSet variables R ss
                  = if typedSet ss then Return ss else Throw notIterable)).
  - intros a n args ds Hds. simpl in Hds. rewrite app_nil_r in Hds.
    rewrite applyDirectivesToSelection_eq, resolveDirectives_node by done.
    by rewrite forEach_unnamed.
  - intros a n args ds [l] IH Hds. simpl in Hds. apply Forall_app in Hds as [Hds Hl].
    rewrite applyDirectivesToSelection_eq, resolveDirectives_node by done.
    rewrite forEach_unnamed by done. simpl. unfold rewriteNested. simpl nested.
    cbv beta iota. rewrite (IH Hl). unfold typedSet. simpl.
    by destruct (forallb typed l).
  - intros n ds Hds. simpl in Hds. rewrite app_nil_r in Hds.
    rewrite applyDirectivesToSelection_eq, resolveDirectives_node by done.
    by rewrite forEach_unnamed.
  - intros t ds [l] IH Hds. simpl in Hds. apply Forall_app in Hds as [Hds Hl].
    rewrite applyDirectivesToSelection_eq, resolveDirectives_node by done.
    rewrite forEach_unnamed by done. simpl. unfold rewriteNested. simpl nested.
    cbv beta iota. rewrite (IH Hl). unfold typedSet. simpl.
    by destruct (forallb typed l).
  - done.
  - intros l Hl Hds. unfold setDirectives in Hds. simpl in Hds.
    rewrite applyDirectivesToSelectionSet_eq. unfold typedSet. simpl.
    assert (mapM (applyDirectivesToSelection variables R) l
            = if forallb typed l then Return (Some <$> l) else Throw notIterable) as ->.
    { induction Hl as [|s l Hs _ IH]; simpl; [done|].
      simpl in Hds. apply Forall_app in Hds as [Hs' Hl'].
      rewrite (Hs Hs'). destruct (typed s); simpl; [|done].
      rewrite (IH Hl'). by destruct (forallb typed l). }
    destruct (forallb typed l); simpl; [|done]. by rewrite omap_id_Some.
Qed.

Lemma without_directives_unchanged_witness :
  applyDirectivesToSelectionSet show ∅
    (Build_SelectionSet [Field None "a" [] [] (Some (Build_SelectionSet [leaf "c" []]))])
  = Return (Build_SelectionSet
              [Field None "a" [] [] (Some (Build_SelectionSet [leaf "c" []]))]).
Proof.
  refine (without_directives_unchanged show ∅ _ _). constructor.
Defined.

(** *** The rewrite only takes selections out *)

Lemma prunedSel_of variables (R : Resolvers) selection :
  decidingOn R (directives selection) →
  (∀ ss out, nested selection = Some ss →
             applyDirectivesToSelectionSet variables R ss = Return out → prunedSet out ss) →
  ∀ s', applyDirectivesToSelection variables R selection = Return (Some s') →
        prunedSel s' selection.
Proof.
  intros HR Hnested s' H.
  apply applyDirectivesToSelection_deciding in H
    as (st & _ & [(_ & _ & [=]) | [(_ & _ & [= <-]) | (_ & s1 & Hs1 & [= <-])]]);
    [apply pruned_same| |done].
  apply rewriteNested_Return in Hs1 as [[_ ->] | (ss0 & ss1 & Hn & Hss & ->)];
    [apply pruned_same|].
  apply (pruned_below _ ss0); eauto.
Qed.

(** When the directives of a selection set are resolved with resolvers
    that only decide, the rewritten selection set is the input with
    selections taken out, at any depth: no selection is added, moved or
    altered, and no directive or argument is touched. *)
Theorem rewrite_prunes variables (R : Resolvers) selSet out :
  decidingOn R (setDirectives selSet) →
  applyDirectivesToSelectionSet variables R selSet = Return out →
  prunedSet out selSet.
Proof.
  intros HR. revert out. revert HR.
  apply (SelectionSet_tree_ind
           (λ s, decidingOn R (allDirectives s) →
                 ∀ s', applyDirectivesToSelection variables R s = Return (Some s') →
                       prunedSel s' s)
           (λ ss, decidingOn R (setDirectives ss) →
                  ∀ out, applyDirectivesToSelectionSet variables R ss = Return out →
                         prunedSet out ss)).
  - intros a n args ds HR. rewrite allDirectives_eq in HR.
    apply decidingOn_app in HR as [HR _]. by eapply prunedSel_of.
  - intros a n args ds ss IH HR. rewrite allDirectives_eq in HR.
    apply decidingOn_app in HR as [HR HRn].
    apply prunedSel_of; [done|]. intros ? ? [= <-]. by apply IH.
  - intros n ds HR. rewrite allDirectives_eq in HR.
    apply decidingOn_app in HR as [HR _]. by eapply prunedSel_of.
  - intros t ds ss IH HR. rewrite allDirectives_eq in HR.
    apply decidingOn_app in HR as [HR HRn].
    apply prunedSel_of; [done|]. intros ? ? [= <-]. by apply IH.
  - intros _ s' H. by apply applyDirectivesToSelection_isNode in H.
  - intros l Hl HR out H. unfold setDirectives in HR. simpl in HR.
    apply applyDirectivesToSelectionSet_Return in H as (mapped & H & ->).
    constructor.
    induction H as [|s r l mapped Hr _ IH]; simpl; [constructor|].
    apply Forall_cons in Hl as [Hs Hl].
    simpl in HR. apply decidingOn_app in HR as [HRs HR].
    destruct r as [s'|]; simpl.
    + apply pruned_keep; [by apply Hs | by apply IH].
    + apply pruned_drop. by apply IH.
Qed.

Lemma rewrite_prunes_witness :
  prunedSet (Build_SelectionSet
               [Field None "a" [] [skip_if false]
                  (Some (Build_SelectionSet [leaf "c" []]))])
            (outer [skip_if false]).
Proof.
  refine (rewrite_prunes ∅ skipAndInclude (outer [skip_if false]) _ _ eq_refl).
  apply allDeciding_decidingOn; [apply allDeciding_skipAndInclude|].
  by repeat constructor.
Defined.

(** *** The two resolvers *)

(** On every directive, [skipDirectiveResolver] and
    [includeDirectiveResolver] throw together, and when they return, one
    returns the selection exactly when the other returns [undefined]. *)
Theorem skip_include_opposite {Sel} (selection : Sel) variables directive :
  match skipIncludeDirectiveResolver "skip" selection variables directive,
        skipIncludeDirectiveResolver "include" selection variables directive with
  | Return ReturnsArgument, Return ReturnsUndefined => True
  | Return ReturnsUndefined, Return ReturnsArgument => True
  | Throw _, Throw _ => True
  | _, _ => False
  end.
Proof.
  unfold skipIncludeDirectiveResolver.
  destruct (dir_arguments directive) as [|a [|? ?]]; simpl; [done| |done].
  destruct (bool_decide (arg_name a = Some "if")); simpl; [|done].
  destruct (arg_value a) as [name| | | |b| | |]; simpl; try done.
  - destruct (getValue variables name) as [| |[]|z|str|]; simpl; try done;
      by repeat case_match.
  - by destruct b.
Qed.

(** *** The variables that matter *)

Lemma skipIncludeDirectiveResolver_agree {Sel} directiveName (selection : Sel)
    variables variables' directive :
  (∀ name, conditionVariable directive = Some name →
           variables !! name = variables' !! name) →
  skipIncludeDirectiveResolver directiveName selection variables directive
  = skipIncludeDirectiveResolver directiveName selection variables' directive.
Proof.
  unfold conditionVariable, skipIncludeDirectiveResolver. intros H.
  destruct (dir_arguments directive) as [|a [|? ?]]; simpl; [done| |done].
  destruct (bool_decide (arg_name a = Some "if")); simpl; [|done].
  destruct (arg_value a) as [name| | | |b| | |]; simpl; try done.
  unfold getValue. by rewrite (H name eq_refl).
Qed.

Lemma forEach_agree variables variables' (R : Resolvers) selection ds :
  builtin R → agreeOn ds variables variables' →
  ∀ st, forEach (forDirective variables R selection) st ds
        = forEach (forDirective variables' R selection) st ds.
Proof.
  intros HR. induction ds as [|d ds IH]; intros Hagree st; simpl; [done|].
  assert (forDirective variables R selection st d
          = forDirective variables' R selection st d) as ->.
  { unfold forDirective. destruct (dir_name d) as [name|]; [|done].
    destruct (bool_decide (name = "")); [done|].
    destruct (lookupResolver R name) as [r|] eqn:Hr; [|done].
    assert (r (deref selection (currSelection st)) variables d
            = r (deref selection (currSelection st)) variables' d) as ->; [|done].
    apply lookupResolver_Some in Hr as [Hr | [_ Hr]].
    - destruct (HR _ _ Hr) as [-> | ->];
        apply skipIncludeDirectiveResolver_agree; intros n Hn;
        apply (Hagree d n); [left|done|left|done].
    - unfold inherited in Hr. by repeat case_bool_decide; simplify_eq. }
  destruct (forDirective variables' R selection st d); simpl; [|done].
  apply IH. intros d' n Hd'. apply Hagree. by right.
Qed.

(** Under a registry of the resolvers of [directives.ts], the rewrite of a
    selection set, its result or its throw, is the same for two variables
    objects that bind alike the variables the conditions of its directives
    refer to: what else the objects bind is of no account. *)
Theorem variables_that_matter variables variables' (R : Resolvers) selSet :
  builtin R →
  agreeOn (setDirectives selSet) variables variables' →
  applyDirectivesToSelectionSet variables R selSet
  = applyDirectivesToSelectionSet variables' R selSet.
Proof.
  intros HR.
  apply (SelectionSet_tree_ind
           (λ s, agreeOn (allDirectives s) variables variables' →
                 applyDirectivesToSelection variables R s
                 = applyDirectivesToSelection variables' R s)
           (λ ss, agreeOn (setDirectives ss) variables variables' →
                  applyDirectivesToSelectionSet variables R ss
                  = applyDirectivesToSelectionSet variables' R ss)).
  - intros a n args ds Hagree. rewrite !applyDirectivesToSelection_eq, !resolveDirectives_node by done.
    rewrite (forEach_agree variables variables'); [done|done|].
    intros d nm Hd. apply Hagree. simpl. rewrite app_nil_r. exact Hd.
  - intros a n args ds [l] IH Hagree. rewrite !applyDirectivesToSelection_eq, !resolveDirectives_node by done.
    rewrite (forEach_agree variables variables'); [|done|].
    + unfold rewriteNested. simpl nested. cbv beta iota. rewrite IH; [done|].
      intros d nm Hd. apply Hagree. simpl. apply elem_of_app. by right.
    + intros d nm Hd. apply Hagree. simpl. apply elem_of_app. by left.
  - intros n ds Hagree. rewrite !applyDirectivesToSelection_eq, !resolveDirectives_node by done.
    rewrite (forEach_agree variables variables'); [done|done|].
    intros d nm Hd. apply Hagree. simpl. rewrite app_nil_r. exact Hd.
  - intros t ds [l] IH Hagree. rewrite !applyDirectivesToSelection_eq, !resolveDirectives_node by done.
    rewrite (forEach_agree variables variables'); [|done|].
    + unfold rewriteNested. simpl nested. cbv beta iota. rewrite IH; [done|].
      intros d nm Hd. apply Hagree. simpl. apply elem_of_app. by right.
    + intros d nm Hd. apply Hagree. simpl. apply elem_of_app. by left.
  - done.
  - intros l Hl Hagree. rewrite !applyDirectivesToSelectionSet_eq.
    assert (mapM (applyDirectivesToSelection variables R) l
            = mapM (applyDirectivesToSelection variables' R) l) as ->; [|done].
    unfold setDirectives in Hagree. simpl in Hagree.
    induction Hl as [|s l Hs _ IH]; simpl; [done|].
    rewrite Hs, IH; [done| |].
    + intros d nm Hd. apply Hagree. simpl. apply elem_of_app. by right.
    + intros d nm Hd. apply Hagree. simpl. apply elem_of_app. by left.
Qed.

Lemma builtin_skipAndInclude : builtin skipAndInclude.
Proof.
  intros name r. unfold skipAndInclude, DirectiveResolver.
  rewrite lookup_insert. case_decide; [intros [= <-]; by left|].
  rewrite lookup_singleton. case_decide; [intros [= <-]; by right|done].
Qed.

Lemma agreeOn_Forall ds (variables variables' : Variables) :
  Forall (λ d, match conditionVariable d with
               | Some name => variables !! name = variables' !! name
               | None => True
               end) ds →
  agreeOn ds variables variables'.
Proof.
  intros H d name Hd Hname. eapply Forall_forall in H; [|exact Hd].
  by rewrite Hname in H.
Qed.

Lemma variables_that_matter_witness :
  applyDirectivesToSelectionSet show skipAndInclude
    (outer [conditional "include" (Variable_ "show")])
  = applyDirectivesToSelectionSet (<[ "other" := JsNull ]> show) skipAndInclude
      (outer [conditional "include" (Variable_ "show")]).
Proof.
  refine (variables_that_matter show (<[ "other" := JsNull ]> show) skipAndInclude
            (outer [conditional "include" (Variable_ "show")])
            builtin_skipAndInclude (agreeOn_Forall _ _ _ _)).
  repeat constructor.
Defined.

(** *** A larger registry *)

Lemma forEach_registry variables (R R' : Resolvers) selection ds :
  extends R R' →
  ∀ st st',
    forEach (forDirective variables R selection) st ds = Return st' →
    forEach (forDirective variables R' selection) st ds = Return st'.
Proof.
  intros Hext. induction ds as [|d ds IH]; intros st st'; simpl; [done|].
  intros H. apply bind_Return in H as (st1 & H1 & H).
  assert (forDirective variables R' selection st d = Return st1) as ->.
  { revert H1. unfold forDirective. destruct (dir_name d) as [name|]; [|done].
    destruct (bool_decide (name = "")); [done|].
    destruct (lookupResolver R name) as [r|] eqn:Hr; [|done].
    by rewrite (Hext _ _ Hr). }
  simpl. by apply IH.
Qed.

Lemma resolveDirectives_registry variables (R R' : Resolvers) selection st :
  extends R R' →
  resolveDirectives variables R selection = Return st →
  resolveDirectives variables R' selection = Return st.
Proof.
  intros Hext [Hnode H]%resolveDirectives_Return.
  rewrite resolveDirectives_node by done. by eapply forEach_registry.
Qed.

Lemma applyDirectivesToSelection_registry variables (R R' : Resolvers) selection :
  extends R R' →
  (∀ ss out, nested selection = Some ss →
             applyDirectivesToSelectionSet variables R ss = Return out →
             applyDirectivesToSelectionSet variables R' ss = Return out) →
  ∀ r, applyDirectivesToSelection variables R selection = Return r →
       applyDirectivesToSelection variables R' selection = Return r.
Proof.
  intros Hext Hnested r. rewrite !applyDirectivesToSelection_eq. intros H.
  apply bind_Return in H as (st & Hst & H).
  rewrite (resolveDirectives_registry _ _ _ _ _ Hext Hst). simpl.
  destruct (newSelection st); [|done].
  apply bind_Return in H as (w & Hw & H). unfold rewriteNested in *.
  destruct (nested selection) as [ss|]; [|by rewrite Hw].
  apply bind_Return in Hw as (ss' & Hss' & [= <-]).
  by rewrite (Hnested _ _ eq_refl Hss').
Qed.

(** A registry with the same resolvers as another and more, none of them
    under a name of [Object.prototype] that the other leaves to it. *)
Lemma extends_subseteq (R R' : Resolvers) :
  R ⊆ R' →
  (∀ name, R !! name = None → is_Some (R' !! name) →
           inherited (Sel:=Selection) name = None) →
  extends R R'.
Proof.
  intros Hsub Hnew name r [Hown | [Hnone Hin]]%lookupResolver_Some.
  - apply lookupResolver_own. by eapply lookup_weaken.
  - destruct (R' !! name) as [r'|] eqn:Hr'.
    + rewrite (Hnew name Hnone) in Hin by eauto. done.
    + by rewrite lookupResolver_inherited.
Qed.

(** A rewrite that returns under a registry returns the same under every
    registry that resolves as it does the names it has a function for:
    one that has the same resolvers and more, none of them in front of a
    function the first inherits.  What [applySkipResolver] returns,
    [applyDirectives] returns with a registry of [skip] and [include]. *)
Theorem larger_registry doc variables (R R' : Resolvers) doc' :
  extends R R' →
  applyDirectives doc variables (Some R) = Return doc' →
  applyDirectives doc variables (Some R') = Return doc'.
Proof.
  intros Hext.
  assert (Hset : ∀ ss out,
            applyDirectivesToSelectionSet (default ∅ variables) R ss = Return out →
            applyDirectivesToSelectionSet (default ∅ variables) R' ss = Return out).
  { apply (SelectionSet_tree_ind
             (λ s, ∀ r, applyDirectivesToSelection (default ∅ variables) R s = Return r →
                        applyDirectivesToSelection (default ∅ variables) R' s = Return r)
             (λ ss, ∀ out,
                applyDirectivesToSelectionSet (default ∅ variables) R ss = Return out →
                applyDirectivesToSelectionSet (default ∅ variables) R' ss = Return out)).
    - intros. by eapply applyDirectivesToSelection_registry.
    - intros a n args ds ss IH. apply applyDirectivesToSelection_registry; [done|].
      intros ? ? [= <-]. apply IH.
    - intros. by eapply applyDirectivesToSelection_registry.
    - intros t ds ss IH. apply applyDirectivesToSelection_registry; [done|].
      intros ? ? [= <-]. apply IH.
    - done.
    - intros l Hl out H.
      apply applyDirectivesToSelectionSet_Return in H as (mapped & H & ->).
      apply applyDirectivesToSelectionSet_Return. exists mapped. split; [|done].
      induction H as [|s r l mapped Hr _ IH]; [constructor|].
      apply Forall_cons in Hl as [Hs Hl]. constructor; [by apply Hs | by apply IH]. }
  intros H. apply applyDirectives_Return in H
    as (queryDef & queryDef' & fragments' & Hget & (qss & Hqss & ->) & Hfs & ->).
  apply applyDirectives_Return.
  exists queryDef, (def_set_selectionSet queryDef qss), fragments'.
  split_and!; [done| | |done].
  - exists qss. split; [by apply Hset | done].
  - eapply Forall2_impl; [exact Hfs|]. intros f f' (ss' & Hss' & ->).
    exists ss'. split; [by apply Hset | done].
Qed.

Lemma larger_registry_witness :
  applyDirectives (queryOf (outer [skip_if false])) None (Some skipAndInclude)
  = Return (queryOf (Build_SelectionSet
                       [Field None "a" [] [skip_if false]
                          (Some (Build_SelectionSet [leaf "c" []]))])).
Proof.
  refine (larger_registry (queryOf (outer [skip_if false])) None
            {[ "skip" := skipDirectiveResolver ]} skipAndInclude _ _ eq_refl).
  apply extends_subseteq; [apply insert_mono, map_empty_subseteq|].
  intros name. unfold skipAndInclude, DirectiveResolver.
  rewrite lookup_singleton, lookup_insert.
  case_decide; [done|]. intros _. rewrite lookup_singleton.
  case_decide; [by subst | by intros []].
Defined.

(** *** The two entry points with one resolver *)

(** [applySkipResolver] has no resolver for [include], and
    [applyIncludeResolver] none for [skip]: on a document whose query has,
    among the selections of its selection set, one with a directive of the
    other name, the call throws. *)
Theorem one_resolver_throws_on_the_other doc variables queryDef selection directive :
  getQueryDefinition doc = Return queryDef →
  selection ∈ selections (def_selectionSet queryDef) →
  directive ∈ directives selection →
  (dir_name directive = Some "include" → throws (applySkipResolver doc variables))
  ∧ (dir_name directive = Some "skip" → throws (applyIncludeResolver doc variables)).
Proof.
  intros Hget Hsel Hin.
  assert (Hthrows : ∀ (R : Resolvers) name,
            dir_name directive = Some name → name ≠ "" → lookupResolver R name = None →
            throws (applyDirectives doc variables (Some R))).
  { intros R name Hname Hne Hlk. unfold applyDirectives. cbv zeta. rewrite Hget. simpl.
    destruct (def_selectionSet queryDef) as [l] eqn:Hl.
    rewrite applyDirectivesToSelectionSet_eq.
    destruct (mapM_throws (applyDirectivesToSelection (default ∅ variables) R) l selection
                Hsel) as [e He]; [by eapply unregistered_directive_throws|].
    rewrite He. by exists e. }
  split; intros Hname.
  - by apply (Hthrows _ "include").
  - by apply (Hthrows _ "skip").
Qed.

Lemma one_resolver_throws_on_the_other_witness :
  throws (applySkipResolver included None).
Proof.
  refine (proj1 (one_resolver_throws_on_the_other included None
                   (OperationDefinition query None []
                      (Build_SelectionSet [leaf "a" [include_if true]]))
                   (leaf "a" [include_if true]) (include_if true) eq_refl _ _) eq_refl).
  - apply list_elem_of_singleton. reflexivity.
  - apply list_elem_of_singleton. reflexivity.
Defined.

(** *** The first throw *)

(** The selections are gone through from left to right and nothing is
    caught: when the callback returns on the selections before one and
    throws on that one, the rewrite of the selection set throws what it
    threw, whatever comes after. *)
Theorem first_throw_wins variables (R : Resolvers) before selection after e :
  Forall (λ s, ¬ throws (applyDirectivesToSelection variables R s)) before →
  applyDirectivesToSelection variables R selection = Throw e →
  applyDirectivesToSelectionSet variables R
    (Build_SelectionSet (before ++ selection :: after)) = Throw e.
Proof.
  intros Hbefore He. rewrite applyDirectivesToSelectionSet_eq.
  induction Hbefore as [|s before Hs _ IH]; simpl.
  - by rewrite He.
  - destruct (applyDirectivesToSelection variables R s) as [r|e'] eqn:Hr;
      [|destruct Hs; by exists e'].
    simpl. destruct (mapM _ (before ++ selection :: after)) as [k|e'']; simpl in *;
      congruence.
Qed.

Lemma first_throw_wins_witness :
  applyDirectivesToSelectionSet ∅ skipAndInclude
    (Build_SelectionSet
       [leaf "x" [skip_if true];
        leaf "a" [ {| dir_name := Some "foo"; dir_arguments := [] |} ];
        leaf "y" [conditional "skip" (Variable_ "show")]])
  = Throw (TypeError "directiveResolver is not a function").
Proof.
  refine (first_throw_wins ∅ skipAndInclude [leaf "x" [skip_if true]]
            (leaf "a" [ {| dir_name := Some "foo"; dir_arguments := [] |} ])
            [leaf "y" [conditional "skip" (Variable_ "show")]] _ _ eq_refl).
  constructor; [|constructor]. intros [e He]. vm_compute in He. discriminate.
Defined.

End MoreTheory.

(** ** [applyDirectives] on objects and on values *)

Module DocRefinement.
Import Directives Store StoreNotions Representation DocRepresentation.
Import StoreTheory Refinement.
Local Open Scope nat_scope.

(** *** The copy *)

Section Clone.
Context (h : Heap).
Let n := bound h.
Let up := λ l : nat, l + n.
Let h1 : Heap := h ∪ kmap up (relocate up <$> h).

Lemma clone_lookup x o : h !! x = Some o → h1 !! up x = Some (relocate up o).
Proof.
  intros Ho. unfold h1. apply lookup_union_Some_raw. right. split.
  - apply bound_None. unfold up, n. lia.
  - rewrite (lookup_kmap up), lookup_fmap, Ho. done.
Qed.

Lemma clone_sub : h ⊆ h1.
Proof. apply map_union_subseteq_l. Qed.

Lemma up_not_elem l (F : gset nat) : l ∉ F → up l ∉ set_map (C:=gset nat) (D:=gset nat) up F.
Proof.
  intros Hl [x [Hx Hin]]%elem_of_map. unfold up in Hx.
  assert (x = l) by lia. by subst.
Qed.

Lemma up_disjoint (F1 F2 : gset nat) :
  F1 ## F2 →
  set_map (C:=gset nat) (D:=gset nat) up F1 ## set_map (C:=gset nat) (D:=gset nat) up F2.
Proof.
  intros Hd y [x1 [-> H1]]%elem_of_map [x2 [Hx H2]]%elem_of_map.
  unfold up in Hx. assert (x1 = x2) by lia. subst. by apply (Hd x2).
Qed.

Lemma clone_rep :
  (∀ l s F, repSel h l s F → repSel h1 (up l) s (set_map up F))
  ∧ (∀ l ss F, repSet h l ss F → repSet h1 (up l) ss (set_map up F))
  ∧ (∀ ls sels F, repSels h ls sels F → repSels h1 (up <$> ls) sels (set_map up F)).
Proof.
  apply rep_mutind.
  - intros l a nm args ds Hl. rewrite set_map_singleton_L.
    apply rep_leaf. by rewrite (clone_lookup _ _ Hl).
  - intros l a nm args ds lss ss F Hl _ IH Hnot.
    rewrite set_map_union_L, set_map_singleton_L.
    apply (rep_field _ _ _ _ _ _ (up lss)); [by rewrite (clone_lookup _ _ Hl)|done|].
    by apply up_not_elem.
  - intros l nm ds Hl. rewrite set_map_singleton_L.
    apply rep_spread. by rewrite (clone_lookup _ _ Hl).
  - intros l t ds lss ss F Hl _ IH Hnot.
    rewrite set_map_union_L, set_map_singleton_L.
    apply (rep_inline _ _ _ _ (up lss)); [by rewrite (clone_lookup _ _ Hl)|done|].
    by apply up_not_elem.
  - intros l Hl. rewrite set_map_singleton_L.
    apply rep_not. by rewrite (clone_lookup _ _ Hl).
  - intros l ls sels F Hl _ IH Hnot.
    rewrite set_map_union_L, set_map_singleton_L.
    apply (rep_set _ _ (up <$> ls)); [by rewrite (clone_lookup _ _ Hl)|done|].
    by apply up_not_elem.
  - rewrite set_map_empty. constructor.
  - intros l ls s sels F1 F2 _ IH1 _ IH2 Hdisj.
    rewrite set_map_union_L, fmap_cons. constructor; [done|done|by apply up_disjoint].
Qed.

Lemma clone_repDef l d F : repDef h l d F → repDef h1 (up l) d (set_map up F).
Proof.
  intros (lss & Fs & Hl & Hss & Hnot & ->).
  exists (up lss), (set_map up Fs). split_and!.
  - rewrite (clone_lookup _ _ Hl). by destruct d.
  - by apply clone_rep.
  - by apply up_not_elem.
  - by rewrite set_map_union_L, set_map_singleton_L.
Qed.

Lemma clone_repDefs ls defs F :
  repDefs h ls defs F → repDefs h1 (up <$> ls) defs (set_map up F).
Proof.
  induction 1 as [|l ls d defs F1 F2 Hd _ IH Hdisj].
  - rewrite set_map_empty. constructor.
  - rewrite set_map_union_L, fmap_cons.
    constructor; [by apply clone_repDef|done|by apply up_disjoint].
Qed.

Lemma clone_repDoc l doc F : repDoc h l doc F → repDoc h1 (up l) doc (set_map up F).
Proof.
  intros (ls & Fd & Hl & Hdefs & Hnot & ->).
  exists (up <$> ls), (set_map up Fd). split_and!.
  - by rewrite (clone_lookup _ _ Hl).
  - by apply clone_repDefs.
  - by apply up_not_elem.
  - by rewrite set_map_union_L, set_map_singleton_L.
Qed.

Lemma clone_fresh (F : gset nat) x :
  x ∈ set_map (C:=gset nat) (D:=gset nat) up F → h !! x = None.
Proof.
  intros [y [-> _]]%elem_of_map. apply bound_None. unfold up, n. lia.
Qed.

End Clone.

(** *** Definitions in the store *)

Lemma repDef_dom h l d F x : repDef h l d F → x ∈ F → is_Some (h !! x).
Proof.
  intros (lss & Fs & Hl & Hss & _ & ->) [->%elem_of_singleton|Hx]%elem_of_union;
    [eauto | by eapply repSet_dom].
Qed.

Lemma repDefs_dom h ls defs F x : repDefs h ls defs F → x ∈ F → is_Some (h !! x).
Proof.
  induction 1 as [|l ls d defs F1 F2 Hd _ IH _]; [set_solver|].
  intros [Hx|Hx]%elem_of_union; [by eapply repDef_dom | by apply IH].
Qed.

Lemma repDef_frame Fx h h' l d F :
  frame Fx h h' → repDef h l d F → F ## Fx → repDef h' l d F.
Proof.
  intros Hf (lss & Fs & Hl & Hss & Hnot & ->) Hdisj.
  exists lss, Fs. split_and!; [|eapply repSet_frame; [exact Hf|done|set_solver]|done|done].
  apply (Hf l _ Hl). set_solver.
Qed.

Lemma repDefs_frame Fx h h' ls defs F :
  frame Fx h h' → repDefs h ls defs F → F ## Fx → repDefs h' ls defs F.
Proof.
  intros Hf. induction 1 as [|l ls d defs F1 F2 Hd _ IH Hd12]; intros Hdisj;
    [constructor|].
  constructor; [eapply repDef_frame; [exact Hf|done|set_solver]|apply IH; set_solver|done].
Qed.

Lemma selectionSetOf_defObj (h : Heap) l d lss :
  h !! l = Some (defObj d lss) → selectionSetOf l h = (Return lss, h).
Proof.
  intros Hl. unfold selectionSetOf. rewrite bind_run, (read_Some _ _ _ Hl). by destruct d.
Qed.

Lemma assign_selectionSet_defObj (h : Heap) l d lss :
  h !! l = Some (defObj d lss) → assign_selectionSet l lss h = (Return (), h).
Proof.
  intros Hl. unfold assign_selectionSet. rewrite bind_run, (read_Some _ _ _ Hl).
  destruct d; simpl in *; unfold write; by rewrite insert_id.
Qed.

Lemma defObj_set d ss lss : defObj (def_set_selectionSet d ss) lss = defObj d lss.
Proof. by destruct d. Qed.

Lemma rewriteDefinitionObj_run {B} stack variables R' l (rest : M B) (h : Heap) :
  (selSet ← selectionSetOf l;
   newSelSet ← applyDirectivesToSelectionSet stack variables R' selSet;
   assign_selectionSet l newSelSet;; rest) h
  = match rewriteDefinitionObj stack variables R' l h with
    | (Return _, h') => rest h'
    | (Throw e, h') => (Throw e, h')
    end.
Proof.
  unfold rewriteDefinitionObj. rewrite !bind_run.
  destruct (selectionSetOf l h) as [[lss|e] h1]; [|done]. rewrite !bind_run.
  destruct (applyDirectivesToSelectionSet stack variables R' lss h1) as [[lss'|e] h2];
    [|done].
  rewrite bind_run. by destruct (assign_selectionSet l lss' h2) as [[[]|e] h3].
Qed.

Section Related.
Context (variables : Variables) (R : Directives.Resolvers) (R' : Resolvers).
Context (Hrel : related R R').

Lemma rewriteDefinitionObj_refines stack h l d F :
  repDef h l d F → depthSet (def_selectionSet d) ≤ stack →
  ∃ c h',
    rewriteDefinitionObj stack variables R' l h = (c, h')
    ∧ frame F h h'
    ∧ match Directives.applyDirectivesToSelectionSet variables R (def_selectionSet d) with
      | Return ss' =>
          c = Return ()
          ∧ ∃ F', repDef h' l (def_set_selectionSet d ss') F' ∧ within F' F h
      | Throw e => c = Throw e
      end.
Proof.
  intros (lss & Fs & Hl & Hss & Hnot & ->) Hdepth. unfold rewriteDefinitionObj.
  rewrite bind_run, (selectionSetOf_defObj _ _ _ _ Hl).
  destruct (applyDirectivesToSelectionSet_refines variables R R' Hrel stack
              h lss _ Fs Hss Hdepth) as (c & h' & Hrun & Hframe & Hres).
  rewrite bind_run, Hrun.
  assert (Hframe' : frame ({[l]} ∪ Fs) h h') by (eapply frame_mono; [done|set_solver]).
  destruct (Directives.applyDirectivesToSelectionSet variables R (def_selectionSet d))
    as [ss'|e]; [|subst c; by eexists _, _].
  destruct Hres as (-> & Fs' & Hss' & Hwithin).
  assert (Hl' : h' !! l = Some (defObj d lss)) by (by apply (Hframe l _ Hl)).
  rewrite (assign_selectionSet_defObj _ _ _ _ Hl').
  eexists _, _. split; [done|]. split; [done|]. split; [done|].
  exists ({[l]} ∪ Fs'). split.
  - exists lss, Fs'. split_and!; [by rewrite defObj_set| |..|done].
    + by destruct d.
    + intros Hin. destruct (Hwithin l Hin); [done|congruence].
  - intros x [->%elem_of_singleton|Hx]%elem_of_union; [left; set_solver|].
    destruct (Hwithin x Hx); [left; set_solver|by right].
Qed.

Lemma rewriteDefinitionObjs_refines stack :
  ∀ defs ls Fd h,
    repDefs h ls defs Fd →
    Forall (λ d, depthSet (def_selectionSet d) ≤ stack) defs →
    ∃ c h',
      rewriteDefinitionObjs stack variables R' ls h = (c, h')
      ∧ frame Fd h h'
      ∧ match rewriteDefinitions variables R defs with
        | Return defs' =>
            c = Return ls ∧ ∃ F', repDefs h' ls defs' F' ∧ within F' Fd h
        | Throw e => c = Throw e
        end.
Proof.
  unfold rewriteDefinitionObjs, rewriteDefinitions.
  induction defs as [|d defs IH]; intros ls Fd h Hrep Hdepth.
  - inversion Hrep; subst. simpl. eexists _, _. split; [done|]. split; [apply frame_refl|].
    split; [done|]. exists ∅. split; [constructor|apply within_refl].
  - inversion Hrep as [|l ls' ? ? F1 F2 Hd Hdefs Hdisj]; subst.
    apply Forall_cons in Hdepth as [Hd1 Hdepth].
    destruct (rewriteDefinitionObj_refines stack h l d F1 Hd Hd1)
      as (c1 & h1 & Hrun1 & Hframe1 & Hres1).
    cbn [mapM]. rewrite bind_run.
    rewrite rewriteDefinitionObj_run, Hrun1.
    destruct (Directives.applyDirectivesToSelectionSet variables R (def_selectionSet d))
      as [ss'|e] eqn:Hpure; cbn [mbind Completion_bind mret Completion_ret];
      [|subst c1; eexists _, _; split; [done|]; split;
        [eapply frame_mono; [done|set_solver]|done]].
    destruct Hres1 as (-> & F1' & Hd' & Hwithin1).
    assert (Hdefs1 : repDefs h1 ls' defs F2).
    { eapply repDefs_frame; [exact Hframe1|done|set_solver]. }
    destruct (IH ls' F2 h1 Hdefs1 Hdepth) as (c2 & h2 & Hrun2 & Hframe2 & Hres2).
    cbn [mret M_ret]. rewrite bind_run, Hrun2.
    assert (Hframe : frame (F1 ∪ F2) h h2).
    { eapply (frame_trans _ F2); [eapply frame_mono; [done|set_solver]|done|].
      intros x Hx. left. set_solver. }
    destruct (mapM _ defs) as [defs'|e]; [|subst c2; by eexists _, _].
    destruct Hres2 as (-> & F2' & Hdefs' & Hwithin2).
    assert (Hapart : F1' ## F2).
    { intros x Hx1 Hx2. destruct (repDefs_dom _ _ _ _ x Hdefs Hx2) as [o Ho].
      destruct (Hwithin1 x Hx1) as [Hin|Hnone]; [by apply (Hdisj x)|congruence]. }
    eexists _, _. split; [done|]. split; [done|]. split; [done|].
    exists (F1' ∪ F2'). split.
    + constructor; [eapply repDef_frame; [exact Hframe2|done|done] | done |].
      intros x Hx1 Hx2. destruct (Hwithin2 x Hx2) as [Hin|Hnone]; [by apply (Hapart x)|].
      destruct (repDef_dom _ _ _ _ x Hd' Hx1) as [o Ho]. congruence.
    + intros x [Hx|Hx]%elem_of_union.
      * destruct (Hwithin1 x Hx); [left; set_solver|by right].
      * destruct (Hwithin2 x Hx) as [?|Hnone]; [left; set_solver|right].
        exact (frame_None _ _ _ _ Hframe1 Hnone).
Qed.

End Related.

(** The two filters of [applyDirectives] on the definitions of a document
    in the store: they read, and what they give are trees apart from one
    another. *)
Lemma split_defs h ls defs Fd :
  repDefs h ls defs Fd →
  ∃ lsq lsf Fq Ff,
    filterM (λ l, o ← read l; mret (isQueryDefinitionObj o)) ls h = (Return lsq, h)
    ∧ filterM (λ l, o ← read l; mret (isFragmentDefinitionObj o)) ls h = (Return lsf, h)
    ∧ repDefs h lsq (filter (λ d, isQueryDefinition d) defs) Fq
    ∧ repDefs h lsf (filter (λ d, isFragmentDefinition d) defs) Ff
    ∧ Fq ## Ff ∧ Fq ⊆ Fd ∧ Ff ⊆ Fd.
Proof.
  induction 1 as [|l ls d defs F1 F2 Hd Hdefs IH Hdisj].
  - exists [], [], ∅, ∅. split_and!; try done; constructor.
  - destruct IH as (lsq & lsf & Fq & Ff & Hq & Hf & Hrq & Hrf & Hqf & Hsq & Hsf).
    pose proof Hd as (lss & Fs & Hl & _).
    cbn [filterM]. rewrite !bind_run, (read_Some _ _ _ Hl).
    cbn [mret M_ret]. rewrite !bind_run, Hq, Hf. cbn [mret M_ret].
    assert (H1q : F1 ## Fq) by (intros x H1 H2; apply (Hdisj x H1), Hsq, H2).
    assert (H1f : F1 ## Ff) by (intros x H1 H2; apply (Hdisj x H1), Hsf, H2).
    assert (Hq2 : Fq ⊆ F1 ∪ F2) by (etrans; [exact Hsq|apply union_subseteq_r]).
    assert (Hf2 : Ff ⊆ F1 ∪ F2) by (etrans; [exact Hsf|apply union_subseteq_r]).
    destruct d as [[| |] n ds ss | n t ds ss]; cbn [defObj isQueryDefinitionObj
      isFragmentDefinitionObj].
    + rewrite filter_cons_True by exact I. rewrite filter_cons_False by exact id.
      exists (l :: lsq), lsf, (F1 ∪ Fq), Ff. split_and!; try done.
      * by constructor.
      * by apply disjoint_union_l.
      * by apply union_mono_l.
    + rewrite !filter_cons_False by exact id.
      exists lsq, lsf, Fq, Ff. by split_and!.
    + rewrite !filter_cons_False by exact id.
      exists lsq, lsf, Fq, Ff. by split_and!.
    + rewrite filter_cons_False by exact id. rewrite filter_cons_True by exact I.
      exists lsq, (l :: lsf), Fq, (F1 ∪ Ff). split_and!; try done.
      * by constructor.
      * by apply disjoint_union_r.
      * by apply union_mono_l.
Qed.

Lemma depthDoc_Forall doc stack :
  depthDoc doc ≤ stack →
  Forall (λ d, depthSet (def_selectionSet d) ≤ stack) (definitions doc).
Proof.
  unfold depthDoc. induction (definitions doc) as [|d defs IH]; simpl; intros Hle;
    constructor; [lia | apply IH; lia].
Qed.

Lemma Forall_filter_keeps {A} (P : A → Prop) (p : A → bool) (l : list A) :
  Forall P l → Forall P (filter (λ x, p x) l).
Proof.
  intros H. apply Forall_forall. intros x [_ Hx]%list_elem_of_filter.
  by apply (proj1 (Forall_forall _ _) H).
Qed.

Lemma sub_frame Fx (h h1 h2 : Heap) :
  h ⊆ h1 → frame Fx h1 h2 → (∀ x, x ∈ Fx → h !! x = None) → h ⊆ h2.
Proof.
  intros Hsub Hframe Hfresh. apply map_subseteq_spec. intros x o Ho.
  apply (Hframe x o); [by eapply (proj1 (map_subseteq_spec _ _) Hsub)|].
  intros Hx. rewrite (Hfresh x Hx) in Ho. done.
Qed.

(** [applyDirectives] on a document held in the store as a tree, with a
    registry that resolves as the one on values does and stack enough for
    the depth of the document, completes as [Directives.applyDirectives]
    does on the document: with the same throw, or with a reference to a
    tree for the document the embedding on values returns.  That tree is
    made of objects at addresses that were not in use before the call, and
    every object there was before the call is as it was: the argument is
    not written to and shares nothing with the result. *)
Lemma applyDirectives_tree (doc : Document) (variables : option Variables)
    (R : option Directives.Resolvers) (R' : option Resolvers) (h : Heap) l F stack :
  related (default ∅ R) (default ∅ R') →
  repDoc h l doc F →
  depthDoc doc ≤ stack →
  ∃ c h',
    Store.applyDirectives stack l variables R' h = (c, h')
    ∧ h ⊆ h'
    ∧ match Directives.applyDirectives doc variables R with
      | Return doc' =>
          ∃ l' F', c = Return l' ∧ repDoc h' l' doc' F' ∧ ∀ x, x ∈ F' → h !! x = None
      | Throw e => c = Throw e
      end.
Proof.
  intros Hrel Hrep Hdepth.
  unfold Store.applyDirectives, Directives.applyDirectives. cbv zeta.
  set (vs := default ∅ variables). set (Rv := default ∅ R) in *.
  set (Rs := default ∅ R') in *.
  pose proof (clone_repDoc h l doc F Hrep) as Hrep1.
  pose proof (clone_sub h) as Hsub1.
  pose proof (clone_fresh h) as Hfresh1.
  cbv zeta in Hrep1, Hsub1, Hfresh1.
  rewrite bind_run. unfold cloneDeep at 1. cbv zeta. cbn beta in Hrep1.
  set (n := bound h) in *.
  set (h1 := h ∪ kmap (λ l, l + n) (relocate (λ l, l + n) <$> h)) in *.
  set (l1 := l + n) in *.
  destruct Hrep1 as (ls1 & Fd1 & Hl1 & Hdefs1 & Hnot1 & HF1).
  assert (HfreshF : ∀ x, x ∈ {[l1]} ∪ Fd1 → h !! x = None).
  { intros x Hx. apply (Hfresh1 F). by rewrite HF1. }
  destruct (split_defs _ _ _ _ Hdefs1)
    as (lsq & lsf & Fq & Ff & Hq & Hf & Hrq & Hrf & Hqf & Hsq & Hsf).
  rewrite bind_run. unfold getFragmentDefinitions.
  rewrite bind_run, (read_Some _ _ _ Hl1), Hf.
  rewrite bind_run. unfold getQueryDefinition.
  rewrite bind_run, (read_Some _ _ _ Hl1), bind_run, Hq.
  unfold Directives.getQueryDefinition, Directives.getFragmentDefinitions.
  pose proof (depthDoc_Forall _ _ Hdepth) as Hall.
  pose proof (Forall_filter_keeps _ isQueryDefinition _ Hall) as Hallq.
  pose proof (Forall_filter_keeps _ isFragmentDefinition _ Hall) as Hallf.
  destruct (filter (λ d, isQueryDefinition d) (definitions doc)) as [|qd qs].
  { inversion Hrq; subst. by eexists _, _. }
  inversion Hrq as [|lq lsq' ? ? Fq1 Fq2 Hqd _ _]; subst.
  apply Forall_cons in Hallq as [Hdq _].
  cbn [mbind Completion_bind]. cbn [mret M_ret].
  rewrite rewriteDefinitionObj_run.
  destruct (rewriteDefinitionObj_refines vs Rv Rs Hrel stack h1 lq qd Fq1 Hqd Hdq)
    as (c1 & h2 & Hrun1 & Hframe1 & Hres1).
  rewrite Hrun1.
  assert (Hq1 : Fq1 ⊆ Fd1) by (etrans; [apply union_subseteq_l|exact Hsq]).
  assert (Hsub2 : h ⊆ h2).
  { apply (sub_frame Fq1 h h1 h2); [done|done|].
    intros x Hx. apply HfreshF, elem_of_union_r, Hq1, Hx. }
  destruct (Directives.applyDirectivesToSelectionSet vs Rv (def_selectionSet qd))
    as [ss'|e]; [|subst c1; by eexists _, _].
  destruct Hres1 as (-> & Fq1' & Hqd' & Hwithin1).
  assert (Hrf2 : repDefs h2 lsf (filter (λ d, isFragmentDefinition d) (definitions doc)) Ff).
  { eapply repDefs_frame; [exact Hframe1|done|].
    intros x Hx1 Hx2. apply (Hqf x); [by apply elem_of_union_l|done]. }
  destruct (rewriteDefinitionObjs_refines vs Rv Rs Hrel stack _ lsf Ff h2 Hrf2 Hallf)
    as (c2 & h3 & Hrun2 & Hframe2 & Hres2).
  unfold rewriteDefinitionObjs in Hrun2. unfold rewriteDefinitions in Hres2.
  rewrite bind_run, Hrun2. cbn [mbind Completion_bind].
  assert (Hsub3 : h ⊆ h3).
  { apply (sub_frame Ff h h2 h3); [done|done|].
    intros x Hx. apply HfreshF, elem_of_union_r, Hsf, Hx. }
  destruct (mapM _ (filter (λ d, isFragmentDefinition d) (definitions doc)))
    as [frags'|e]; [|subst c2; by eexists _, _].
  destruct Hres2 as (-> & Ff' & Hrf' & Hwithin2).
  assert (Hl2 : is_Some (h2 !! l1)) by apply (Hframe1 l1 _ Hl1).
  assert (Hl3 : h3 !! l1 = Some (DocumentObj ls1)).
  { apply (Hframe2 l1); [apply (Hframe1 l1 _ Hl1); intros Hx; apply Hnot1, Hq1, Hx|].
    intros Hx. apply Hnot1, Hsf, Hx. }
  rewrite bind_run. unfold assign_definitions.
  rewrite bind_run, (read_Some _ _ _ Hl3). unfold write. cbn [mret M_ret].
  set (h4 := <[l1 := DocumentObj (lq :: lsf)]> h3).
  assert (Hframe3 : frame {[l1]} h3 h4).
  { apply frame_insert. left. by apply elem_of_singleton. }
  assert (Hapart1 : Fq1' ## Ff).
  { intros x Hx1 Hx2. destruct (Hwithin1 x Hx1) as [Hin|Hnone];
      [apply (Hqf x); [by apply elem_of_union_l|done] |].
    destruct (repDefs_dom _ _ _ _ x Hrf Hx2) as [o Ho]. congruence. }
  assert (Hqd3 : repDef h3 lq (def_set_selectionSet qd ss') Fq1').
  { eapply repDef_frame; [exact Hframe2|done|done]. }
  assert (Hapart2 : Fq1' ## Ff').
  { intros x Hx1 Hx2. destruct (Hwithin2 x Hx2) as [Hin|Hnone]; [by apply (Hapart1 x)|].
    destruct (repDef_dom _ _ _ _ x Hqd' Hx1) as [o Ho]. congruence. }
  assert (Hnotq : l1 ∉ Fq1').
  { intros Hx. destruct (Hwithin1 l1 Hx) as [Hin|Hnone]; [by apply Hnot1, Hq1|congruence]. }
  assert (Hnotf : l1 ∉ Ff').
  { intros Hx. destruct (Hwithin2 l1 Hx) as [Hin|Hnone]; [by apply Hnot1, Hsf|].
    destruct Hl2 as [o Ho]. congruence. }
  assert (Hnot' : l1 ∉ Fq1' ∪ Ff') by (by intros [?|?]%elem_of_union).
  eexists _, _. split; [done|]. split.
  { apply (sub_frame {[l1]} h h3 h4); [done|done|].
    intros x Hx. apply HfreshF. by apply elem_of_union_l. }
  exists l1, ({[l1]} ∪ (Fq1' ∪ Ff')). split; [done|]. split.
  - exists (lq :: lsf), (Fq1' ∪ Ff'). split_and!; [|..|done|done].
    + unfold h4. rewrite lookup_insert. by case_decide.
    + eapply repDefs_frame; [exact Hframe3|by constructor|].
      intros x Hx ->%elem_of_singleton. done.
  - intros x [Hx|[Hx|Hx]%elem_of_union]%elem_of_union.
    + apply HfreshF. by apply elem_of_union_l.
    + destruct (Hwithin1 x Hx) as [Hin|Hnone]; [apply HfreshF, elem_of_union_r, Hq1, Hin|].
      eapply lookup_weaken_None; [exact Hnone|exact Hsub1].
    + destruct (Hwithin2 x Hx) as [Hin|Hnone]; [apply HfreshF, elem_of_union_r, Hsf, Hin|].
      eapply lookup_weaken_None; [exact Hnone|exact Hsub2].
Qed.

(** *** Documents put in the store *)

Lemma allocates_definition d : allocates repDef allocDefinition d.
Proof.
  intros h.
  destruct (allocates_selectionSet (def_selectionSet d) h)
    as (lss & h1 & F & Hrun & Hrep & Hfresh & Hframe).
  exists (bound h1), (<[bound h1 := defObj d lss]> h1), ({[bound h1]} ∪ F).
  assert (Hnot : bound h1 ∉ F).
  { intros Hx. destruct (repSet_dom _ _ _ _ _ Hrep Hx) as [o Ho].
    by rewrite bound_fresh in Ho. }
  split_and!.
  - destruct d; simpl in *; by rewrite bind_run, Hrun.
  - exists lss, F. split_and!; [|eapply repSet_frame; [apply (frame_alloc ∅)|done|]|done|done].
    + rewrite lookup_insert. by case_decide.
    + apply disjoint_empty_r.
  - intros x [->%elem_of_singleton|Hx]%elem_of_union; [|by apply Hfresh].
    eapply frame_None; [exact Hframe|apply bound_fresh].
  - eapply frame_trans; [exact Hframe|apply frame_alloc|apply within_refl].
Qed.

Lemma allocates_definitions defs :
  ∀ h, ∃ ls h' F,
    mapM allocDefinition defs h = (Return ls, h') ∧ repDefs h' ls defs F
    ∧ (∀ x, x ∈ F → h !! x = None) ∧ frame ∅ h h'.
Proof.
  induction defs as [|d defs IH]; intros h; simpl.
  - exists [], h, ∅. split_and!; [done|constructor| |apply frame_refl].
    intros x Hx. by apply not_elem_of_empty in Hx.
  - destruct (allocates_definition d h) as (l1 & h1 & F1 & Hrun1 & Hrep1 & Hfresh1 & Hframe1).
    destruct (IH h1) as (ls & h2 & F2 & Hrun2 & Hrep2 & Hfresh2 & Hframe2).
    exists (l1 :: ls), h2, (F1 ∪ F2).
    rewrite bind_run, Hrun1, bind_run, Hrun2.
    assert (Hdisj : F1 ## F2).
    { intros x Hx1 Hx2. apply Hfresh2 in Hx2.
      destruct (repDef_dom _ _ _ _ x Hrep1 Hx1). congruence. }
    split_and!; [done| | |].
    + constructor; [|done|done].
      eapply repDef_frame; [exact Hframe2|done|apply disjoint_empty_r].
    + intros x [Hx|Hx]%elem_of_union; [by apply Hfresh1|].
      eapply frame_None; [exact Hframe1 | by apply Hfresh2].
    + eapply frame_trans; [exact Hframe1|exact Hframe2|apply within_refl].
Qed.

(** Every document can be put in a store as a tree: [allocDocument] makes
    one at addresses that were not in use and changes nothing else. *)
Lemma allocates_document doc : allocates repDoc allocDocument doc.
Proof.
  intros h. unfold allocDocument.
  destruct (allocates_definitions (definitions doc) h)
    as (ls & h1 & F & Hrun & Hrep & Hfresh & Hframe).
  exists (bound h1), (<[bound h1 := DocumentObj ls]> h1), ({[bound h1]} ∪ F).
  assert (Hnot : bound h1 ∉ F).
  { intros Hx. destruct (repDefs_dom _ _ _ _ _ Hrep Hx) as [o Ho].
    by rewrite bound_fresh in Ho. }
  split_and!.
  - by rewrite bind_run, Hrun.
  - exists ls, F. split_and!; [|eapply repDefs_frame; [apply (frame_alloc ∅)|done|]|done|done].
    + rewrite lookup_insert. by case_decide.
    + apply disjoint_empty_r.
  - intros x [->%elem_of_singleton|Hx]%elem_of_union; [|by apply Hfresh].
    eapply frame_None; [exact Hframe|apply bound_fresh].
  - eapply frame_trans; [exact Hframe|apply frame_alloc|apply within_refl].
Qed.

(** *** Reading back *)

Lemma depthSel_nested s ss : nested s = Some ss → depthSel s = depthSet ss.
Proof. destruct s as [? ? ? ? [[?]|]| |? ? [?]|]; simpl; by intros [= <-]. Qed.

(** A tree for a selection set reads back as the selection set. *)
Lemma repSet_load depth :
  ∀ h l ss F, repSet h l ss F → depthSet ss ≤ depth → loadSelectionSet depth h l = Some ss.
Proof.
  induction depth as [|depth IH]; intros h l ss F Hrep Hd.
  { destruct ss. unfold depthSet in Hd. lia. }
  inversion Hrep as [? ls sels Fs Hl Hsels Hnot]; subst. simpl. rewrite Hl.
  apply fmap_Some. exists sels. split; [|done]. apply mapM_Some.
  assert (Hall : Forall (λ s, depthSel s ≤ depth) sels).
  { unfold depthSet in Hd. simpl in Hd. apply le_S_n in Hd. clear -Hd.
    induction sels as [|s sels IHs]; simpl in *; constructor; [lia|apply IHs; lia]. }
  clear Hrep Hd Hl Hnot. induction Hsels as [|x ls s sels F1 F2 Hs _ IHs _]; [constructor|].
  apply Forall_cons in Hall as [Hs1 Hall]. constructor; [|by apply IHs].
  inversion Hs as [? a n args ds Hx|? a n args ds lss ss Fn Hx Hss _|? n ds Hx
                  |? t ds lss ss Fn Hx Hss _|? Hx]; subst; rewrite Hx; try done.
  - rewrite (IH _ _ _ _ Hss); [done|].
    by rewrite <- (depthSel_nested (Field a n args ds (Some ss))).
  - rewrite (IH _ _ _ _ Hss); [done|].
    by rewrite <- (depthSel_nested (InlineFragment t ds ss)).
Qed.

(** A tree for a document reads back as the document. *)
Lemma repDoc_load depth h l doc F :
  repDoc h l doc F → depthDoc doc ≤ depth → loadDocument depth h l = Some doc.
Proof.
  intros (ls & Fd & Hl & Hdefs & _ & _) Hd. unfold loadDocument. rewrite Hl.
  apply depthDoc_Forall in Hd. destruct doc as [defs]. simpl in *.
  apply fmap_Some. exists defs. split; [|done]. apply mapM_Some. clear Hl.
  induction Hdefs as [|x ls d defs F1 F2 Hdef _ IH _]; [constructor|].
  apply Forall_cons in Hd as [Hd1 Hd]. constructor; [|by apply IH].
  destruct Hdef as (lss & Fs & Hx & Hss & _ & _). rewrite Hx.
  destruct d; simpl in *; by rewrite (repSet_load _ _ _ _ _ Hss Hd1).
Qed.

(** The two embeddings agree on every document.  When
    [Directives.applyDirectives] returns a document, [applyDirectives] on a
    tree for the argument returns a reference that was not in use, at
    which the returned document is read back; when the one throws, the
    other throws the same.  Either way every object there was is as it was,
    and at the reference that was given the argument is still read back. *)
Theorem applyDirectives_agree (doc : Document) (variables : option Variables)
    (R : option Directives.Resolvers) (R' : option Resolvers) (h : Heap) l F stack :
  related (default ∅ R) (default ∅ R') →
  repDoc h l doc F →
  depthDoc doc ≤ stack →
  ∃ c h',
    Store.applyDirectives stack l variables R' h = (c, h')
    ∧ h ⊆ h'
    ∧ loadDocument (depthDoc doc) h' l = Some doc
    ∧ match Directives.applyDirectives doc variables R with
      | Return doc' =>
          ∃ l', c = Return l' ∧ h !! l' = None
                ∧ loadDocument (depthDoc doc') h' l' = Some doc'
      | Throw e => c = Throw e
      end.
Proof.
  intros Hrel Hrep Hdepth.
  destruct (applyDirectives_tree doc variables R R' h l F stack Hrel Hrep Hdepth)
    as (c & h' & Hrun & Hsub & Hres).
  exists c, h'. split; [done|]. split; [done|]. split.
  { eapply loadDocument_mono; [exact Hsub|]. by eapply repDoc_load. }
  destruct (Directives.applyDirectives doc variables R) as [doc'|e]; [|done].
  destruct Hres as (l' & F' & -> & Hrep' & Hfresh).
  exists l'. split; [done|]. split; [|by eapply repDoc_load].
  destruct Hrep' as (? & ? & _ & _ & _ & ->).
  apply Hfresh, elem_of_union_l. by apply elem_of_singleton.
Qed.

Lemma applyDirectives_agree_witness :
  ∃ l h F c h',
    allocDocument Samples.document ∅ = (Return l, h)
    ∧ repDoc h l Samples.document F
    ∧ Store.applyDirectives 2 l (Some Samples.show) (Some conditionals) h = (c, h')
    ∧ h ⊆ h'
    ∧ loadDocument (depthDoc Samples.document) h' l = Some Samples.document
    ∧ match Directives.applyDirectives Samples.document (Some Samples.show)
              (Some Samples.skipAndInclude)
        with
      | Return doc' =>
          ∃ l', c = Return l' ∧ h !! l' = None
                ∧ loadDocument (depthDoc doc') h' l' = Some doc'
      | Throw e => c = Throw e
      end.
Proof.
  destruct (allocates_document Samples.document ∅) as (l & h & F & Hrun & Hrep & _ & _).
  destruct (applyDirectives_agree Samples.document (Some Samples.show)
              (Some Samples.skipAndInclude) (Some conditionals) h l F 2
              related_conditionals Hrep)
    as (c & h' & H); [vm_compute; lia|].
  by exists l, h, F, c, h'.
Defined.

End DocRefinement.
